(** * mumule: a worker pool over three atomic counters

    Shallow embedding of [src/mumule.h] (mule_init, mule_thread,
    mule_submit, mule_launch, mule_synchronize, mule_reset, mule_shutdown,
    mule_destroy) as an interleaving transition system.

    Every access to the shared [mu_mule] object is one transition; the
    atomics are taken sequentially consistent, so every execution of this
    model is an execution the C11 program admits.  Each thread is a program
    counter plus its local variables; a schedule is the list of transition
    labels, and [run] executes a schedule.

    - The counters are [size_t]: integers modulo [2^64], every addition
      written with [wrap].
    - The kernel is the caller's code.  A call of it is one transition,
      which records the worker and the item; the kernel does not call into
      the pool.
    - [cnd_wait] blocks until the condition is signalled or broadcast
      while the thread is inside the wait (C11 7.26.3.6); a wake-up that
      comes earlier is lost.  [cnd_timedwait] may in addition end by its
      deadline, at any moment: deadlines are transitions, not durations.
    - A library call under [assert] either succeeds or ends the program.

    The later revision of the header, [src/unnamed/part_002] (mule_start,
    mule_sync, mule_stop), differs from [src/mumule.h] for the properties
    studied here in how an idle worker parks: cnd_timedwait instead of
    cnd_wait.  The [revision] parameter selects between the two; everything
    else follows [src/mumule.h], whose line numbers the comments give.
    (The claim step of part_002, lines 204-206, assigns to a name it does
    not declare; its queue-empty test and its counters are those of
    [src/mumule.h].)

    Next to the pool, two pieces of sequential code are embedded as
    functions: the deadline arithmetic of mule_synchronize and of
    [_timespec_add] (part_002, lines 122-128) on [Z], and [log_printf] of
    [src/mulog.h] on lists of bytes.  There [None] stands for undefined
    behaviour: signed overflow, a write out of bounds. *)

From Stdlib Require Import ZArith Lia Bool List.
From stdpp Require Import list.
Import ListNotations.

Local Open Scope Z_scope.

(** ** Machine integers *)

(** [size_t] on the x86-64 targets the build file asks for: 64 bits,
    arithmetic modulo [2^64]. *)
Definition size_bits : Z := 64.
Definition size_modulus : Z := 2 ^ size_bits.
Definition wrap (z : Z) : Z := z mod size_modulus.

(** [enum { mumule_max_threads = 8 };] *)
Definition mumule_max_threads : nat := 8.

(** ** Revisions of the header *)

Inductive revision :=
| mumule_h     (* src/mumule.h: mule_launch / mule_synchronize / mule_shutdown *)
| part_002.    (* src/unnamed/part_002: mule_start / mule_sync / mule_stop *)

(** Line 119 of [src/mumule.h] parks with [cnd_wait]; line 196 of
    [part_002] parks with [cnd_timedwait] and a 10 ms deadline. *)
Definition worker_park_timed (rv : revision) : bool :=
  match rv with
  | mumule_h => false
  | part_002 => true
  end.

(** ** Worker threads *)

(** Program points of [mule_thread] (line numbers of [src/mumule.h]). *)
Inductive thread_pc :=
| T_none              (* no thread in this slot *)
| T_started           (* 103: fetch_add threads_running *)
| T_load_queued       (* 107 *)
| T_load_processing   (* 108, and the test of 111 *)
| T_mtx_lock          (* 113 *)
| T_load_running      (* 114-116 *)
| T_cnd_wait          (* 119: about to wait, mutex held *)
| T_blocked           (* 119: inside the wait, mutex released *)
| T_woken             (* 119: woken, re-acquiring the mutex *)
| T_mtx_unlock        (* 120 *)
| T_cas               (* 126-128 *)
| T_kernel            (* 129 *)
| T_fetch_add         (* 130, and the test of 133 *)
| T_cnd_signal        (* 141 *)
| T_leaving           (* 145 *)
| T_exited.           (* 149: returned, waiting to be joined *)

(** [struct mu_thread] together with the locals of [mule_thread]. *)
Record mu_thread := Mu_thread {
  t_idx : nat;
  t_pc : thread_pc;
  t_queued : Z;
  t_processing : Z;
  t_workitem : Z;
  t_processed : Z
}.

Definition thread_zero : mu_thread := Mu_thread 0 T_none 0 0 0 0.

Definition thread_with_pc (pc : thread_pc) (t : mu_thread) : mu_thread :=
  Mu_thread (t_idx t) pc (t_queued t) (t_processing t) (t_workitem t) (t_processed t).
Definition thread_with_idx (i : nat) (t : mu_thread) : mu_thread :=
  Mu_thread i (t_pc t) (t_queued t) (t_processing t) (t_workitem t) (t_processed t).
Definition thread_with_queued (v : Z) (t : mu_thread) : mu_thread :=
  Mu_thread (t_idx t) (t_pc t) v (t_processing t) (t_workitem t) (t_processed t).
Definition thread_with_processing (v : Z) (t : mu_thread) : mu_thread :=
  Mu_thread (t_idx t) (t_pc t) (t_queued t) v (t_workitem t) (t_processed t).
Definition thread_with_workitem (v : Z) (t : mu_thread) : mu_thread :=
  Mu_thread (t_idx t) (t_pc t) (t_queued t) (t_processing t) v (t_processed t).
Definition thread_with_processed (v : Z) (t : mu_thread) : mu_thread :=
  Mu_thread (t_idx t) (t_pc t) (t_queued t) (t_processing t) (t_workitem t) v.

(** ** The pool *)

Inductive owner :=
| O_caller
| O_thread (i : nat).

(** [struct mu_mule].  [kernel] and [userdata] are not stored: the calls
    made to the kernel are recorded in the state instead.  [live] stands
    for the mutex and the two conditions being initialised. *)
Record mu_mule := Mu_mule {
  running : bool;
  queued : Z;
  processing : Z;
  processed : Z;
  mutex : option owner;
  live : bool;
  num_threads : nat;
  threads_running : Z;
  threads : list mu_thread
}.

Definition mule_with_running (v : bool) (m : mu_mule) : mu_mule :=
  Mu_mule v (queued m) (processing m) (processed m) (mutex m) (live m)
          (num_threads m) (threads_running m) (threads m).
Definition mule_with_queued (v : Z) (m : mu_mule) : mu_mule :=
  Mu_mule (running m) v (processing m) (processed m) (mutex m) (live m)
          (num_threads m) (threads_running m) (threads m).
Definition mule_with_processing (v : Z) (m : mu_mule) : mu_mule :=
  Mu_mule (running m) (queued m) v (processed m) (mutex m) (live m)
          (num_threads m) (threads_running m) (threads m).
Definition mule_with_processed (v : Z) (m : mu_mule) : mu_mule :=
  Mu_mule (running m) (queued m) (processing m) v (mutex m) (live m)
          (num_threads m) (threads_running m) (threads m).
Definition mule_with_mutex (v : option owner) (m : mu_mule) : mu_mule :=
  Mu_mule (running m) (queued m) (processing m) (processed m) v (live m)
          (num_threads m) (threads_running m) (threads m).
Definition mule_with_live (v : bool) (m : mu_mule) : mu_mule :=
  Mu_mule (running m) (queued m) (processing m) (processed m) (mutex m) v
          (num_threads m) (threads_running m) (threads m).
Definition mule_with_threads_running (v : Z) (m : mu_mule) : mu_mule :=
  Mu_mule (running m) (queued m) (processing m) (processed m) (mutex m) (live m)
          (num_threads m) v (threads m).
Definition mule_with_threads (v : list mu_thread) (m : mu_mule) : mu_mule :=
  Mu_mule (running m) (queued m) (processing m) (processed m) (mutex m) (live m)
          (num_threads m) (threads_running m) v.

(** ** The caller of the lifecycle functions *)

(** The functions that return [int]. *)
Inductive api :=
| A_launch
| A_synchronize
| A_reset
| A_shutdown
| A_destroy.

(** Program points of the lifecycle functions (lines of [src/mumule.h]). *)
Inductive caller_pc :=
| D_idle
| D_launch_check            (* 161 *)
| D_launch_fill (idx : nat) (* 165-168 *)
| D_launch_store            (* 169-170 *)
| D_launch_create (i : nat) (* 172-174 *)
| D_sync_broadcast          (* 184 *)
| D_sync_lock               (* 187 *)
| D_sync_clock              (* 189-191 *)
| D_sync_load_queued        (* 193 *)
| D_sync_load_processed     (* 194-195 *)
| D_sync_timedwait          (* 202: about to wait, mutex held *)
| D_sync_blocked            (* 202: inside the wait, mutex released *)
| D_sync_woken              (* 202: woken or timed out, re-acquiring *)
| D_sync_unlock             (* 207-209 *)
| D_reset_queued            (* 216 *)
| D_reset_processing        (* 217 *)
| D_reset_processed         (* 218 *)
| D_reset_broadcast         (* 220-222 *)
| D_shut_check              (* 227 *)
| D_shut_lock               (* 232 *)
| D_shut_store              (* 233 *)
| D_shut_unlock             (* 234 *)
| D_shut_broadcast          (* 235 *)
| D_shut_join (i : nat)     (* 238-243 *)
| D_destroy_free.           (* 250-254 *)

(** The caller: where it is, the calls it is inside of (innermost first;
    mule_reset calls mule_synchronize, mule_destroy calls mule_shutdown),
    and the locals of mule_synchronize. *)
Record caller := Caller {
  d_pc : caller_pc;
  d_stack : list api;
  d_queued : Z;
  d_processed : Z
}.

Definition caller_with_pc (pc : caller_pc) (d : caller) : caller :=
  Caller pc (d_stack d) (d_queued d) (d_processed d).
Definition caller_with_stack (k : list api) (d : caller) : caller :=
  Caller (d_pc d) k (d_queued d) (d_processed d).
Definition caller_with_queued (v : Z) (d : caller) : caller :=
  Caller (d_pc d) (d_stack d) v (d_processed d).
Definition caller_with_processed (v : Z) (d : caller) : caller :=
  Caller (d_pc d) (d_stack d) (d_queued d) v.

(** ** Whole-program state *)

Inductive fault_kind :=
| F_assert          (* an assert(...) of the header failed: abort *)
| F_out_of_bounds.  (* a write past threads[mumule_max_threads] *)

Record state := State {
  mule : mu_mule;
  disp : caller;
  submitting : list (Z * Z);      (* mule_submit calls past line 154: (idx, count) *)
  submit_returns : list Z;        (* values returned by mule_submit, oldest first *)
  returns : list (api * Z);       (* values returned by the int functions, oldest first *)
  kernel_calls : list (nat * Z);  (* (thr_idx, item_idx) of every kernel call, oldest first *)
  fault : option fault_kind
}.

Definition with_mule (m : mu_mule) (s : state) : state :=
  State m (disp s) (submitting s) (submit_returns s) (returns s) (kernel_calls s) (fault s).
Definition with_disp (d : caller) (s : state) : state :=
  State (mule s) d (submitting s) (submit_returns s) (returns s) (kernel_calls s) (fault s).
Definition with_submitting (l : list (Z * Z)) (s : state) : state :=
  State (mule s) (disp s) l (submit_returns s) (returns s) (kernel_calls s) (fault s).
Definition with_submit_returns (l : list Z) (s : state) : state :=
  State (mule s) (disp s) (submitting s) l (returns s) (kernel_calls s) (fault s).
Definition with_returns (l : list (api * Z)) (s : state) : state :=
  State (mule s) (disp s) (submitting s) (submit_returns s) l (kernel_calls s) (fault s).
Definition with_kernel_calls (l : list (nat * Z)) (s : state) : state :=
  State (mule s) (disp s) (submitting s) (submit_returns s) (returns s) l (fault s).
Definition with_fault (f : option fault_kind) (s : state) : state :=
  State (mule s) (disp s) (submitting s) (submit_returns s) (returns s) (kernel_calls s) f.

Definition on_mule (f : mu_mule -> mu_mule) (s : state) : state :=
  with_mule (f (mule s)) s.
Definition on_disp (f : caller -> caller) (s : state) : state :=
  with_disp (f (disp s)) s.
Definition set_thread (i : nat) (t : mu_thread) (s : state) : state :=
  on_mule (fun m => mule_with_threads (<[i := t]> (threads m)) m) s.
Definition goto (pc : caller_pc) (s : state) : state :=
  on_disp (caller_with_pc pc) s.

(** ** mule_init (lines 82-91)

    memset to zero, then the three assignments and the three
    initialisations.  Nothing is checked and nothing can fail: the
    results of mtx_init and cnd_init are dropped. *)
Definition mule_init (num_threads : nat) : state :=
  State (Mu_mule false 0 0 0 None true num_threads 0
                 (replicate mumule_max_threads thread_zero))
        (Caller D_idle [] 0 0) [] [] [] [] None.

(** ** Mutex and conditions *)

(** mtx_lock: enabled only while nobody holds the mutex. *)
Definition mtx_lock (o : owner) (s : state) : option state :=
  match mutex (mule s) with
  | None => Some (on_mule (mule_with_mutex (Some o)) s)
  | Some _ => None
  end.

Definition mtx_unlock (s : state) : state :=
  on_mule (mule_with_mutex None) s.

(** cnd_broadcast(&mule->wake_worker): the workers that are inside their
    wait at this moment are woken; nobody else learns of it. *)
Definition wake_thread (t : mu_thread) : mu_thread :=
  match t_pc t with
  | T_blocked => thread_with_pc T_woken t
  | _ => t
  end.

Definition cnd_broadcast_wake_worker (s : state) : state :=
  on_mule (fun m => mule_with_threads (map wake_thread (threads m)) m) s.

(** cnd_signal(&mule->wake_dispatcher): wakes the caller when it is
    inside the wait of mule_synchronize, and is lost otherwise. *)
Definition cnd_signal_wake_dispatcher (s : state) : state :=
  match d_pc (disp s) with
  | D_sync_blocked => goto D_sync_woken s
  | _ => s
  end.

(** ** mule_thread (lines 93-150) *)

Definition thread_step (i : nat) (s : state) : option state :=
  match threads (mule s) !! i with
  | None => None
  | Some t =>
    let m := mule s in
    match t_pc t with
    | T_none | T_blocked | T_exited => None
    | T_started =>
        Some (set_thread i (thread_with_pc T_load_queued t)
                (on_mule (mule_with_threads_running (wrap (threads_running m + 1))) s))
    | T_load_queued =>
        Some (set_thread i
                (thread_with_pc T_load_processing (thread_with_queued (queued m) t)) s)
    | T_load_processing =>
        Some (set_thread i
                (thread_with_pc (if processing m =? t_queued t then T_mtx_lock else T_cas)
                                (thread_with_processing (processing m) t)) s)
    | T_mtx_lock =>
        option_map (set_thread i (thread_with_pc T_load_running t))
                   (mtx_lock (O_thread i) s)
    | T_load_running =>
        if running m
        then Some (set_thread i (thread_with_pc T_cnd_wait t) s)
        else Some (set_thread i (thread_with_pc T_leaving t) (mtx_unlock s))
    | T_cnd_wait =>
        Some (set_thread i (thread_with_pc T_blocked t) (mtx_unlock s))
    | T_woken =>
        option_map (set_thread i (thread_with_pc T_mtx_unlock t))
                   (mtx_lock (O_thread i) s)
    | T_mtx_unlock =>
        Some (set_thread i (thread_with_pc T_load_queued t) (mtx_unlock s))
    | T_cas =>
        let workitem := wrap (t_processing t + 1) in
        let t1 := thread_with_workitem workitem t in
        if processing m =? t_processing t
        then Some (set_thread i (thread_with_pc T_kernel t1)
                     (on_mule (mule_with_processing workitem) s))
        else Some (set_thread i
                     (thread_with_pc T_load_queued
                        (thread_with_processing (processing m) t1)) s)
    | T_kernel =>
        Some (set_thread i (thread_with_pc T_fetch_add t)
                (with_kernel_calls (kernel_calls s ++ [(t_idx t, t_workitem t)]) s))
    | T_fetch_add =>
        let old := processed m in
        Some (set_thread i
                (thread_with_pc
                   (if wrap (old + 1) =? t_queued t then T_cnd_signal else T_load_queued)
                   (thread_with_processed old t))
                (on_mule (mule_with_processed (wrap (old + 1))) s))
    | T_cnd_signal =>
        Some (set_thread i (thread_with_pc T_load_queued t)
                (cnd_signal_wake_dispatcher s))
    | T_leaving =>
        Some (set_thread i (thread_with_pc T_exited t)
                (on_mule (mule_with_threads_running (wrap (threads_running m - 1))) s))
    end
  end.

(** atomic_compare_exchange_weak may fail although the values agree. *)
Definition thread_cas_fail (i : nat) (s : state) : option state :=
  match threads (mule s) !! i with
  | None => None
  | Some t =>
    match t_pc t with
    | T_cas =>
        Some (set_thread i
                (thread_with_pc T_load_queued
                   (thread_with_processing (processing (mule s))
                      (thread_with_workitem (wrap (t_processing t + 1)) t))) s)
    | _ => None
    end
  end.

(** The deadline of the worker's cnd_timedwait passes: only in the
    revision that parks with a timed wait. *)
Definition thread_timeout (rv : revision) (i : nat) (s : state) : option state :=
  match threads (mule s) !! i with
  | None => None
  | Some t =>
    match t_pc t with
    | T_blocked =>
        if worker_park_timed rv
        then Some (set_thread i (thread_with_pc T_woken t) s)
        else None
    | _ => None
    end
  end.

(** ** mule_submit (lines 152-157) *)

(** Line 154: [idx = atomic_fetch_add(&mule->queued, count)]. *)
Definition submit_fetch_add (count : Z) (s : state) : state :=
  let idx := queued (mule s) in
  with_submitting (submitting s ++ [(idx, count)])
    (on_mule (mule_with_queued (wrap (idx + count))) s).

(** Lines 155-156 of the [n]-th call that is past line 154:
    the broadcast and [return idx + count]. *)
Definition submit_finish (n : nat) (s : state) : option state :=
  match submitting s !! n with
  | None => None
  | Some (idx, count) =>
      Some (with_submit_returns (submit_returns s ++ [wrap (idx + count)])
              (with_submitting (delete n (submitting s))
                 (cnd_broadcast_wake_worker s)))
  end.

(** ** The lifecycle functions *)

(** Entry into one of the [int] functions.  mule_reset starts by calling
    mule_synchronize (line 214), mule_destroy by calling mule_shutdown
    (line 248). *)
Definition enter (a : api) : caller_pc * list api :=
  match a with
  | A_launch => (D_launch_check, [A_launch])
  | A_synchronize => (D_sync_broadcast, [A_synchronize])
  | A_reset => (D_sync_broadcast, [A_synchronize; A_reset])
  | A_shutdown => (D_shut_check, [A_shutdown])
  | A_destroy => (D_shut_check, [A_shutdown; A_destroy])
  end.

Definition call (a : api) (s : state) : option state :=
  match d_pc (disp s), d_stack (disp s) with
  | D_idle, [] =>
      Some (on_disp (fun d => caller_with_pc (fst (enter a))
                                (caller_with_stack (snd (enter a)) d)) s)
  | _, _ => None
  end.

(** Where the caller of a returning function goes on. *)
Definition resume (k : list api) : caller_pc :=
  match k with
  | A_reset :: _ => D_reset_queued
  | A_destroy :: _ => D_destroy_free
  | _ => D_idle
  end.

(** [return v;] from the innermost call. *)
Definition ret (v : Z) (s : state) : state :=
  match d_stack (disp s) with
  | [] => goto D_idle s
  | a :: k =>
      with_returns (returns s ++ [(a, v)])
        (on_disp (fun d => caller_with_pc (resume k) (caller_with_stack k d)) s)
  end.

Definition caller_step (s : state) : option state :=
  let m := mule s in
  match d_pc (disp s) with
  | D_idle => None
  (* mule_launch, lines 159-176 *)
  | D_launch_check =>
      if running m then Some (ret 0 s) else Some (goto (D_launch_fill 0) s)
  | D_launch_fill idx =>
      if (idx <? num_threads m)%nat
      then match threads m !! idx with
           | Some t => Some (goto (D_launch_fill (S idx))
                               (set_thread idx (thread_with_idx idx t) s))
           | None => Some (with_fault (Some F_out_of_bounds) s)
           end
      else Some (goto D_launch_store s)
  | D_launch_store =>
      Some (goto (D_launch_create 0) (on_mule (mule_with_running true) s))
  | D_launch_create i =>
      if (i <? num_threads m)%nat
      then match threads m !! i with
           | Some t => Some (goto (D_launch_create (S i))
                               (set_thread i (Mu_thread (t_idx t) T_started 0 0 0 0) s))
           | None => Some (with_fault (Some F_out_of_bounds) s)
           end
      else Some (ret 0 s)
  (* mule_synchronize, lines 178-210 *)
  | D_sync_broadcast => Some (goto D_sync_lock (cnd_broadcast_wake_worker s))
  | D_sync_lock => option_map (goto D_sync_clock) (mtx_lock O_caller s)
  | D_sync_clock => Some (goto D_sync_load_queued s)
  | D_sync_load_queued =>
      Some (on_disp (fun d => caller_with_pc D_sync_load_processed
                                (caller_with_queued (queued m) d)) s)
  | D_sync_load_processed =>
      Some (on_disp (fun d =>
              caller_with_pc (if processed m <? d_queued d
                              then D_sync_timedwait else D_sync_unlock)
                             (caller_with_processed (processed m) d)) s)
  | D_sync_timedwait => Some (goto D_sync_blocked (mtx_unlock s))
  | D_sync_blocked => None
  | D_sync_woken => option_map (goto D_sync_clock) (mtx_lock O_caller s)
  | D_sync_unlock => Some (ret 0 (mtx_unlock s))
  (* mule_reset, lines 212-223 *)
  | D_reset_queued => Some (goto D_reset_processing (on_mule (mule_with_queued 0) s))
  | D_reset_processing => Some (goto D_reset_processed (on_mule (mule_with_processing 0) s))
  | D_reset_processed => Some (goto D_reset_broadcast (on_mule (mule_with_processed 0) s))
  | D_reset_broadcast => Some (ret 0 (cnd_broadcast_wake_worker s))
  (* mule_shutdown, lines 225-244 *)
  | D_shut_check =>
      if negb (running m) then Some (ret 0 s) else Some (goto D_shut_lock s)
  | D_shut_lock => option_map (goto D_shut_store) (mtx_lock O_caller s)
  | D_shut_store => Some (goto D_shut_unlock (on_mule (mule_with_running false) s))
  | D_shut_unlock => Some (goto D_shut_broadcast (mtx_unlock s))
  | D_shut_broadcast => Some (goto (D_shut_join 0) (cnd_broadcast_wake_worker s))
  | D_shut_join i =>
      if (i <? num_threads m)%nat
      then match threads m !! i with
           | Some t =>
               match t_pc t with
               | T_exited => Some (goto (D_shut_join (S i))
                                     (set_thread i (thread_with_pc T_none t) s))
               | _ => None
               end
           | None => Some (with_fault (Some F_out_of_bounds) s)
           end
      else Some (ret 0 s)
  (* mule_destroy, lines 246-255 *)
  | D_destroy_free => Some (ret 0 (on_mule (mule_with_live false) s))
  end.

(** The deadline of the cnd_timedwait of mule_synchronize passes. *)
Definition caller_timeout (s : state) : option state :=
  match d_pc (disp s) with
  | D_sync_blocked => Some (goto D_sync_woken s)
  | _ => None
  end.

(** A library call under [assert(!...)] reports an error: thrd_create
    (line 173), clock_gettime (line 190), thrd_join (line 240).  The
    header undefines NDEBUG, so the program aborts. *)
Definition caller_assert_fails (s : state) : option state :=
  match d_pc (disp s) with
  | D_sync_clock => Some (with_fault (Some F_assert) s)
  | D_launch_create i | D_shut_join i =>
      if (i <? num_threads (mule s))%nat
      then Some (with_fault (Some F_assert) s) else None
  | _ => None
  end.

(** ** Transitions and schedules *)

Inductive label :=
| L_thread (i : nat)              (* worker [i] performs its next operation *)
| L_thread_cas_fail (i : nat)     (* the weak CAS of worker [i] fails spuriously *)
| L_thread_timeout (i : nat)      (* the timed wait of worker [i] times out *)
| L_submit (count : Z)            (* some thread runs line 154 of mule_submit *)
| L_submit_finish (n : nat)       (* a pending mule_submit broadcasts and returns *)
| L_call (a : api)                (* the caller enters a lifecycle function *)
| L_caller                        (* the caller performs its next operation *)
| L_caller_timeout                (* the timed wait of mule_synchronize times out *)
| L_caller_assert_fails.          (* an asserted library call fails *)

Definition step (rv : revision) (l : label) (s : state) : option state :=
  match fault s with
  | Some _ => None
  | None =>
    match l with
    | L_thread i => thread_step i s
    | L_thread_cas_fail i => thread_cas_fail i s
    | L_thread_timeout i => thread_timeout rv i s
    | L_submit count => Some (submit_fetch_add count s)
    | L_submit_finish n => submit_finish n s
    | L_call a => call a s
    | L_caller => caller_step s
    | L_caller_timeout => caller_timeout s
    | L_caller_assert_fails => caller_assert_fails s
    end
  end.

Fixpoint run (rv : revision) (sch : list label) (s : state) : option state :=
  match sch with
  | [] => Some s
  | l :: sch' =>
      match step rv l s with
      | Some s' => run rv sch' s'
      | None => None
      end
  end.

(** States the program can be in after [mule_init (n)]. *)
Definition reachable (rv : revision) (n : nat) (s : state) : Prop :=
  exists sch, run rv sch (mule_init n) = Some s.

(** The README example and test_mumule.c: the kernel adds one to a
    counter, so the counter is the number of kernel calls. *)
Definition w1_counter (s : state) : Z := Z.of_nat (length (kernel_calls s)).

(** How often item [idx] was handed to the kernel. *)
Definition times_executed (idx : Z) (s : state) : nat :=
  count_occ Z.eq_dec (map snd (kernel_calls s)) idx.

(** ** Vocabulary of the statements *)

Definition is_call (l : label) : bool :=
  match l with
  | L_call _ => true
  | _ => false
  end.

(** Transitions that start a further call into the pool. *)
Definition is_new_call (l : label) : bool :=
  match l with
  | L_call _ | L_submit _ => true
  | _ => false
  end.

Definition is_reset (a : api) : bool :=
  match a with
  | A_reset => true
  | _ => false
  end.

(** The caller is inside mule_reset. *)
Definition in_reset (s : state) : bool :=
  existsb is_reset (d_stack (disp s)) ||
  match d_pc (disp s) with
  | D_reset_queued | D_reset_processing | D_reset_processed | D_reset_broadcast => true
  | _ => false
  end.

Definition calls_reset (sch : list label) : bool :=
  existsb (fun l => match l with L_call A_reset => true | _ => false end) sch.

(** The counts of the mule_submit calls of a schedule, in the order of
    their fetch-adds. *)
Fixpoint submit_counts (sch : list label) : list Z :=
  match sch with
  | [] => []
  | L_submit count :: sch' => count :: submit_counts sch'
  | _ :: sch' => submit_counts sch'
  end.

Definition sum_counts (counts : list Z) : Z := fold_right Z.add 0 counts.

(** The upper bound each of a series of mule_submit calls is to return:
    the value of [queued] before its fetch-add, plus its count. *)
Fixpoint upper_bounds (q : Z) (counts : list Z) : list Z :=
  match counts with
  | [] => []
  | count :: counts' => wrap (q + count) :: upper_bounds (wrap (q + count)) counts'
  end.

(** What the mule_submit calls made so far have returned or, for those
    still before their return, are going to return. *)
Definition submit_outcomes (s : state) : list Z :=
  submit_returns s ++ map (fun p => wrap (fst p + snd p)) (submitting s).

(** What "mule_init rejects the thread count" would mean here: the call
    ends in a failed assertion.  (mule_init returns void, so there is no
    other channel.) *)
Definition init_rejects (n : nat) : Prop := fault (mule_init n) <> None.

(** The items 1, 2, ..., [n]. *)
Definition first_items (n : nat) : list Z := map Z.of_nat (seq 1 n).

Arguments first_items : simpl never.

(** ** Invariants *)

(** The caller is inside mule_launch (and, once past line 169, [running]
    is set), or has returned from it. *)
Definition launch_progress (s : state) : Prop :=
  match d_pc (disp s) with
  | D_launch_check | D_launch_fill _ | D_launch_store => d_stack (disp s) = [A_launch]
  | D_launch_create _ => d_stack (disp s) = [A_launch] /\ running (mule s) = true
  | D_idle => running (mule s) = true
  | _ => False
  end.

(** The same for mule_shutdown and line 233. *)
Definition shutdown_progress (s : state) : Prop :=
  match d_pc (disp s) with
  | D_shut_check | D_shut_lock | D_shut_store => d_stack (disp s) = [A_shutdown]
  | D_shut_unlock | D_shut_broadcast | D_shut_join _ =>
      d_stack (disp s) = [A_shutdown] /\ running (mule s) = false
  | D_idle => running (mule s) = false
  | _ => False
  end.

(** The program points from the queue-empty branch (line 111) to the end
    of mule_thread. *)
Definition on_exit_path (pc : thread_pc) : bool :=
  match pc with
  | T_mtx_lock | T_load_running | T_cnd_wait | T_blocked | T_woken
  | T_mtx_unlock | T_leaving | T_exited => true
  | _ => false
  end.

(** A worker on that path found [processing == queued] at line 111. *)
Definition saw_queue_empty (t : mu_thread) : Prop :=
  on_exit_path (t_pc t) = true -> t_processing t = t_queued t.

(** The situation after [lost_wakeup]: every worker is inside cnd_wait
    (or does not exist), one item is queued and none is processed, no
    mule_submit is still to broadcast, and the caller is in the loop of
    mule_synchronize. *)
Definition all_parked (ts : list mu_thread) (s : state) : Prop :=
  threads (mule s) = ts /\
  Forall (fun t => t_pc t = T_blocked \/ t_pc t = T_none) ts /\
  queued (mule s) = 1 /\ processed (mule s) = 0 /\
  submitting s = [] /\ kernel_calls s = [] /\
  returns s = [(A_launch, 0)] /\ d_stack (disp s) = [A_synchronize] /\
  match d_pc (disp s) with
  | D_sync_clock | D_sync_load_queued | D_sync_timedwait
  | D_sync_blocked | D_sync_woken => True
  | D_sync_load_processed => d_queued (disp s) = 1
  | _ => False
  end.

(** The item a worker has claimed and not yet handed to the kernel. *)
Definition holds (t : mu_thread) : list Z :=
  match t_pc t with
  | T_kernel => [t_workitem t]
  | _ => []
  end.

(** A worker between its successful CAS and its fetch-add on
    [processed]. *)
Definition in_flight (t : mu_thread) : list unit :=
  match t_pc t with
  | T_kernel | T_fetch_add => [tt]
  | _ => []
  end.

(** The items claimed so far: those handed to the kernel and those held. *)
Definition claimed (s : state) : list Z :=
  map snd (kernel_calls s) ++ flat_map holds (threads (mule s)).

(** What the claiming protocol keeps true after at most [k] transitions,
    as long as mule_reset stays out of it. *)
Definition claims_ok (k : Z) (s : state) : Prop :=
  0 <= processed (mule s) /\
  processed (mule s) + Z.of_nat (length (flat_map in_flight (threads (mule s))))
    <= processing (mule s) /\
  processing (mule s) <= k /\
  NoDup (claimed s) /\
  Forall (fun x => 1 <= x <= processing (mule s)) (claimed s).

(** *** A pool of one thread *)

(** What the only worker of a pool of one thread knows, by program
    point: how far [processed] ([d]) and the number of kernel calls ([c])
    are behind [processing] ([p]), and what its copies of [queued] ([q])
    and [processing] are worth. *)
Definition view_ok (p q d c : Z) (t : mu_thread) : Prop :=
  match t_pc t with
  | T_load_processing => d = p /\ c = p /\ p <= t_queued t <= q
  | T_cas => d = p /\ c = p /\ t_processing t = p /\ p < t_queued t <= q
  | T_kernel => d = p - 1 /\ c = p - 1 /\ t_workitem t = p
  | T_fetch_add => d = p - 1 /\ c = p
  | _ => d = p /\ c = p
  end.

(** mule_launch creates the worker, and a stopped pool has none: where
    the worker may exist, by program point of the caller and value of
    [running]. *)
Definition absent_ok (pc : caller_pc) (rn : bool) (tpc : thread_pc) : Prop :=
  match pc with
  | D_launch_fill _ | D_launch_store => tpc = T_none
  | D_launch_create 0 => tpc = T_none /\ rn = true
  | D_shut_unlock | D_shut_broadcast | D_shut_join 0 => True
  | _ => rn = false -> tpc = T_none
  end.

Arguments view_ok : simpl never.
Arguments absent_ok : simpl never.

(** The invariant of a pool of one thread outside mule_reset; [b] is how
    much may still be submitted before [queued] would wrap. *)
Definition single_ok (b : Z) (s : state) : Prop :=
  num_threads (mule s) = 1%nat /\
  0 <= processed (mule s) /\
  0 <= processing (mule s) <= queued (mule s) /\
  0 <= b /\ queued (mule s) + b < size_modulus /\
  map snd (kernel_calls s) = first_items (length (kernel_calls s)) /\
  exists t rest,
    threads (mule s) = t :: rest /\
    Forall (fun u => t_pc u = T_none) rest /\
    view_ok (processing (mule s)) (queued (mule s)) (processed (mule s))
            (Z.of_nat (length (kernel_calls s))) t /\
    absent_ok (d_pc (disp s)) (running (mule s)) (t_pc t).

(** What a transition takes from the budget. *)
Definition submits_within (b : Z) (l : label) : Prop :=
  match l with
  | L_submit count => 0 <= count <= b
  | _ => True
  end.

Definition budget_after (b : Z) (l : label) : Z :=
  match l with
  | L_submit count => b - count
  | _ => b
  end.

(** Where mule_synchronize stands with respect to [T] items submitted
    before it was called: [queued] has reached [T]; once line 193 has run,
    so has the caller's copy; and the loop is left only with [processed]
    at [T] or beyond. *)
Definition sync_progress (T : Z) (s : state) : Prop :=
  match d_pc (disp s) with
  | D_sync_broadcast | D_sync_lock | D_sync_clock | D_sync_load_queued
  | D_sync_timedwait | D_sync_blocked | D_sync_woken =>
      d_stack (disp s) = [A_synchronize] /\ T <= queued (mule s)
  | D_sync_load_processed =>
      d_stack (disp s) = [A_synchronize] /\
      T <= d_queued (disp s) /\ T <= queued (mule s)
  | D_sync_unlock =>
      d_stack (disp s) = [A_synchronize] /\ T <= processed (mule s)
  | D_idle => T <= processed (mule s)
  | _ => False
  end.

(** ** Schedules *)

(** mule_launch run from start to end with nothing in between, for a
    pool of two threads. *)
Definition launch_two : list label := L_call A_launch :: repeat L_caller 8.

(** The pool of two threads right after mule_launch. *)
Definition launched_two : state :=
  Eval vm_compute in
    match run mumule_h launch_two (mule_init 2) with
    | Some s => s
    | None => mule_init 2
    end.

(** mule_synchronize run from start to end while nothing else moves and
    the test of line 195 fails at once. *)
Definition synchronize_alone : list label :=
  L_call A_synchronize :: repeat L_caller 6.

(** The example program of the README and of test_mumule.c:
    mule_init(2), mule_submit(8), mule_launch, mule_synchronize,
    mule_shutdown, mule_destroy; here worker 0 takes the first four
    items and worker 1 the other four. *)
Definition readme_schedule : list label :=
  [L_submit 8; L_submit_finish 0]
  ++ launch_two
  ++ repeat (L_thread 0) 21 ++ repeat (L_thread 1) 21
  ++ synchronize_alone
  ++ L_call A_shutdown :: repeat L_caller 5
  ++ repeat (L_thread 0) 5 ++ repeat (L_thread 1) 6
  ++ repeat L_caller 3
  ++ L_call A_destroy :: repeat L_caller 2.

(** The README example, extended by a mule_reset: mule_submit(8),
    mule_launch, worker 0 runs the eight items, mule_synchronize,
    mule_reset, mule_shutdown (both workers leave and are joined),
    mule_destroy. *)
Definition example_schedule : list label :=
  [L_submit 8; L_submit_finish 0; L_call A_launch] ++ repeat L_caller 8
  ++ repeat (L_thread 0) 42
  ++ L_call A_synchronize :: repeat L_caller 6
  ++ L_call A_reset :: repeat L_caller 10
  ++ L_call A_shutdown :: repeat L_caller 5
  ++ repeat (L_thread 0) 5 ++ repeat (L_thread 1) 6
  ++ repeat L_caller 3
  ++ L_call A_destroy :: repeat L_caller 2.

(** mule_launch up to the write of line 166-167 with idx = 8. *)
Definition launch_past_the_array : list label := L_call A_launch :: repeat L_caller 10.

(** Four submitters of 5 items each, their fetch-adds and returns
    interleaved, next to a running pool. *)
Definition four_submitters : list label :=
  [L_submit 5; L_submit 5; L_submit_finish 1; L_thread 0; L_submit 5;
   L_thread 1; L_submit_finish 0; L_thread 0; L_submit 5; L_submit_finish 1;
   L_submit_finish 0].

(** One worker, mule_submit(2), mule_launch, the worker starts, and
    mule_shutdown runs up to its join: [running] is false and items 1
    and 2 are unclaimed. *)
Definition shutdown_with_work_queued : list label :=
  [L_submit 2; L_submit_finish 0; L_call A_launch] ++ repeat L_caller 6
  ++ [L_thread 0]
  ++ L_call A_shutdown :: repeat L_caller 5.

(** The worker goes on, and mule_shutdown joins it and returns. *)
Definition drain_after_shutdown : list label :=
  repeat (L_thread 0) 16 ++ repeat L_caller 2.

(** One worker.  It finds the queue empty (lines 107-111); mule_submit(1)
    then runs to its end and mule_synchronize makes its broadcast of
    line 184, both before the worker has reached its wait of line 119;
    the worker then waits, and mule_synchronize enters its timed wait. *)
Definition lost_wakeup : list label :=
  L_call A_launch :: repeat L_caller 6
  ++ [L_thread 0; L_thread 0; L_thread 0; L_submit 1; L_submit_finish 0;
      L_call A_synchronize; L_caller; L_thread 0; L_thread 0; L_thread 0]
  ++ repeat L_caller 5.

(** With the timed wait of part_002: the worker's deadline passes, it
    takes the item, and mule_synchronize returns. *)
Definition recover_by_timeout : list label :=
  [L_thread_timeout 0] ++ repeat (L_thread 0) 8 ++ repeat L_caller 5.

(** The state [lost_wakeup] ends in. *)
Definition parked_state : state :=
  Eval vm_compute in
    match run mumule_h lost_wakeup (mule_init 1) with
    | Some s => s
    | None => mule_init 1
    end.

(** Two workers.  Worker 1 loads [queued] (line 107) before
    mule_submit(1) and [processing] (line 108) after worker 0 has
    claimed item 1: it compares the new [processing] = 1 with the old
    [queued] = 0, finds them different (line 111) and claims item 2. *)
Definition stale_queued_race : list label :=
  launch_two
  ++ [L_thread 1; L_thread 1]
  ++ [L_submit 1; L_submit_finish 0]
  ++ repeat (L_thread 0) 4
  ++ repeat (L_thread 1) 2.

(** The race above; worker 1 executes item 2 and counts it; then
    mule_synchronize. *)
Definition exactly_once_race : list label :=
  stale_queued_race ++ repeat (L_thread 1) 2 ++ synchronize_alone.

(** The race above; worker 1 executes items 2 and 3 and counts them;
    then mule_synchronize. *)
Definition early_return_race : list label :=
  stale_queued_race ++ repeat (L_thread 1) 7 ++ synchronize_alone.

(** One worker.  mule_submit(1), item 1 is executed, mule_synchronize,
    then mule_reset up to and including its store to [queued] (line 216);
    the worker now loads [queued] = 0 and [processing] = 1 and claims
    item 2; mule_reset stores the other two zeroes and returns. *)
Definition reset_race : list label :=
  L_call A_launch :: repeat L_caller 6
  ++ [L_submit 1; L_submit_finish 0] ++ repeat (L_thread 0) 6
  ++ synchronize_alone
  ++ L_call A_reset :: repeat L_caller 7
  ++ repeat (L_thread 0) 4
  ++ repeat L_caller 3.

(** After the reset: the worker executes what it holds, mule_submit(1),
    the worker executes item 1, mule_synchronize. *)
Definition after_reset : list label :=
  [L_thread 0; L_thread 0; L_submit 1; L_submit_finish 0]
  ++ repeat (L_thread 0) 5
  ++ synchronize_alone.

(** ** Slots, mutex and thread count

    What mule_launch (lines 159-176), mule_shutdown (lines 225-244) and
    mule_thread (lines 93-150) keep true of the [threads] array, of the
    mutex and of [threads_running]. *)

(** Where a worker may exist in slot [j], by program point of the caller
    and value of [running]: mule_launch fills the slots in order, a
    stopped pool has no worker, and mule_shutdown joins them in order. *)
Definition slot_allowed (pc : caller_pc) (rn : bool) (j : nat) : Prop :=
  match pc with
  | D_launch_fill _ | D_launch_store => False
  | D_launch_create i => (j < i)%nat
  | D_shut_unlock | D_shut_broadcast => True
  | D_shut_join i => (i <= j)%nat
  | _ => rn = true
  end.

(** A worker sits in a slot below [num_threads], carries the index of its
    slot, and is where the caller allows one. *)
Definition slot_ok (s : state) (j : nat) (t : mu_thread) : Prop :=
  t_pc t <> T_none ->
  (j < num_threads (mule s))%nat /\ t_idx t = j /\
  slot_allowed (d_pc (disp s)) (running (mule s)) j.

(** How far the loop of lines 165-168 has written the slot indices. *)
Definition idx_filled (s : state) : Prop :=
  forall j t, threads (mule s) !! j = Some t ->
    match d_pc (disp s) with
    | D_launch_fill idx => (j < idx)%nat -> t_idx t = j
    | D_launch_store | D_launch_create _ => (j < num_threads (mule s))%nat -> t_idx t = j
    | _ => True
    end.

(** The call stack by program point of the caller, and what is known of
    [running] there. *)
Definition caller_ok (s : state) : Prop :=
  match d_pc (disp s) with
  | D_idle => d_stack (disp s) = []
  | D_launch_check | D_launch_fill _ | D_launch_store => d_stack (disp s) = [A_launch]
  | D_launch_create _ => d_stack (disp s) = [A_launch] /\ running (mule s) = true
  | D_sync_broadcast | D_sync_lock | D_sync_clock | D_sync_load_queued
  | D_sync_load_processed | D_sync_timedwait | D_sync_blocked | D_sync_woken
  | D_sync_unlock =>
      d_stack (disp s) = [A_synchronize] \/ d_stack (disp s) = [A_synchronize; A_reset]
  | D_reset_queued | D_reset_processing | D_reset_processed | D_reset_broadcast =>
      d_stack (disp s) = [A_reset]
  | D_shut_check | D_shut_lock | D_shut_store =>
      d_stack (disp s) = [A_shutdown] \/ d_stack (disp s) = [A_shutdown; A_destroy]
  | D_shut_unlock | D_shut_broadcast | D_shut_join _ =>
      (d_stack (disp s) = [A_shutdown] \/ d_stack (disp s) = [A_shutdown; A_destroy]) /\
      running (mule s) = false
  | D_destroy_free => d_stack (disp s) = [A_destroy] /\ running (mule s) = false
  end.

Definition slots_ok (s : state) : Prop :=
  caller_ok s /\
  idx_filled s /\
  forall j t, threads (mule s) !! j = Some t -> slot_ok s j t.

(** The program points at which a worker holds the mutex: from its
    mtx_lock of line 113 to the mtx_unlock of line 115 or the cnd_wait of
    line 119, and from the return of that wait to the mtx_unlock of
    line 120. *)
Definition thread_locked (pc : thread_pc) : bool :=
  match pc with
  | T_load_running | T_cnd_wait | T_mtx_unlock => true
  | _ => false
  end.

(** The same for the caller: inside the loop of mule_synchronize (lines
    187-207) except while it waits, and around the store of line 233 of
    mule_shutdown. *)
Definition caller_locked (pc : caller_pc) : bool :=
  match pc with
  | D_sync_clock | D_sync_load_queued | D_sync_load_processed | D_sync_timedwait
  | D_sync_unlock | D_shut_store | D_shut_unlock => true
  | _ => false
  end.

(** The recorded owner of the mutex is who is at such a program point. *)
Definition mutex_ok (s : state) : Prop :=
  (caller_locked (d_pc (disp s)) = true <-> mutex (mule s) = Some O_caller) /\
  (forall j, mutex (mule s) = Some (O_thread j) ->
             (j < length (threads (mule s)))%nat) /\
  forall j t, threads (mule s) !! j = Some t ->
    (thread_locked (t_pc t) = true <-> mutex (mule s) = Some (O_thread j)).

(** A worker between its increment of [threads_running] (line 103) and
    its decrement (line 145). *)
Definition active (t : mu_thread) : list unit :=
  match t_pc t with
  | T_none | T_started | T_exited => []
  | _ => [tt]
  end.

Definition census_ok (s : state) : Prop :=
  length (threads (mule s)) = mumule_max_threads /\
  threads_running (mule s) = Z.of_nat (length (flat_map active (threads (mule s)))) /\
  Forall (fun c => (fst c < num_threads (mule s))%nat) (kernel_calls s).

Definition pool_ok (n : nat) (s : state) : Prop :=
  num_threads (mule s) = n /\ slots_ok s /\ mutex_ok s /\ census_ok s.

(** Line 145 and beyond. *)
Definition leaving (pc : thread_pc) : bool :=
  match pc with
  | T_leaving | T_exited => true
  | _ => false
  end.

(** mule_shutdown past its store of line 233. *)
Definition joining (pc : caller_pc) : bool :=
  match pc with
  | D_shut_unlock | D_shut_broadcast | D_shut_join _ => true
  | _ => false
  end.

Definition leaving_ok (s : state) : Prop :=
  forall j t, threads (mule s) !! j = Some t ->
    leaving (t_pc t) = true -> running (mule s) = false.

(** ** Batches

    The order of the README example and of test_mumule.c: everything is
    submitted before mule_launch is called for the first time. *)

(** Nothing has been called yet but mule_submit. *)
Definition quiet (s : state) : Prop :=
  d_pc (disp s) = D_idle /\ d_stack (disp s) = [] /\
  Forall (fun t => t_pc t = T_none) (threads (mule s)) /\
  processing (mule s) = 0 /\ processed (mule s) = 0 /\
  kernel_calls s = [] /\ returns s = [].

(** The transitions of a pool that works a batch off: no further
    mule_submit starts and mule_reset is not called. *)
Definition batch_label (l : label) : bool :=
  match l with
  | L_submit _ | L_call A_reset => false
  | _ => true
  end.

(** What a worker knows while [queued] stays at [Q]: its copy of [queued]
    is [Q] once loaded, it attempts a claim only with a copy of
    [processing] other than [Q], and it is on its way to the wait or to
    its exit only with [processing] at [Q]. *)
Definition batch_view (Q p : Z) (t : mu_thread) : Prop :=
  match t_pc t with
  | T_load_processing => t_queued t = Q
  | T_cas => t_processing t <> Q
  | T_mtx_lock | T_load_running | T_cnd_wait | T_blocked | T_woken
  | T_mtx_unlock | T_leaving | T_exited => p = Q
  | _ => True
  end.

(** mule_shutdown has joined a worker, or the pool was launched and is
    stopped again: all of the batch has been claimed. *)
Definition drained (Q : Z) (s : state) : Prop :=
  match d_pc (disp s) with
  | D_shut_unlock | D_shut_broadcast | D_shut_join 0 => True
  | D_shut_join (S _) => processing (mule s) = Q
  | _ => In (A_launch, 0) (returns s) -> running (mule s) = false ->
         (1 <= num_threads (mule s))%nat -> processing (mule s) = Q
  end.

Definition batch_views (Q : Z) (s : state) : Prop :=
  queued (mule s) = Q /\
  0 <= processing (mule s) <= Q /\ Q < size_modulus /\
  drained Q s /\
  forall j t, threads (mule s) !! j = Some t -> batch_view Q (processing (mule s)) t.

(** mule_synchronize has read [queued] as [Q], and leaves its loop, now
    or earlier, only with [processed] at [Q]. *)
Definition batch_sync (Q : Z) (s : state) : Prop :=
  match d_pc (disp s) with
  | D_sync_load_processed => d_queued (disp s) = Q
  | D_sync_unlock => Q <= processed (mule s)
  | _ => True
  end /\
  (In (A_synchronize, 0) (returns s) -> Q <= processed (mule s)).

(** The counters count: [processing] the items claimed, [processed] those
    of them that are no longer with a worker. *)
Definition batch_counts (Q : Z) (s : state) : Prop :=
  0 <= processed (mule s) /\
  processed (mule s) + Z.of_nat (length (flat_map in_flight (threads (mule s))))
    = processing (mule s) /\
  Z.of_nat (length (claimed s)) = processing (mule s) /\
  NoDup (claimed s) /\
  Forall (fun x => 1 <= x <= processing (mule s)) (claimed s) /\
  batch_sync Q s.

(** A worker between its call of the kernel (line 129) and its
    fetch-add on [processed] (line 130). *)
Definition counted (t : mu_thread) : list unit :=
  match t_pc t with
  | T_fetch_add => [tt]
  | _ => []
  end.

(** [processed] counts the kernel calls that have returned and been
    counted by their worker. *)
Definition executions_ok (s : state) : Prop :=
  processed (mule s) + Z.of_nat (length (flat_map counted (threads (mule s))))
  = Z.of_nat (length (kernel_calls s)).

(** The caller waits in mule_synchronize for [Q] items while no worker
    exists. *)
Definition waits_alone (Q : Z) (s : state) : Prop :=
  Forall (fun t => t_pc t = T_none) (threads (mule s)) /\
  queued (mule s) = Q /\ processed (mule s) = 0 /\
  returns s = [] /\ d_stack (disp s) = [A_synchronize] /\
  match d_pc (disp s) with
  | D_sync_broadcast | D_sync_lock | D_sync_clock | D_sync_load_queued
  | D_sync_timedwait | D_sync_blocked | D_sync_woken => True
  | D_sync_load_processed => d_queued (disp s) = Q
  | _ => False
  end.

(** mule_reset runs in a pool without workers; [r0] is what had returned
    before it was called. *)
Definition resets_alone (r0 : list (api * Z)) (s : state) : Prop :=
  Forall (fun t => t_pc t = T_none) (threads (mule s)) /\
  match d_pc (disp s) with
  | D_sync_broadcast | D_sync_lock | D_sync_clock | D_sync_load_queued
  | D_sync_load_processed | D_sync_timedwait | D_sync_blocked | D_sync_woken
  | D_sync_unlock =>
      d_stack (disp s) = [A_synchronize; A_reset] /\ returns s = r0
  | D_reset_queued =>
      d_stack (disp s) = [A_reset] /\ returns s = r0 ++ [(A_synchronize, 0)]
  | D_reset_processing =>
      d_stack (disp s) = [A_reset] /\ returns s = r0 ++ [(A_synchronize, 0)] /\
      queued (mule s) = 0
  | D_reset_processed =>
      d_stack (disp s) = [A_reset] /\ returns s = r0 ++ [(A_synchronize, 0)] /\
      queued (mule s) = 0 /\ processing (mule s) = 0
  | D_reset_broadcast =>
      d_stack (disp s) = [A_reset] /\ returns s = r0 ++ [(A_synchronize, 0)] /\
      queued (mule s) = 0 /\ processing (mule s) = 0 /\ processed (mule s) = 0
  | D_idle =>
      returns s = r0 ++ [(A_synchronize, 0); (A_reset, 0)] /\
      queued (mule s) = 0 /\ processing (mule s) = 0 /\ processed (mule s) = 0
  | _ => False
  end.

(** ** More schedules and states *)

(** A worker finds the queue empty; then mule_submit(2); then
    mule_shutdown, which the worker obeys without another look at
    [queued]. *)
Definition shutdown_after_empty_test : list label :=
  L_call A_launch :: repeat L_caller 6
  ++ [L_thread 0; L_thread 0; L_thread 0]
  ++ [L_submit 2; L_submit_finish 0]
  ++ L_call A_shutdown :: repeat L_caller 5
  ++ repeat (L_thread 0) 3
  ++ repeat L_caller 2.

(** The state the README example ends in. *)
Definition readme_final : state :=
  Eval vm_compute in
    match run mumule_h readme_schedule (mule_init 2) with
    | Some s => s
    | None => mule_init 2
    end.

(** The README example up to the mtx_destroy of mule_destroy (line 250). *)
Definition readme_before_free : state :=
  Eval vm_compute in
    match run mumule_h (removelast readme_schedule) (mule_init 2) with
    | Some s => s
    | None => mule_init 2
    end.

(** One worker, two items, mule_launch and mule_shutdown without a
    mule_synchronize in between. *)
Definition drained_final : state :=
  Eval vm_compute in
    match run mumule_h (shutdown_with_work_queued ++ drain_after_shutdown) (mule_init 1) with
    | Some s => s
    | None => mule_init 1
    end.

(** The state after [shutdown_with_work_queued]. *)
Definition stopped_with_work : state :=
  Eval vm_compute in
    match run mumule_h shutdown_with_work_queued (mule_init 1) with
    | Some s => s
    | None => mule_init 1
    end.

(** The race on the stale copy of [queued], worker 1 having executed and
    counted items 2 and 3, and a mule_synchronize after it. *)
Definition raced : state :=
  Eval vm_compute in
    match run mumule_h (stale_queued_race ++ repeat (L_thread 1) 7) (mule_init 2) with
    | Some s => s
    | None => mule_init 2
    end.

Definition raced_synchronized : state :=
  Eval vm_compute in
    match run mumule_h synchronize_alone raced with
    | Some s => s
    | None => raced
    end.

(** One worker: mule_launch, mule_submit(1), and the worker executes the
    item. *)
Definition one_worker_one_item : list label :=
  L_call A_launch :: repeat L_caller 6
  ++ [L_submit 1; L_submit_finish 0] ++ repeat (L_thread 0) 6.

Definition worked_one : state :=
  Eval vm_compute in
    match run mumule_h one_worker_one_item (mule_init 1) with
    | Some s => s
    | None => mule_init 1
    end.

Definition synchronized_one : state :=
  Eval vm_compute in
    match run mumule_h synchronize_alone worked_one with
    | Some s => s
    | None => worked_one
    end.

(** Two workers, nothing queued: worker 0 has taken the mutex at
    line 113. *)
Definition worker_holds_mutex : state :=
  Eval vm_compute in
    match run mumule_h (launch_two ++ repeat (L_thread 0) 4) (mule_init 2) with
    | Some s => s
    | None => mule_init 2
    end.

(** mule_submit(1) and mule_synchronize with no mule_launch: the caller
    goes through its timed wait twice. *)
Definition synchronize_before_launch : list label :=
  [L_submit 1; L_submit_finish 0]
  ++ L_call A_synchronize :: repeat L_caller 6
  ++ L_caller_timeout :: repeat L_caller 5.

(** ** Deadlines

    [struct timespec] with its two signed 64-bit fields. *)
Record timespec := Timespec { tv_sec : Z; tv_nsec : Z }.

(** The range of [long long], [long] and [time_t]; a signed result
    outside of it is undefined. *)
Definition llong_fits (z : Z) : bool := (- 2 ^ 63 <=? z) && (z <? 2 ^ 63).

(** src/unnamed/part_002, lines 95-96. *)
Definition mumule_revalidate_work_available_ns : Z := 10000000.
Definition mumule_revalidate_queue_complete_ns : Z := 1000000.

(** src/unnamed/part_002, lines 122-128.  [/] and [%] of C truncate
    towards zero: [Z.quot] and [Z.rem]. *)
Definition _timespec_add (abstime : timespec) (reltime : Z) : option timespec :=
  let nsec := tv_nsec abstime + reltime in
  if llong_fits nsec then
    let sec := tv_sec abstime + Z.quot nsec 1000000000 in
    if llong_fits sec
    then Some (Timespec sec (Z.rem nsec 1000000000))
    else None
  else None.

(** The deadline mule_synchronize hands to cnd_timedwait when the clock
    reads [now]: src/mumule.h adds to the nanoseconds only (line 191),
    src/unnamed/part_002 calls _timespec_add (line 280). *)
Definition sync_deadline (rv : revision) (now : timespec) : option timespec :=
  match rv with
  | mumule_h =>
      let nsec := tv_nsec now + 1000000 in
      if llong_fits nsec then Some (Timespec (tv_sec now) nsec) else None
  | part_002 => _timespec_add now mumule_revalidate_queue_complete_ns
  end.

(** The deadline of the worker's timed wait (src/unnamed/part_002,
    line 166). *)
Definition park_deadline (now : timespec) : option timespec :=
  _timespec_add now mumule_revalidate_work_available_ns.

(** A normalised timespec: its nanoseconds are below one second. *)
Definition timespec_valid (t : timespec) : bool :=
  (0 <=? tv_nsec t) && (tv_nsec t <? 1000000000).

(** The instant in nanoseconds. *)
Definition timespec_ns (t : timespec) : Z := tv_sec t * 1000000000 + tv_nsec t.

(** ** Logging (src/mulog.h) *)

Definition int_max : Z := 2 ^ 31 - 1.

(** vsnprintf(dst, n, fmt, ap).  [conv] is the conversion of the format
    and its arguments, [None] if it fails.  A conversion of at most
    INT_MAX bytes succeeds: with [n > 0] its first [n - 1] bytes and a
    zero byte go to the start of [dst], and the result is its length.
    Otherwise the result is negative; what [dst] then holds is not
    specified, and it is left as it was here.  [None] is a write past
    the end of [dst]. *)
Definition vsnprintf (dst : list Byte.byte) (n : nat) (conv : option (list Byte.byte))
  : option (list Byte.byte * Z) :=
  match conv with
  | None => Some (dst, -1)
  | Some msg =>
      if int_max <? Z.of_nat (length msg) then Some (dst, -1) else
      match n with
      | O => Some (dst, Z.of_nat (length msg))
      | S m =>
          let out := take m msg ++ [Byte.x00] in
          if (length out <=? length dst)%nat
          then Some (out ++ drop (length out) dst, Z.of_nat (length msg))
          else None
      end
  end.

(** [buf[i] = b] for an [int] or [size_t] index [i]. *)
Definition store_byte (buf : list Byte.byte) (i : Z) (b : Byte.byte)
  : option (list Byte.byte) :=
  if (0 <=? i) && (i <? Z.of_nat (length buf))
  then Some (<[Z.to_nat i := b]> buf)
  else None.

(** fwrite(buf, 1, n, stderr): the bytes written. *)
Definition fwrite (buf : list Byte.byte) (n : Z) : option (list Byte.byte) :=
  if n <=? Z.of_nat (length buf) then Some (take (Z.to_nat n) buf) else None.

(** log_printf (lines 43-63): what fwrite hands to stderr.  [stack] is
    what the 128 bytes of [buf] hold on entry, [malloc] the block malloc
    returns for a size ([None] for a null pointer, which the function
    does not test for), [conv] the conversion of the format and its
    arguments.  [len] is an [int]: the test of line 54 and the size
    arguments convert it to [size_t], which [wrap] does here, and line 58
    indexes with it as it is.  [None] is undefined behaviour: an
    overflowing [len + 1], an access out of bounds or through a null
    pointer. *)
Definition log_printf (stack : list Byte.byte) (malloc : Z -> option (list Byte.byte))
    (conv : option (list Byte.byte)) : option (list Byte.byte) :=
  let buf := take 128 stack in
  match vsnprintf buf (128 - 1) conv with
  | None => None
  | Some (pbuf, len) =>
    match store_byte pbuf (128 - 1) Byte.x00 with
    | None => None
    | Some pbuf =>
      if 128 <=? wrap len then
        if int_max <? len + 1 then None else
        match malloc (wrap (len + 1)) with
        | None => None
        | Some hbuf =>
          match vsnprintf hbuf (Z.to_nat (wrap (len + 1))) conv with
          | None => None
          | Some (pbuf, len) =>
            match store_byte pbuf len Byte.x00 with
            | None => None
            | Some pbuf => fwrite pbuf (wrap len)
            end
          end
        end
      else fwrite pbuf (wrap len)
    end
  end.

(** A malloc that succeeds, and a message of 127 bytes. *)
Definition malloc_zeroed (n : Z) : option (list Byte.byte) :=
  Some (replicate (Z.to_nat n) Byte.x00).

Definition message_127 : list Byte.byte := replicate 127 Byte.x61.

(** * Properties *)

(** ** Proof automation *)

Ltac unfold_setters :=
  unfold ret, resume, goto, set_thread, cnd_signal_wake_dispatcher,
    cnd_broadcast_wake_worker, mtx_lock, mtx_unlock, on_mule, on_disp,
    with_mule, with_disp, with_submitting, with_submit_returns, with_returns,
    with_kernel_calls, with_fault in *.

Ltac unfold_steps :=
  unfold step, thread_step, thread_cas_fail, thread_timeout, submit_fetch_add,
    submit_finish, call, caller_step, caller_timeout, caller_assert_fails in *.

Ltac break_match H :=
  match type of H with
  | context [match ?x with _ => _ end] => destruct x eqn:?
  end.

(** Use the equations left by the case analysis in the goal. *)
Ltac rewrite_eqns :=
  repeat match goal with
         | E : ?x = _ |- context [match ?x with _ => _ end] => rewrite E
         end.

(** Case analysis on what the goal itself inspects. *)
Ltac split_goal_matches :=
  repeat match goal with
         | |- context [match ?x with _ => _ end] => destruct x eqn:?
         end.

(** Case analysis on the transition that produced [H : step _ _ _ = Some _]. *)
Ltac step_inv H :=
  unfold_steps; unfold_setters;
  repeat (cbn [option_map] in H; break_match H);
  cbn [option_map] in H; try discriminate H;
  try (injection H as <-); cbn in *.

(** ** Schedules *)

Lemma run_app rv sch1 sch2 s :
  run rv (sch1 ++ sch2) s =
  match run rv sch1 s with
  | Some s1 => run rv sch2 s1
  | None => None
  end.
Proof.
  revert s. induction sch1 as [|l sch1 IH]; intros s; cbn; [reflexivity|].
  destruct (step rv l s); [apply IH | reflexivity].
Qed.

(** A property kept by every allowed transition holds along every
    schedule of allowed transitions. *)
Lemma run_invariant rv (allowed : label -> bool) (P : state -> Prop) :
  (forall l s s', allowed l = true -> step rv l s = Some s' -> P s -> P s') ->
  forall sch s s',
    forallb allowed sch = true ->
    run rv sch s = Some s' -> P s -> P s'.
Proof.
  intros Hstep sch. induction sch as [|l sch IH]; intros s s' Hsch Hrun HP; cbn in *.
  - congruence.
  - apply andb_prop in Hsch as [Hl Hsch].
    destruct (step rv l s) as [s1|] eqn:E; [|discriminate].
    apply (IH s1 s' Hsch Hrun). apply (Hstep l s s1); auto.
Qed.

(** ** The example program *)

(** The assertion of test_mumule.c, [counter == 8], on one schedule of
    the example program; every item is executed once, no worker is left
    running, and every lifecycle function returns 0. *)
Lemma readme_example :
  exists s,
    run mumule_h readme_schedule (mule_init 2) = Some s /\
    w1_counter s = 8 /\
    map snd (kernel_calls s) = [1; 2; 3; 4; 5; 6; 7; 8] /\
    map fst (kernel_calls s) = [0; 0; 0; 0; 1; 1; 1; 1]%nat /\
    threads_running (mule s) = 0 /\
    returns s = [(A_launch, 0); (A_synchronize, 0); (A_shutdown, 0);
                 (A_shutdown, 0); (A_destroy, 0)].
Proof. eexists. split; [vm_compute; reflexivity|]. repeat split. Qed.

(** ** Return values of the lifecycle functions *)

Lemma step_returns rv l s s' :
  step rv l s = Some s' ->
  returns s' = returns s \/ exists a, returns s' = returns s ++ [(a, 0)].
Proof. intros H. step_inv H; eauto. Qed.

Lemma run_returns_zero rv sch : forall s s',
  run rv sch s = Some s' ->
  Forall (fun r => snd r = 0) (returns s) ->
  Forall (fun r => snd r = 0) (returns s').
Proof.
  induction sch as [|l sch IH]; intros s s' Hrun Hs; cbn in Hrun.
  - congruence.
  - destruct (step rv l s) as [s1|] eqn:E; [|discriminate].
    apply (IH s1 s' Hrun).
    destruct (step_returns _ _ _ _ E) as [-> | [a ->]]; [assumption|].
    apply Forall_app; split; [assumption|]. repeat constructor.
Qed.

(** C10. Whatever the schedule, every value that mule_launch,
    mule_synchronize, mule_reset, mule_shutdown or mule_destroy has
    returned is 0: each of them ends in [return 0], a failing library call
    aborts through assert and never becomes a return value. *)
Theorem lifecycle_functions_return_zero rv n sch s :
  run rv sch (mule_init n) = Some s ->
  Forall (fun r => snd r = 0) (returns s).
Proof.
  intros Hrun. apply (run_returns_zero rv sch _ _ Hrun). constructor.
Qed.

Lemma lifecycle_functions_return_zero_witness :
  exists s,
    run mumule_h example_schedule (mule_init 2) = Some s /\
    map fst (returns s) =
      [A_launch; A_synchronize; A_synchronize; A_reset;
       A_shutdown; A_shutdown; A_destroy] /\
    Forall (fun r => snd r = 0) (returns s).
Proof.
  destruct (run mumule_h example_schedule (mule_init 2)) as [s|] eqn:E;
    [|vm_compute in E; discriminate E].
  exists s. split; [reflexivity|]. split.
  - vm_compute in E. injection E as <-. reflexivity.
  - exact (lifecycle_functions_return_zero mumule_h 2 example_schedule s E).
Defined.

(** ** mule_launch and mule_shutdown called again *)

Lemma step_launch_progress rv l s s' :
  negb (is_call l) = true -> step rv l s = Some s' ->
  launch_progress s -> launch_progress s'.
Proof.
  intros Hl H HP. apply negb_true_iff in Hl. unfold launch_progress in *.
  step_inv H; try discriminate Hl; try tauto; try (intuition congruence).
  all: split_goal_matches; intuition congruence.
Qed.

Lemma step_shutdown_progress rv l s s' :
  negb (is_call l) = true -> step rv l s = Some s' ->
  shutdown_progress s -> shutdown_progress s'.
Proof.
  intros Hl H HP. apply negb_true_iff in Hl. unfold shutdown_progress in *.
  step_inv H; try discriminate Hl; try tauto; try (intuition congruence).
  all: split_goal_matches; try (intuition congruence).
  now apply negb_true_iff.
Qed.

(** C9. While the caller is idle: if [running] is set, mule_launch
    returns 0 after its test of line 161 and leaves the pool as it was (no
    thread is created, no field is written); if [running] is clear,
    mule_shutdown returns 0 after its test of line 227 and joins nobody.
    A mule_launch that has returned leaves [running] set and a
    mule_shutdown that has returned leaves it clear, so a second call of
    either finds the case above. *)
Theorem launch_and_shutdown_idempotent rv s :
  fault s = None -> d_pc (disp s) = D_idle -> d_stack (disp s) = [] ->
  (running (mule s) = true ->
     run rv [L_call A_launch; L_caller] s
     = Some (with_returns (returns s ++ [(A_launch, 0)]) s))
  /\ (running (mule s) = false ->
     run rv [L_call A_shutdown; L_caller] s
     = Some (with_returns (returns s ++ [(A_shutdown, 0)]) s))
  /\ (forall sch s1,
        forallb (fun l => negb (is_call l)) sch = true ->
        run rv (L_call A_launch :: sch) s = Some s1 ->
        d_pc (disp s1) = D_idle -> running (mule s1) = true)
  /\ (forall sch s1,
        forallb (fun l => negb (is_call l)) sch = true ->
        run rv (L_call A_shutdown :: sch) s = Some s1 ->
        d_pc (disp s1) = D_idle -> running (mule s1) = false).
Proof.
  intros Hf Hpc Hk.
  destruct s as [m [pc k dq dp] sg sr r kc f]; cbn in *; subst.
  repeat split.
  - intros Hr. cbn. rewrite Hr. reflexivity.
  - intros Hr. cbn. rewrite Hr. reflexivity.
  - intros sch s1 Hsch Hrun Hidle. cbn in Hrun.
    pose proof (run_invariant rv _ launch_progress (step_launch_progress rv)
                  sch _ s1 Hsch Hrun) as HP.
    unfold launch_progress in HP at 2. rewrite Hidle in HP. apply HP. reflexivity.
  - intros sch s1 Hsch Hrun Hidle. cbn in Hrun.
    pose proof (run_invariant rv _ shutdown_progress (step_shutdown_progress rv)
                  sch _ s1 Hsch Hrun) as HP.
    unfold shutdown_progress in HP at 2. rewrite Hidle in HP. apply HP. reflexivity.
Qed.

Lemma launch_and_shutdown_idempotent_witness :
  run mumule_h launch_two (mule_init 2) = Some launched_two /\
  running (mule launched_two) = true /\
  run mumule_h [L_call A_launch; L_caller] launched_two
  = Some (with_returns (returns launched_two ++ [(A_launch, 0)]) launched_two) /\
  run mumule_h [L_call A_shutdown; L_caller] (mule_init 2)
  = Some (with_returns [(A_shutdown, 0)] (mule_init 2)).
Proof.
  split; [reflexivity|]. split; [reflexivity|]. split.
  - exact (proj1 (launch_and_shutdown_idempotent mumule_h launched_two
                    eq_refl eq_refl eq_refl) eq_refl).
  - exact (proj1 (proj2 (launch_and_shutdown_idempotent mumule_h (mule_init 2)
                           eq_refl eq_refl eq_refl)) eq_refl).
Defined.

(** ** mule_init and the thread count *)

(** At the input 9 > mumule_max_threads, mule_init neither rejects nor
    asserts. *)
Lemma mule_init_accepts_nine :
  (mumule_max_threads < 9)%nat /\ ~ init_rejects 9.
Proof.
  split; [unfold mumule_max_threads; lia|].
  unfold init_rejects. cbn. intros H. now apply H.
Qed.

(** C7, amended. mule_init checks nothing: for every requested thread
    count, also one above mumule_max_threads = 8, it stores the count and
    completes without a failed assertion.  A count above the maximum first
    shows in mule_launch, whose loop of lines 165-168 then writes past the
    end of the [threads] array. *)
Theorem mule_init_stores_any_thread_count rv n :
  fault (mule_init n) = None /\
  num_threads (mule (mule_init n)) = n /\
  ((mumule_max_threads < n)%nat ->
   exists s, run rv launch_past_the_array (mule_init n) = Some s /\
             fault s = Some F_out_of_bounds).
Proof.
  split; [reflexivity|]. split; [reflexivity|].
  unfold mumule_max_threads. intros Hn.
  do 9 (destruct n as [|n]; [lia|]).
  eexists. split; [vm_compute; reflexivity | reflexivity].
Qed.

Lemma mule_init_stores_any_thread_count_witness :
  (mumule_max_threads < 9)%nat /\
  exists s, run mumule_h launch_past_the_array (mule_init 9) = Some s /\
            fault s = Some F_out_of_bounds.
Proof.
  assert (H : (mumule_max_threads < 9)%nat) by (unfold mumule_max_threads; lia).
  split; [exact H|].
  exact (proj2 (proj2 (mule_init_stores_any_thread_count mumule_h 9)) H).
Defined.

(** ** mule_submit *)

Lemma wrap_range z : 0 <= wrap z < size_modulus.
Proof. unfold wrap. apply Z.mod_pos_bound. reflexivity. Qed.

Lemma wrap_small z : 0 <= z < size_modulus -> wrap z = z.
Proof. unfold wrap. apply Z.mod_small. Qed.

Lemma wrap_add_l a b : wrap (wrap a + b) = wrap (a + b).
Proof. unfold wrap. apply Zplus_mod_idemp_l. Qed.

Lemma sum_counts_repeat k N : sum_counts (repeat k N) = Z.of_nat N * k.
Proof.
  induction N as [|N IH]; [reflexivity|].
  cbn [repeat sum_counts fold_right]. fold (sum_counts (repeat k N)).
  rewrite IH. lia.
Qed.

(** The three counters stay values of size_t. *)
Lemma step_counters_in_range rv l s s' :
  step rv l s = Some s' ->
  (0 <= queued (mule s) < size_modulus /\
   0 <= processing (mule s) < size_modulus /\
   0 <= processed (mule s) < size_modulus) ->
  0 <= queued (mule s') < size_modulus /\
  0 <= processing (mule s') < size_modulus /\
  0 <= processed (mule s') < size_modulus.
Proof.
  intros H (Hq & Hp & Hd).
  assert (H0 : 0 <= 0 < size_modulus) by (split; [lia | reflexivity]).
  step_inv H; repeat split; try apply wrap_range; try apply H0;
    first [apply Hq | apply Hp | apply Hd].
Qed.

Lemma reachable_counters_in_range rv n s :
  reachable rv n s ->
  0 <= queued (mule s) < size_modulus /\
  0 <= processing (mule s) < size_modulus /\
  0 <= processed (mule s) < size_modulus.
Proof.
  intros [sch Hrun].
  assert (H0 : 0 <= 0 < size_modulus) by (split; [lia | reflexivity]).
  revert Hrun. generalize (mule_init n), (conj H0 (conj H0 H0) :
    0 <= queued (mule (mule_init n)) < size_modulus /\
    0 <= processing (mule (mule_init n)) < size_modulus /\
    0 <= processed (mule (mule_init n)) < size_modulus).
  induction sch as [|l sch IH]; intros s0 H Hrun; cbn in Hrun.
  - congruence.
  - destruct (step rv l s0) as [s1|] eqn:E; [|discriminate].
    apply (IH s1); [|assumption]. eapply step_counters_in_range; eauto.
Qed.

(** What one transition does to [queued] and to the results of
    mule_submit, outside mule_reset. *)
Lemma step_submit rv l s s' :
  step rv l s = Some s' ->
  in_reset s = false ->
  calls_reset [l] = false ->
  in_reset s' = false /\
  queued (mule s') = match l with
                     | L_submit count => wrap (queued (mule s) + count)
                     | _ => queued (mule s)
                     end /\
  submit_outcomes s' ≡ₚ
    submit_outcomes s ++ match l with
                         | L_submit count => [wrap (queued (mule s) + count)]
                         | _ => []
                         end.
Proof.
  intros H Hin Hl. unfold in_reset, submit_outcomes, calls_reset in *.
  destruct l as [i|i|i|count|k|a| | |].
  5: { (* a pending mule_submit returns *)
    unfold step, submit_finish in H.
    destruct (fault s); [discriminate|].
    destruct (submitting s !! k) as [[idx count]|] eqn:E; [|discriminate].
    injection H as <-. cbn. split; [assumption|]. split; [reflexivity|].
    rewrite app_nil_r, <- app_assoc. apply Permutation_app_head.
    rewrite (delete_Permutation _ _ _ E) at 2. reflexivity. }
  all: apply orb_false_iff in Hin as [Hk Hpc].
  all: step_inv H; rewrite ?app_nil_r; try discriminate.
  all: repeat split; try reflexivity; try (apply orb_false_iff; split).
  all: rewrite_eqns; cbn in *; try assumption; try discriminate; try reflexivity.
  all: try (destruct a; cbn in *; try assumption; try discriminate; reflexivity).
  all: try (apply orb_false_iff in Hk as [_ Hk]; assumption).
  all: try match goal with E : d_stack _ = _ |- _ => rewrite E; reflexivity end.
  all: try (match goal with E : d_stack _ = _ |- _ => rewrite E in Hk end;
            cbn in Hk; repeat (apply orb_false_iff in Hk as [? Hk]);
            try assumption; discriminate).
  rewrite map_app, app_assoc. reflexivity.
Qed.

Lemma run_submit rv sch : forall s s',
  run rv sch s = Some s' ->
  in_reset s = false ->
  calls_reset sch = false ->
  in_reset s' = false /\
  queued (mule s') = fold_left (fun q count => wrap (q + count))
                               (submit_counts sch) (queued (mule s)) /\
  submit_outcomes s' ≡ₚ
    submit_outcomes s ++ upper_bounds (queued (mule s)) (submit_counts sch).
Proof.
  induction sch as [|l sch IH]; intros s s' Hrun Hin Hsch.
  - cbn in *. injection Hrun as <-. rewrite app_nil_r. auto.
  - cbn [run] in Hrun. destruct (step rv l s) as [s1|] eqn:E; [|discriminate].
    assert (Hl : calls_reset [l] = false /\ calls_reset sch = false).
    { unfold calls_reset in *. cbn in *. apply orb_false_iff in Hsch as [-> ?].
      auto. }
    destruct Hl as [Hl Hsch'].
    destruct (step_submit _ _ _ _ E Hin Hl) as (Hin1 & Hq1 & Ho1).
    destruct (IH s1 s' Hrun Hin1 Hsch') as (Hin' & Hq' & Ho').
    split; [assumption|].
    destruct l; cbn [submit_counts fold_left upper_bounds];
      rewrite ?Hq1, ?app_nil_r in *; split; auto;
      try (rewrite Ho', Ho1; reflexivity).
    rewrite Ho', Ho1, <- app_assoc. reflexivity.
Qed.

Lemma fold_wrap_sum counts : forall q,
  0 <= q < size_modulus ->
  fold_left (fun q count => wrap (q + count)) counts q = wrap (q + sum_counts counts).
Proof.
  induction counts as [|c counts IH]; intros q Hq; cbn.
  - rewrite Z.add_0_r. symmetry. now apply wrap_small.
  - rewrite IH by apply wrap_range. fold (sum_counts counts).
    rewrite wrap_add_l. f_equal. lia.
Qed.

(** Line 154 alone, in any state whatever: the fetch-add goes through,
    leaves [queued] at the old value plus [count], and the call is going
    to return that same value. *)
Lemma submit_fetch_add_spec rv s count :
  fault s = None ->
  exists s1,
    step rv (L_submit count) s = Some s1 /\
    queued (mule s1) = wrap (queued (mule s) + count) /\
    submit_outcomes s1 = submit_outcomes s ++ [queued (mule s1)].
Proof.
  intros Hf. unfold step. rewrite Hf. eexists. split; [reflexivity|].
  unfold submit_outcomes. cbn. split; [reflexivity|].
  rewrite map_app, app_assoc. reflexivity.
Qed.

(** Lines 155-156 of a call that is past its fetch-add: the call
    broadcasts and returns, at any moment and whatever else goes on, the
    value [idx + count] of its own fetch-add. *)
Lemma submit_finish_spec rv s n idx count :
  fault s = None ->
  submitting s !! n = Some (idx, count) ->
  exists s',
    step rv (L_submit_finish n) s = Some s' /\
    submit_returns s' = submit_returns s ++ [wrap (idx + count)] /\
    submitting s' = delete n (submitting s) /\
    queued (mule s') = queued (mule s) /\
    threads (mule s') = map wake_thread (threads (mule s)) /\
    fault s' = None.
Proof.
  intros Hf Hn. unfold step, submit_finish. rewrite Hf, Hn.
  eexists. split; [reflexivity|]. cbn. auto.
Qed.

(** mule_submit from its entry to its return with nothing in between. *)
Lemma mule_submit_spec rv s count :
  fault s = None ->
  exists s',
    run rv [L_submit count; L_submit_finish (length (submitting s))] s = Some s' /\
    queued (mule s') = wrap (queued (mule s) + count) /\
    submit_returns s' = submit_returns s ++ [wrap (queued (mule s) + count)] /\
    submitting s' = submitting s.
Proof.
  intros Hf.
  destruct (submit_fetch_add_spec rv s count Hf) as (s1 & E1 & Hq1 & _).
  assert (H1 : fault s1 = None /\ submit_returns s1 = submit_returns s /\
               submitting s1 = submitting s ++ [(queued (mule s), count)]).
  { unfold step in E1. rewrite Hf in E1. injection E1 as <-. cbn. auto. }
  destruct H1 as (Hf1 & Hr1 & Hs1).
  destruct (submit_finish_spec rv s1 (length (submitting s)) (queued (mule s)) count Hf1)
    as (s2 & E2 & Hr2 & Hs2 & Hq2 & _ & _).
  { rewrite Hs1. apply list_lookup_middle. reflexivity. }
  exists s2. cbn [run]. rewrite E1, E2. split; [reflexivity|].
  rewrite Hq2, Hq1, Hr2, Hr1, Hs2, Hs1, delete_middle, app_nil_r. auto.
Qed.

(** The calls that are past their fetch-add can all return, and return
    what [submit_outcomes] says. *)
Lemma submits_return rv : forall k s,
  length (submitting s) = k -> fault s = None ->
  exists s',
    run rv (repeat (L_submit_finish 0) k) s = Some s' /\
    submitting s' = [] /\
    submit_returns s' = submit_outcomes s /\
    queued (mule s') = queued (mule s) /\
    fault s' = None.
Proof.
  induction k as [|k IH]; intros s Hk Hf.
  - exists s. apply length_zero_iff_nil in Hk. unfold submit_outcomes.
    rewrite Hk, app_nil_r. auto.
  - destruct (submitting s) as [|[idx count] rest] eqn:Es; [discriminate|].
    destruct (submit_finish_spec rv s 0 idx count Hf) as (s1 & E1 & Hr1 & Hs1 & Hq1 & _ & Hf1).
    { rewrite Es. reflexivity. }
    rewrite Es in Hs1. cbn in Hs1.
    destruct (IH s1) as (s' & E' & Hs' & Hr' & Hq' & Hf'); [|assumption|].
    { rewrite Hs1. cbn in Hk. lia. }
    exists s'. cbn [repeat run]. rewrite E1. split; [assumption|].
    split; [assumption|]. split; [|split; [congruence|assumption]].
    rewrite Hr'. unfold submit_outcomes. rewrite Hr1, Hs1, Es. cbn.
    rewrite <- app_assoc. reflexivity.
Qed.

(** C4. In every state mule_submit(count) adds [count] to [queued] in one
    transition and returns the new value, old [queued] plus [count]
    (arithmetic of size_t): run from its entry to its return it appends
    that value to the values returned, and a call that is past its
    fetch-add can return at any later moment, with the bound of its own
    fetch-add.  Outside mule_reset, along every schedule: [queued] ends at
    its old value plus the counts of all the calls made; the calls that
    are past their fetch-add can all return; and once they have, the
    values returned are, in some order, exactly the upper bounds of the
    fetch-adds.  So N submitters of k items each, however interleaved
    with each other and with the workers, raise [queued] by N * k, and by
    exactly that integer when it fits in size_t. *)
Theorem mule_submit_additive rv :
  (forall s count,
      fault s = None ->
      exists s1,
        step rv (L_submit count) s = Some s1 /\
        queued (mule s1) = wrap (queued (mule s) + count) /\
        submit_outcomes s1 = submit_outcomes s ++ [queued (mule s1)])
  /\ (forall s count,
        fault s = None ->
        exists s2,
          run rv [L_submit count; L_submit_finish (length (submitting s))] s = Some s2 /\
          queued (mule s2) = wrap (queued (mule s) + count) /\
          submit_returns s2 = submit_returns s ++ [wrap (queued (mule s) + count)] /\
          submitting s2 = submitting s)
  /\ (forall s n idx count,
        fault s = None ->
        submitting s !! n = Some (idx, count) ->
        exists s',
          step rv (L_submit_finish n) s = Some s' /\
          submit_returns s' = submit_returns s ++ [wrap (idx + count)] /\
          submitting s' = delete n (submitting s) /\
          queued (mule s') = queued (mule s) /\
          threads (mule s') = map wake_thread (threads (mule s)) /\
          fault s' = None)
  /\ (forall sch s s',
        0 <= queued (mule s) < size_modulus ->
        in_reset s = false ->
        calls_reset sch = false ->
        run rv sch s = Some s' ->
        queued (mule s') = wrap (queued (mule s) + sum_counts (submit_counts sch)) /\
        submit_outcomes s' ≡ₚ
          submit_outcomes s ++ upper_bounds (queued (mule s)) (submit_counts sch) /\
        (submitting s' = [] ->
         submit_returns s' ≡ₚ
           submit_outcomes s ++ upper_bounds (queued (mule s)) (submit_counts sch)) /\
        (fault s' = None ->
         exists s'',
           run rv (repeat (L_submit_finish 0) (length (submitting s'))) s' = Some s'' /\
           submitting s'' = [] /\
           queued (mule s'') = queued (mule s') /\
           submit_returns s'' ≡ₚ
             submit_outcomes s ++ upper_bounds (queued (mule s)) (submit_counts sch)) /\
        (forall (N : nat) (k : Z),
            submit_counts sch = repeat k N ->
            queued (mule s') = wrap (queued (mule s) + Z.of_nat N * k) /\
            (0 <= k -> queued (mule s) + Z.of_nat N * k < size_modulus ->
             queued (mule s') = queued (mule s) + Z.of_nat N * k))).
Proof.
  split; [intros s count; apply submit_fetch_add_spec|].
  split; [intros s count; apply mule_submit_spec|].
  split; [intros s n idx count; apply submit_finish_spec|].
  intros sch s s' Hq Hin Hsch Hrun.
  destruct (run_submit _ _ _ _ Hrun Hin Hsch) as (_ & Hq' & Ho').
  rewrite fold_wrap_sum in Hq' by assumption.
  split; [assumption|]. split; [assumption|]. split; [|split].
  - intros Hnil. rewrite <- Ho'. unfold submit_outcomes. rewrite Hnil, app_nil_r.
    reflexivity.
  - intros Hf. destruct (submits_return rv _ s' eq_refl Hf) as (s'' & E & Hs & Hr & Hq'' & _).
    exists s''. repeat split; try assumption. rewrite Hr. exact Ho'.
  - intros N k HN. rewrite HN, sum_counts_repeat in Hq'.
    split; [assumption|]. intros Hk Hfit. rewrite Hq'. apply wrap_small. nia.
Qed.

Lemma mule_submit_additive_witness :
  exists s',
    run mumule_h four_submitters launched_two = Some s' /\
    queued (mule s') = 0 + 4 * 5 /\
    submitting s' = [] /\
    submit_returns s' = [10; 5; 20; 15] /\
    submit_returns s' ≡ₚ [5; 10; 15; 20].
Proof.
  destruct (run mumule_h four_submitters launched_two) as [s'|] eqn:E;
    [|vm_compute in E; discriminate E].
  exists s'. split; [reflexivity|].
  assert (Hq : 0 <= queued (mule launched_two) < size_modulus)
    by (vm_compute; split; [discriminate | reflexivity]).
  destruct (proj2 (proj2 (proj2 (mule_submit_additive mumule_h)))
              four_submitters launched_two s' Hq eq_refl eq_refl E)
    as (H1 & H2 & H3 & H4 & H5).
  assert (Hnil : submitting s' = [])
    by (vm_compute in E; injection E as <-; reflexivity).
  split; [apply (proj2 (H5 4%nat 5 eq_refl)); [discriminate | reflexivity]|].
  split; [exact Hnil|]. split.
  - vm_compute in E. injection E as <-. reflexivity.
  - exact (H3 Hnil).
Defined.

(** ** Workers and mule_shutdown *)

Lemma wake_thread_saw_queue_empty t :
  saw_queue_empty t -> saw_queue_empty (wake_thread t).
Proof.
  unfold saw_queue_empty, wake_thread. destruct (t_pc t) eqn:E; cbn; rewrite ?E; auto.
Qed.

Lemma step_saw_queue_empty rv l s s' :
  step rv l s = Some s' ->
  Forall saw_queue_empty (threads (mule s)) ->
  Forall saw_queue_empty (threads (mule s')).
Proof.
  intros H HI.
  assert (Hw : Forall saw_queue_empty (map wake_thread (threads (mule s)))).
  { apply Forall_map. eapply Forall_impl; [exact HI|]. apply wake_thread_saw_queue_empty. }
  step_inv H; try assumption.
  all: apply Forall_insert; try assumption.
  all: match goal with
       | E : threads (mule _) !! _ = Some ?m |- _ =>
           pose proof (Forall_lookup_1 _ _ _ _ HI E) as Hm
       end.
  all: unfold saw_queue_empty in *; cbn; rewrite_eqns; cbn; intros; try discriminate.
  all: try (apply Hm; rewrite_eqns; reflexivity).
  all: try (apply Hm; match goal with E : t_pc _ = _ |- _ => rewrite E end; reflexivity).
  all: try (apply Hm; assumption).
  now apply Z.eqb_eq.
Qed.

Lemma run_saw_queue_empty rv sch : forall s s',
  run rv sch s = Some s' ->
  Forall saw_queue_empty (threads (mule s)) ->
  Forall saw_queue_empty (threads (mule s')).
Proof.
  induction sch as [|l sch IH]; intros s s' Hrun HI; cbn in Hrun.
  - congruence.
  - destruct (step rv l s) as [s1|] eqn:E; [|discriminate].
    eauto using step_saw_queue_empty.
Qed.

Lemma lookup_insert_cases {A} (l : list A) i j x y z :
  l !! i = Some y -> <[j := x]> l !! i = Some z ->
  (i = j /\ z = x) \/ (i <> j /\ z = y).
Proof.
  intros Hy Hz. destruct (decide (i = j)) as [->|Hne].
  - rewrite list_lookup_insert_eq in Hz by (eapply lookup_lt_Some; eauto).
    left. split; congruence.
  - rewrite list_lookup_insert_ne in Hz by congruence. right. split; congruence.
Qed.

Lemma lookup_wake_thread (l : list mu_thread) i t u :
  l !! i = Some t -> map wake_thread l !! i = Some u -> u = wake_thread t.
Proof.
  intros Ht Hu. change (map wake_thread l) with (wake_thread <$> l) in Hu.
  rewrite list_lookup_fmap, Ht in Hu. cbn in Hu. congruence.
Qed.

(** A worker reaches line 145 only from line 114, having read [running]
    as false. *)
Lemma step_to_leaving rv l s s' i t t' :
  step rv l s = Some s' ->
  threads (mule s) !! i = Some t ->
  threads (mule s') !! i = Some t' ->
  t_pc t <> T_leaving -> t_pc t' = T_leaving ->
  l = L_thread i /\ t_pc t = T_load_running /\ running (mule s) = false.
Proof.
  intros H Ht Ht' Hpc Hpc'.
  assert (Hw : forall u, map wake_thread (threads (mule s)) !! i = Some u ->
                         t_pc u <> T_leaving).
  { intros u Hu. rewrite (lookup_wake_thread _ _ _ _ Ht Hu).
    unfold wake_thread. destruct (t_pc t) eqn:E; cbn; congruence. }
  step_inv H; try congruence; try (exfalso; eapply Hw; eauto; fail).
  all: destruct (lookup_insert_cases _ _ _ _ _ _ Ht Ht') as [[-> ->]|[Hne ->]];
    cbn in *; try congruence.
  assert (t = m) by congruence. subst. auto.
Qed.

(** Line 126-128 with the value of [processing] unchanged since line 108:
    the claim succeeds.  [running] is not consulted. *)
Lemma claim_succeeds rv s i t :
  fault s = None ->
  threads (mule s) !! i = Some t ->
  t_pc t = T_cas ->
  processing (mule s) = t_processing t ->
  exists s',
    step rv (L_thread i) s = Some s' /\
    processing (mule s') = wrap (processing (mule s) + 1) /\
    running (mule s') = running (mule s) /\
    threads (mule s') !! i
    = Some (thread_with_pc T_kernel
              (thread_with_workitem (wrap (processing (mule s) + 1)) t)).
Proof.
  intros Hf Ht Hpc Hp. unfold step, thread_step. rewrite Hf, Ht, Hpc, Hp, Z.eqb_refl.
  eexists. split; [reflexivity|]. cbn. repeat split.
  apply list_lookup_insert_eq. eapply lookup_lt_Some; eauto.
Qed.

(** Lines 129-130 of a worker that holds a claimed item: the kernel is
    called and [processed] is incremented.  [running] is not consulted. *)
Lemma claimed_item_completes rv s i t :
  fault s = None ->
  threads (mule s) !! i = Some t ->
  t_pc t = T_kernel ->
  exists s',
    run rv [L_thread i; L_thread i] s = Some s' /\
    kernel_calls s' = kernel_calls s ++ [(t_idx t, t_workitem t)] /\
    processed (mule s') = wrap (processed (mule s) + 1) /\
    running (mule s') = running (mule s).
Proof.
  intros Hf Ht Hpc.
  assert (Hi : (i < length (threads (mule s)))%nat) by (eapply lookup_lt_Some; eauto).
  cbn [run]. unfold step at 1, thread_step at 1. rewrite Hf, Ht, Hpc.
  unfold step, thread_step. cbn.
  rewrite Hf, list_lookup_insert_eq by assumption. cbn.
  eexists. split; [reflexivity|]. cbn. auto.
Qed.

(** After [running] is set to false with items 1 and 2 unclaimed, the
    worker claims and executes both. *)
Lemma shutdown_does_not_stop_claiming :
  exists s1 s2,
    run mumule_h shutdown_with_work_queued (mule_init 1) = Some s1 /\
    running (mule s1) = false /\
    queued (mule s1) = 2 /\ processing (mule s1) = 0 /\ kernel_calls s1 = [] /\
    run mumule_h drain_after_shutdown s1 = Some s2 /\
    processing (mule s2) = 2 /\
    kernel_calls s2 = [(0%nat, 1); (0%nat, 2)] /\
    returns s2 = [(A_launch, 0); (A_shutdown, 0)].
Proof.
  eexists. eexists.
  split; [vm_compute; reflexivity|].
  do 4 (split; [reflexivity|]).
  split; [vm_compute; reflexivity|].
  repeat split.
Qed.

(** ** Parking of idle workers *)

(** In [src/mumule.h] nothing but a further call into the pool gets
    parked workers going again. *)
Lemma step_all_parked ts l s s' :
  negb (is_new_call l) = true ->
  step mumule_h l s = Some s' ->
  all_parked ts s -> all_parked ts s'.
Proof.
  intros Hl H (Hts & Hall & Hq & Hp & Hsub & Hk & Hr & Hst & Hpc).
  apply negb_true_iff in Hl. unfold all_parked.
  destruct l as [i|i|i|count|k|a| | |]; try discriminate Hl.
  - (* a worker *)
    unfold step, thread_step in H. destruct (fault s); [discriminate|].
    destruct (threads (mule s) !! i) as [t|] eqn:Et; [|discriminate].
    rewrite Hts in Et.
    destruct (Forall_lookup_1 _ _ _ _ Hall Et) as [E|E]; rewrite E in H; discriminate.
  - unfold step, thread_cas_fail in H. destruct (fault s); [discriminate|].
    destruct (threads (mule s) !! i) as [t|] eqn:Et; [|discriminate].
    rewrite Hts in Et.
    destruct (Forall_lookup_1 _ _ _ _ Hall Et) as [E|E]; rewrite E in H; discriminate.
  - unfold step, thread_timeout in H. destruct (fault s); [discriminate|].
    destruct (threads (mule s) !! i) as [t|]; [|discriminate].
    destruct (t_pc t); discriminate.
  - unfold step, submit_finish in H. destruct (fault s); [discriminate|].
    rewrite Hsub in H. discriminate.
  - step_inv H; try contradiction; try discriminate; repeat split; auto.
    all: try apply Z.ltb_ge in Heqb; try lia.
  - step_inv H; try contradiction; repeat split; auto.
  - step_inv H; try contradiction; repeat split; auto.
    rewrite_eqns. exact I.
Qed.

(** C6, on [src/mumule.h]. After a schedule in which both wake-ups
    precede the worker's wait, the worker is inside the untimed cnd_wait
    of line 119 with item 1 queued and unclaimed, and however the
    program goes on without a further call into the pool, the worker stays
    there, the kernel is never called and mule_synchronize never returns.
    With the timed wait of part_002 the same schedule is followed by the
    worker's time-out, the execution of item 1 and the return of
    mule_synchronize. *)
Theorem lost_wakeup_parks_worker_forever :
  run mumule_h lost_wakeup (mule_init 1) = Some parked_state /\
  queued (mule parked_state) = 1 /\ processing (mule parked_state) = 0 /\
  (exists t, threads (mule parked_state) !! 0%nat = Some t /\ t_pc t = T_blocked) /\
  (forall sch s',
      forallb (fun l => negb (is_new_call l)) sch = true ->
      run mumule_h sch parked_state = Some s' ->
      threads (mule s') = threads (mule parked_state) /\
      kernel_calls s' = [] /\ returns s' = [(A_launch, 0)]) /\
  (exists s',
      run part_002 (lost_wakeup ++ recover_by_timeout) (mule_init 1) = Some s' /\
      kernel_calls s' = [(0%nat, 1)] /\
      returns s' = [(A_launch, 0); (A_synchronize, 0)]).
Proof.
  split; [vm_compute; reflexivity|].
  split; [reflexivity|]. split; [reflexivity|].
  split; [eexists; split; reflexivity|]. split.
  - intros sch s' Hsch Hrun.
    assert (HP : all_parked (threads (mule parked_state)) parked_state).
    { unfold all_parked. split; [reflexivity|]. split.
      - cbn. repeat (constructor; [cbn; auto|]). constructor.
      - cbn. repeat split; auto. }
    pose proof (run_invariant mumule_h _ _ (step_all_parked _) sch _ s' Hsch Hrun HP)
      as (Hts & _ & _ & _ & _ & Hk & Hr & _).
    auto.
  - eexists. split; [vm_compute; reflexivity|]. split; reflexivity.
Qed.

(** ** The queue-empty test of the worker *)

(** C2, at a failing schedule: no mule_reset has been called, one item
    was submitted, and [processing] = 2 exceeds [queued] = 1. *)
Theorem stale_queued_breaks_counter_order :
  exists s,
    run mumule_h stale_queued_race (mule_init 2) = Some s /\
    returns s = [(A_launch, 0)] /\
    submit_counts stale_queued_race = [1] /\
    queued (mule s) = 1 /\ processing (mule s) = 2 /\ processed (mule s) = 0 /\
    ~ processing (mule s) <= queued (mule s).
Proof.
  eexists. split; [vm_compute; reflexivity|].
  repeat split. cbn. lia.
Qed.

(** C1, at a failing schedule: mule_submit was called once with count 1,
    mule_synchronize has returned, item 1 has not been handed to the
    kernel, and item 2, which nobody submitted, has. *)
Theorem stale_queued_breaks_exactly_once :
  exists s,
    run mumule_h exactly_once_race (mule_init 2) = Some s /\
    submit_counts exactly_once_race = [1] /\
    returns s = [(A_launch, 0); (A_synchronize, 0)] /\
    kernel_calls s = [(1%nat, 2)] /\
    times_executed 1 s = 0%nat /\ times_executed 2 s = 1%nat.
Proof.
  eexists. split; [vm_compute; reflexivity|]. repeat split.
Qed.

(** Line 195: mule_synchronize goes on to wait when the [processed] it
    loads is below the [queued] it loaded, and to its return otherwise. *)
Lemma synchronize_test rv s :
  fault s = None -> d_pc (disp s) = D_sync_load_processed ->
  exists s',
    step rv L_caller s = Some s' /\
    d_pc (disp s') = if processed (mule s) <? d_queued (disp s)
                     then D_sync_timedwait else D_sync_unlock.
Proof.
  intros Hf Hpc. unfold step, caller_step. rewrite Hf, Hpc.
  eexists. split; reflexivity.
Qed.

(** C3, at a failing schedule: mule_synchronize has returned, having
    loaded [queued] = 1 and [processed] = 2, while worker 0 holds the
    claimed item 1 and has not yet called the kernel with it. *)
Theorem synchronize_returns_with_item_outstanding :
  exists s t,
    run mumule_h early_return_race (mule_init 2) = Some s /\
    returns s = [(A_launch, 0); (A_synchronize, 0)] /\
    d_queued (disp s) = 1 /\ d_processed (disp s) = 2 /\
    threads (mule s) !! 0%nat = Some t /\
    t_pc t = T_kernel /\ t_workitem t = 1 /\
    times_executed 1 s = 0%nat /\
    kernel_calls s = [(1%nat, 2); (1%nat, 3)].
Proof.
  eexists. eexists. split; [vm_compute; reflexivity|]. repeat split.
Qed.

(** Lines 216-222: the three stores, the broadcast and [return 0]. *)
Lemma mule_reset_zeroes rv s :
  fault s = None -> d_pc (disp s) = D_reset_queued -> d_stack (disp s) = [A_reset] ->
  exists s',
    run rv (repeat L_caller 4) s = Some s' /\
    queued (mule s') = 0 /\ processing (mule s') = 0 /\ processed (mule s') = 0 /\
    returns s' = returns s ++ [(A_reset, 0)].
Proof.
  intros Hf Hpc Hk.
  destruct s as [m [pc k dq dp] sg sr r kc f]; cbn in *; subst.
  eexists. split; [reflexivity|]. cbn. auto.
Qed.

(** C8, at a failing schedule: submit(1), synchronize, reset, submit(1),
    synchronize with one worker.  When mule_reset returns the counters
    are zero and item 1 has been executed; after it the kernel is called
    twice, with the items 2 and 1, although one item was submitted. *)
Theorem reset_races_with_worker :
  exists s1 s2,
    run mumule_h reset_race (mule_init 1) = Some s1 /\
    submit_counts reset_race = [1] /\
    returns s1 = [(A_launch, 0); (A_synchronize, 0); (A_synchronize, 0); (A_reset, 0)] /\
    queued (mule s1) = 0 /\ processing (mule s1) = 0 /\ processed (mule s1) = 0 /\
    kernel_calls s1 = [(0%nat, 1)] /\
    run mumule_h after_reset s1 = Some s2 /\
    submit_counts after_reset = [1] /\
    last (returns s2) = Some (A_synchronize, 0) /\
    kernel_calls s2 = kernel_calls s1 ++ [(0%nat, 2); (0%nat, 1)].
Proof.
  eexists. eexists. split; [vm_compute; reflexivity|].
  do 6 (split; [reflexivity|]).
  split; [vm_compute; reflexivity|]. repeat split.
Qed.

(** ** What the compare-and-swap does guarantee *)

(** How one transition outside mule_reset moves [processing] and
    [processed]: not at all, or up by one, [processing] through the
    successful compare-and-swap of a worker at lines 126-128 and
    [processed] through the fetch-add of a worker at line 130, which is
    where a worker goes after its call of the kernel and nowhere else. *)
Lemma step_counters rv l s s' :
  step rv l s = Some s' ->
  in_reset s = false ->
  (processing (mule s') = processing (mule s) \/
   processing (mule s') = wrap (processing (mule s) + 1) /\
   exists i t, l = L_thread i /\ threads (mule s) !! i = Some t /\
               t_pc t = T_cas /\ t_processing t = processing (mule s)) /\
  (processed (mule s') = processed (mule s) \/
   processed (mule s') = wrap (processed (mule s) + 1) /\
   exists i t, l = L_thread i /\ threads (mule s) !! i = Some t /\
               t_pc t = T_fetch_add).
Proof.
  intros H Hin. unfold in_reset in Hin. apply orb_false_iff in Hin as [_ Hpc].
  step_inv H; try discriminate; try (split; left; reflexivity).
  - apply Z.eqb_eq in Heqb. split; [right | left; reflexivity].
    split; [congruence|]. eauto 10.
  - split; [left; reflexivity | right]. split; [reflexivity|]. eauto 10.
  - split; [left; reflexivity | right]. split; [reflexivity|]. eauto 10.
Qed.

Lemma flat_map_insert {A B} (f : A -> list B) (l : list A) i x y :
  l !! i = Some x ->
  exists l1 l2,
    flat_map f l = l1 ++ f x ++ l2 /\
    flat_map f (<[i := y]> l) = l1 ++ f y ++ l2.
Proof.
  intros Hx. exists (flat_map f (take i l)), (flat_map f (drop (S i) l)). split.
  - rewrite <- (take_drop_middle l i x Hx) at 1.
    rewrite flat_map_app. reflexivity.
  - rewrite insert_take_drop by (eapply lookup_lt_Some; eauto).
    rewrite flat_map_app. reflexivity.
Qed.

Lemma flat_map_wake_thread {B} (f : mu_thread -> list B) (l : list mu_thread) :
  (forall t, f (wake_thread t) = f t) ->
  flat_map f (map wake_thread l) = flat_map f l.
Proof.
  intros Hf. induction l as [|t l IH]; cbn; [reflexivity|].
  rewrite Hf, IH. reflexivity.
Qed.

Lemma holds_wake_thread t : holds (wake_thread t) = holds t.
Proof. unfold holds, wake_thread. destruct (t_pc t) eqn:E; cbn; rewrite ?E; reflexivity. Qed.

Lemma in_flight_wake_thread t : in_flight (wake_thread t) = in_flight t.
Proof. unfold in_flight, wake_thread. destruct (t_pc t) eqn:E; cbn; rewrite ?E; reflexivity. Qed.

(** Replacing the thread in one slot: the claimed items change by what
    the old and the new thread hold. *)
Lemma claimed_insert (K : list (nat * Z)) (ts : list mu_thread) i t t' :
  ts !! i = Some t ->
  exists rest,
    map snd K ++ flat_map holds ts ≡ₚ holds t ++ rest /\
    map snd K ++ flat_map holds (<[i := t']> ts) ≡ₚ holds t' ++ rest /\
    forall c,
      map snd (K ++ [c]) ++ flat_map holds (<[i := t']> ts)
      ≡ₚ snd c :: holds t' ++ rest.
Proof.
  intros Ht. destruct (flat_map_insert holds ts i t t' Ht) as (l1 & l2 & E & E').
  exists (map snd K ++ l1 ++ l2). rewrite E, E'. split; [|split].
  - solve_Permutation.
  - solve_Permutation.
  - intros c. rewrite map_app. cbn [map]. solve_Permutation.
Qed.

Ltac use_thread_lookup :=
  match goal with
  | E : threads (mule ?s) !! ?i = Some ?m
    |- context [<[?i := ?t']> (threads (mule ?s))] =>
      let rest := fresh "rest" in
      let l1 := fresh "l" in
      let l2 := fresh "l" in
      destruct (claimed_insert (kernel_calls s) _ i m t' E) as (rest & ?E1 & ?E2 & ?E3);
      destruct (flat_map_insert in_flight _ i m t' E) as (l1 & l2 & ?F1 & ?F2)
  end.

Lemma step_claims_ok rv l s s' k :
  step rv l s = Some s' ->
  in_reset s = false ->
  calls_reset [l] = false ->
  k + 1 < size_modulus ->
  claims_ok k s -> claims_ok (k + 1) s'.
Proof.
  intros H Hin Hl Hk1 (Hp0 & Hfl & Hk & Hnd & Hall).
  unfold claims_ok, claimed, in_reset, calls_reset in *.
  apply orb_false_iff in Hin as [Hst Hpc].
  step_inv H; try discriminate.
  all: rewrite ?(flat_map_wake_thread holds), ?(flat_map_wake_thread in_flight)
         by (apply holds_wake_thread || apply in_flight_wake_thread).
  all: try (repeat split; try assumption; lia).
  all: use_thread_lookup.
  all: rewrite ?E2, ?E3, ?F2; rewrite E1 in Hnd, Hall; rewrite F1 in Hfl.
  all: clear E1 E2 E3 F1 F2.
  all: unfold holds, in_flight in *; cbn in *.
  all: repeat match goal with
              | E : t_pc ?m = _, H : context [t_pc ?m] |- _ => rewrite E in H
              end.
  all: rewrite ?length_app in *; cbn in *; rewrite ?length_app in *.
  all: try (repeat split; try assumption; lia).
  all: try (rewrite wrap_small by lia; repeat split; try assumption; lia).
  - apply Z.eqb_eq in Heqb. rewrite <- Heqb. rewrite wrap_small by lia.
    repeat split; try lia.
    + apply NoDup_cons. split; [|assumption].
      intros Hx. rewrite Forall_forall in Hall. apply Hall in Hx. lia.
    + constructor; [lia|]. eapply Forall_impl; [exact Hall|]. cbn. intros; lia.
  - apply NoDup_app in Hnd as (_ & _ & Hnd). apply Forall_app in Hall as [_ Hall].
    repeat split; try assumption; lia.
Qed.

Lemma run_claims_ok rv sch : forall s s' k,
  run rv sch s = Some s' ->
  in_reset s = false ->
  calls_reset sch = false ->
  k + Z.of_nat (length sch) < size_modulus ->
  claims_ok k s -> claims_ok (k + Z.of_nat (length sch)) s'.
Proof.
  induction sch as [|l sch IH]; intros s s' k Hrun Hin Hsch Hlen HI.
  - cbn in *. injection Hrun as <-. rewrite Z.add_0_r. assumption.
  - cbn [run] in Hrun. destruct (step rv l s) as [s1|] eqn:E; [|discriminate].
    assert (Hl : calls_reset [l] = false /\ calls_reset sch = false).
    { unfold calls_reset in *. cbn in *. apply orb_false_iff in Hsch as [-> ?].
      auto. }
    destruct Hl as [Hl Hsch'].
    destruct (step_submit _ _ _ _ E Hin Hl) as (Hin1 & _).
    cbn [length] in *.
    replace (k + Z.of_nat (S (length sch))) with (k + 1 + Z.of_nat (length sch)) in * by lia.
    apply (IH s1 s' (k + 1) Hrun Hin1 Hsch' Hlen).
    apply (step_claims_ok rv l s s1 k E Hin Hl); [lia | assumption].
Qed.



(** ** A pool of one worker *)

Lemma first_items_S n : first_items (S n) = first_items n ++ [Z.of_nat (S n)].
Proof. unfold first_items. rewrite seq_S, map_app. reflexivity. Qed.

Lemma wake_thread_none (l : list mu_thread) :
  Forall (fun u => t_pc u = T_none) l ->
  Forall (fun u => t_pc u = T_none) (map wake_thread l).
Proof.
  intros H. apply Forall_map. eapply Forall_impl; [exact H|].
  intros u Hu. unfold wake_thread. rewrite Hu. exact Hu.
Qed.

Lemma view_ok_wake p q d c t : view_ok p q d c t -> view_ok p q d c (wake_thread t).
Proof. unfold view_ok, wake_thread. destruct (t_pc t) eqn:E; cbn; rewrite ?E; auto. Qed.

Lemma view_ok_more_queued p q q' d c t :
  q <= q' -> view_ok p q d c t -> view_ok p q' d c t.
Proof. unfold view_ok. destruct (t_pc t); intuition lia. Qed.

Lemma view_ok_idx p q d c i t : view_ok p q d c t -> view_ok p q d c (thread_with_idx i t).
Proof. exact (fun H => H). Qed.

Lemma absent_ok_wake pc rn t :
  absent_ok pc rn (t_pc t) -> absent_ok pc rn (t_pc (wake_thread t)).
Proof.
  unfold wake_thread. destruct (t_pc t) eqn:E; cbn; rewrite ?E; auto.
  unfold absent_ok.
  destruct pc as [| |?| |[|?]| | | | | | | | | | | | | | | | | | |[|?]|];
    intuition congruence.
Qed.

(** A worker that exists may move on wherever the caller is. *)
Lemma absent_ok_moves pc rn tpc tpc' :
  absent_ok pc rn tpc -> tpc <> T_none -> absent_ok pc rn tpc'.
Proof.
  unfold absent_ok.
  destruct pc as [| |?| |[|?]| | | | | | | | | | | | | | | | | | |[|?]|];
    intuition congruence.
Qed.

Lemma step_single_ok rv l s s' b :
  step rv l s = Some s' ->
  in_reset s = false ->
  calls_reset [l] = false ->
  submits_within b l ->
  single_ok b s -> single_ok (budget_after b l) s'.
Proof.
  intros H Hin Hl Hb (Hn & Hd0 & Hpq & Hb0 & Hqb & Hseq & t & rest & Hts & Hrest & Hv & Ha).
  unfold in_reset, calls_reset in *.
  apply orb_false_iff in Hin as [Hst Hpc].
  destruct s as [[rn q p d mtx lv nt tr ts] [pc stk dq dp] sg sr r kc f].
  cbn in Hn, Hd0, Hpq, Hqb, Hseq, Hts, Hst, Hpc, Hv, Ha. subst nt ts.
  unfold single_ok.
  destruct l as [[|i]|[|i]|[|i]|count|j|a| | |].
  - (* the worker *)
    step_inv H.
    all: match goal with E : Some _ = Some _ |- _ => injection E as <- end.
    all: match goal with E : t_pc _ = _ |- _ => rename E into Et end.
    all: assert (Hmv : forall tpc', absent_ok pc rn tpc')
      by (intros; eapply absent_ok_moves; [exact Ha | rewrite Et; discriminate]).
    all: unfold view_ok in Hv; rewrite Et in Hv.
    all: try apply Z.eqb_eq in Heqb; try apply Z.eqb_neq in Heqb.
    all: rewrite ?length_app; cbn [length]; rewrite ?Nat.add_1_r, ?first_items_S, ?map_app.
    all: repeat (rewrite wrap_small by lia).
    all: repeat match goal with |- _ /\ _ => split end; try lia; try assumption.
    all: try (rewrite Hseq; cbn [map snd]; do 2 f_equal; lia).
    all: eexists; eexists; split; [reflexivity|]; split; [assumption|].
    all: split; [unfold view_ok; cbn; lia | ].
    all: try apply Hmv.
    subst pc. exact (Hmv _).
  - (* no other worker exists *)
    step_inv H.
    all: match goal with
         | Hr : Forall _ ?l, E : ?l !! _ = Some ?m, E' : t_pc ?m = _ |- _ =>
             rewrite (Forall_lookup_1 _ _ _ _ Hr E) in E'; discriminate E'
         end.
  - step_inv H.
    all: match goal with E : Some _ = Some _ |- _ => injection E as <- end.
    all: match goal with E : t_pc _ = _ |- _ => rename E into Et end.
    unfold view_ok in Hv; rewrite Et in Hv.
    repeat match goal with |- _ /\ _ => split end; try lia; try assumption.
    eexists; eexists; split; [reflexivity|]; split; [assumption|].
    split; [unfold view_ok; cbn; lia|].
    eapply absent_ok_moves; [exact Ha | rewrite Et; discriminate].
  - step_inv H.
    all: match goal with
         | Hr : Forall _ ?l, E : ?l !! _ = Some ?m, E' : t_pc ?m = _ |- _ =>
             rewrite (Forall_lookup_1 _ _ _ _ Hr E) in E'; discriminate E'
         end.
  - step_inv H.
    all: match goal with E : Some _ = Some _ |- _ => injection E as <- end.
    all: match goal with E : t_pc _ = _ |- _ => rename E into Et end.
    unfold view_ok in Hv; rewrite Et in Hv.
    repeat match goal with |- _ /\ _ => split end; try lia; try assumption.
    eexists; eexists; split; [reflexivity|]; split; [assumption|].
    split; [unfold view_ok; cbn; lia|].
    eapply absent_ok_moves; [exact Ha | rewrite Et; discriminate].
  - step_inv H.
    all: match goal with
         | Hr : Forall _ ?l, E : ?l !! _ = Some ?m, E' : t_pc ?m = _ |- _ =>
             rewrite (Forall_lookup_1 _ _ _ _ Hr E) in E'; discriminate E'
         end.
  - (* mule_submit, line 154 *)
    step_inv H. rewrite wrap_small by lia.
    repeat match goal with |- _ /\ _ => split end; try lia; try assumption.
    eexists; eexists; split; [reflexivity|]; split; [assumption|].
    split; [|assumption]. eapply view_ok_more_queued; [|exact Hv]. lia.
  - (* mule_submit, lines 155-156 *)
    step_inv H.
    repeat match goal with |- _ /\ _ => split end; try lia; try assumption.
    eexists; eexists; split; [reflexivity|]; split; [now apply wake_thread_none|].
    split; [now apply view_ok_wake | now apply absent_ok_wake].
  - (* entering a lifecycle function *)
    step_inv H.
    repeat match goal with |- _ /\ _ => split end; try lia; try assumption.
    eexists; eexists; split; [reflexivity|]; split; [assumption|].
    split; [assumption|]. subst pc. destruct a; try discriminate Hl; exact Ha.
  - (* the caller *)
    step_inv H.
    all: subst pc; cbn in Hpc; try discriminate Hpc.
    all: try (subst stk; cbn in Hst;
              repeat (apply orb_false_iff in Hst as [? Hst]); discriminate).
    all: try match goal with
             | E : (_ :: _) !! ?i = Some _ |- _ =>
                 destruct i; cbn in E; [injection E as <- | discriminate]
             end.
    all: repeat match goal with |- _ /\ _ => split end; try lia; try assumption.
    all: eexists; eexists; (split; [reflexivity|]).
    all: (split; [assumption || (apply wake_thread_none; assumption)|]).
    all: split; [try apply view_ok_wake | try apply absent_ok_wake].
    all: try assumption.
    all: unfold view_ok, absent_ok in *; cbn in *.
    all: repeat match goal with H : _ /\ _ |- _ => destruct H end.
    all: repeat match goal with
                | E : t_pc ?m = _, H : context [t_pc ?m] |- _ => rewrite E in H
                end.
    all: try (intuition (congruence || lia)).
    all: match goal with i : nat |- _ => destruct i end;
      cbn in *; try discriminate; intuition congruence.
  - (* the wait of mule_synchronize times out *)
    step_inv H.
    repeat match goal with |- _ /\ _ => split end; try lia; try assumption.
    eexists; eexists; split; [reflexivity|]; split; [assumption|].
    split; [assumption|]. subst pc. exact Ha.
  - (* an assertion fails *)
    step_inv H.
    all: repeat match goal with |- _ /\ _ => split end; try lia; try assumption.
    all: eexists; eexists; split; [reflexivity|]; split; [assumption|].
    all: split; assumption.
Qed.

Lemma sum_counts_nonneg counts :
  Forall (fun count => 0 <= count) counts -> 0 <= sum_counts counts.
Proof.
  induction 1 as [|c counts Hc _ IH]; cbn; [lia|].
  fold (sum_counts counts). lia.
Qed.

Lemma run_single_ok rv sch : forall s s' b,
  run rv sch s = Some s' ->
  in_reset s = false ->
  calls_reset sch = false ->
  Forall (fun count => 0 <= count) (submit_counts sch) ->
  sum_counts (submit_counts sch) <= b ->
  single_ok b s ->
  in_reset s' = false /\ single_ok (b - sum_counts (submit_counts sch)) s'.
Proof.
  induction sch as [|l sch IH]; intros s s' b Hrun Hin Hsch Hpos Hsum HI.
  - cbn in *. injection Hrun as <-. rewrite Z.sub_0_r. auto.
  - cbn [run] in Hrun. destruct (step rv l s) as [s1|] eqn:E; [|discriminate].
    assert (Hl : calls_reset [l] = false /\ calls_reset sch = false).
    { unfold calls_reset in *. cbn in *. apply orb_false_iff in Hsch as [-> ?].
      auto. }
    destruct Hl as [Hl Hsch'].
    destruct (step_submit _ _ _ _ E Hin Hl) as (Hin1 & _).
    assert (Hb : submits_within b l /\
                 Forall (fun count => 0 <= count) (submit_counts sch) /\
                 sum_counts (submit_counts sch) <= budget_after b l /\
                 budget_after b l - sum_counts (submit_counts sch)
                 = b - sum_counts (submit_counts (l :: sch))).
    { destruct l; cbn in *; try (repeat split; auto; lia).
      apply Forall_cons in Hpos as [? ?].
      fold (sum_counts (submit_counts sch)) in *.
      pose proof (sum_counts_nonneg _ H0). repeat split; auto; lia. }
    destruct Hb as (Hb & Hpos' & Hsum' & Heq). rewrite <- Heq.
    apply (IH s1 s' _ Hrun Hin1 Hsch' Hpos' Hsum').
    apply (step_single_ok rv l s s1 b E Hin Hl Hb HI).
Qed.

Lemma single_ok_init b :
  0 <= b < size_modulus -> single_ok b (mule_init 1).
Proof.
  intros Hb. unfold single_ok. cbn. repeat split; try lia.
  eexists; eexists. split; [reflexivity|]. split.
  - repeat constructor.
  - split; [unfold view_ok; cbn; lia | unfold absent_ok; cbn; auto].
Qed.

Lemma step_sync_progress rv l s s' b T :
  step rv l s = Some s' ->
  is_call l = false ->
  submits_within b l ->
  single_ok b s ->
  sync_progress T s -> sync_progress T s'.
Proof.
  intros H Hl Hb (Hn & Hd0 & Hpq & Hb0 & Hqb & Hseq & t & rest & Hts & Hrest & Hv & Ha) HT.
  destruct s as [[rn q p d mtx lv nt tr ts] [pc stk dq dp] sg sr r kc f].
  cbn in Hn, Hd0, Hpq, Hqb, Hseq, Hts, Hv, Ha. subst nt ts.
  unfold sync_progress in *. cbn in HT.
  destruct l as [[|i]|[|i]|[|i]|count|j|a| | |]; try discriminate Hl.
  all: step_inv H; try contradiction.
  all: try match goal with E : Some _ = Some _ |- _ => injection E as <- end.
  all: try match goal with
           | Hr : Forall _ ?l, E : ?l !! _ = Some ?m, E' : t_pc ?m = _ |- _ =>
               rewrite (Forall_lookup_1 _ _ _ _ Hr E) in E'; discriminate E'
           end.
  all: unfold view_ok in Hv.
  all: repeat match goal with
              | E : t_pc ?m = _, H : context [t_pc ?m] |- _ => rewrite E in H
              end.
  all: try apply Z.ltb_lt in Heqb; try apply Z.ltb_ge in Heqb.
  all: repeat (rewrite wrap_small by lia).
  all: try (subst pc; cbn in *; intuition lia).
  all: try (destruct pc; cbn in *; intuition lia).
  all: subst pc; cbn in HT; destruct HT; congruence.
Qed.

Lemma run_sync_progress rv T sch : forall s s' b,
  run rv sch s = Some s' ->
  forallb (fun l => negb (is_call l)) sch = true ->
  in_reset s = false ->
  Forall (fun count => 0 <= count) (submit_counts sch) ->
  sum_counts (submit_counts sch) <= b ->
  single_ok b s ->
  sync_progress T s -> sync_progress T s'.
Proof.
  induction sch as [|l sch IH]; intros s s' b Hrun Hnc Hin Hpos Hsum HI HT.
  - cbn in *. congruence.
  - cbn [run] in Hrun. destruct (step rv l s) as [s1|] eqn:E; [|discriminate].
    cbn in Hnc. apply andb_prop in Hnc as [Hl Hnc]. apply negb_true_iff in Hl.
    assert (Hr : calls_reset [l] = false) by (destruct l; try discriminate; reflexivity).
    destruct (step_submit _ _ _ _ E Hin Hr) as (Hin1 & _).
    assert (Hb : submits_within b l /\
                 Forall (fun count => 0 <= count) (submit_counts sch) /\
                 sum_counts (submit_counts sch) <= budget_after b l).
    { destruct l; cbn in *; try (repeat split; auto; lia).
      apply Forall_cons in Hpos as [? ?].
      fold (sum_counts (submit_counts sch)) in *.
      match goal with H : Forall _ _ |- _ => pose proof (sum_counts_nonneg _ H) end.
      repeat split; auto; lia. }
    destruct Hb as (Hb & Hpos' & Hsum').
    apply (IH s1 s' _ Hrun Hnc Hin1 Hpos' Hsum').
    + apply (step_single_ok rv l s s1 b E Hin Hr Hb HI).
    + apply (step_sync_progress rv l s s1 b T E Hl Hb HI HT).
Qed.

Lemma no_call_no_reset sch :
  forallb (fun l => negb (is_call l)) sch = true -> calls_reset sch = false.
Proof.
  unfold calls_reset. induction sch as [|l sch IH]; cbn; [reflexivity|].
  intros H. apply andb_prop in H as [Hl H]. rewrite (IH H).
  destruct l; try reflexivity. discriminate.
Qed.

Lemma count_occ_first_items n idx :
  1 <= idx <= Z.of_nat n -> count_occ Z.eq_dec (first_items n) idx = 1%nat.
Proof.
  intros Hidx. apply NoDup_count_occ'.
  - unfold first_items. apply Finite.Injective_map_NoDup; [|apply seq_NoDup].
    intros x y. apply Nat2Z.inj.
  - unfold first_items. apply in_map_iff. exists (Z.to_nat idx). split; [lia|].
    apply in_seq. lia.
Qed.

Lemma submit_counts_app sch1 sch2 :
  submit_counts (sch1 ++ sch2) = submit_counts sch1 ++ submit_counts sch2.
Proof.
  induction sch1 as [|l sch1 IH]; cbn; [reflexivity|].
  destruct l; cbn; rewrite ?IH; reflexivity.
Qed.

Lemma sum_counts_app c1 c2 : sum_counts (c1 ++ c2) = sum_counts c1 + sum_counts c2.
Proof.
  induction c1 as [|c c1 IH]; cbn; [reflexivity|].
  fold (sum_counts (c1 ++ c2)) (sum_counts c1). lia.
Qed.

Lemma single_ok_counters b s :
  single_ok b s ->
  0 <= processed (mule s) <= processing (mule s) /\
  processing (mule s) <= queued (mule s) /\
  processed (mule s) <= Z.of_nat (length (kernel_calls s)) /\
  map snd (kernel_calls s) = first_items (length (kernel_calls s)).
Proof.
  intros (_ & Hd0 & Hpq & _ & _ & Hseq & t & rest & _ & _ & Hv & _).
  unfold view_ok in Hv. destruct (t_pc t); intuition lia.
Qed.

(** X2. With one worker, without mule_reset and with fewer than 2^64 items
    submitted in all, the counters are ordered as the data model says,
    and the items handed to the kernel are 1, 2, 3, ... in this order. *)
Theorem single_worker_counter_order rv sch s :
  run rv sch (mule_init 1) = Some s ->
  calls_reset sch = false ->
  Forall (fun count => 0 <= count) (submit_counts sch) ->
  sum_counts (submit_counts sch) < size_modulus ->
  0 <= processed (mule s) <= processing (mule s) /\
  processing (mule s) <= queued (mule s) /\
  map snd (kernel_calls s) = first_items (length (kernel_calls s)).
Proof.
  intros Hrun Hsch Hpos Hsum.
  pose proof (sum_counts_nonneg _ Hpos) as H0.
  destruct (run_single_ok rv sch _ _ _ Hrun eq_refl Hsch Hpos (Z.le_refl _)
              (single_ok_init _ (conj H0 Hsum))) as [_ HI].
  destruct (single_ok_counters _ _ HI) as (H1 & H2 & _ & H3). auto.
Qed.

Lemma single_worker_counter_order_witness :
  0 <= processed (mule drained_final) <= processing (mule drained_final) /\
  processing (mule drained_final) <= queued (mule drained_final) /\
  map snd (kernel_calls drained_final) = first_items (length (kernel_calls drained_final)).
Proof.
  apply (single_worker_counter_order mumule_h
           (shutdown_with_work_queued ++ drain_after_shutdown) drained_final).
  - vm_compute; reflexivity.
  - reflexivity.
  - repeat constructor. discriminate.
  - vm_compute; reflexivity.
Defined.

(** X3. With one worker, without mule_reset and with fewer than 2^64 items
    submitted in all: when a mule_synchronize that was called after [T]
    items had been submitted returns, each of the items 1 .. [T] has been
    handed to the kernel exactly once. *)
Theorem single_worker_exactly_once rv sch1 sch2 s1 s2 :
  run rv sch1 (mule_init 1) = Some s1 ->
  calls_reset sch1 = false ->
  run rv (L_call A_synchronize :: sch2) s1 = Some s2 ->
  forallb (fun l => negb (is_call l)) sch2 = true ->
  d_pc (disp s2) = D_idle ->
  Forall (fun count => 0 <= count) (submit_counts (sch1 ++ sch2)) ->
  sum_counts (submit_counts (sch1 ++ sch2)) < size_modulus ->
  forall idx,
    1 <= idx <= sum_counts (submit_counts sch1) ->
    times_executed idx s2 = 1%nat.
Proof.
  intros Hrun1 Hsch1 Hrun2 Hnc Hidle Hpos Hsum idx Hidx.
  rewrite submit_counts_app in Hpos, Hsum. rewrite sum_counts_app in Hsum.
  apply Forall_app in Hpos as [Hpos1 Hpos2].
  pose proof (sum_counts_nonneg _ Hpos1) as H1.
  pose proof (sum_counts_nonneg _ Hpos2) as H2.
  set (T := sum_counts (submit_counts sch1)) in *.
  set (T2 := sum_counts (submit_counts sch2)) in *.
  (* up to the call *)
  assert (HB : 0 <= T + T2 < size_modulus) by lia.
  destruct (run_single_ok rv sch1 _ _ (T + T2) Hrun1 eq_refl Hsch1 Hpos1
              ltac:(fold T; lia) (single_ok_init _ HB)) as [Hin1 HI1].
  fold T in HI1. replace (T + T2 - T) with T2 in HI1 by lia.
  assert (Hq1 : queued (mule s1) = T).
  { destruct (run_submit rv sch1 _ _ Hrun1 eq_refl Hsch1) as (_ & Hq & _).
    rewrite Hq. cbn [mule_init mule queued].
    rewrite fold_wrap_sum by (split; [lia | reflexivity]).
    apply wrap_small. fold T. lia. }
  (* the call *)
  cbn [run] in Hrun2.
  destruct (step rv (L_call A_synchronize) s1) as [s1'|] eqn:Ecall; [|discriminate].
  assert (Hr : calls_reset [L_call A_synchronize] = false) by reflexivity.
  destruct (step_submit _ _ _ _ Ecall Hin1 Hr) as (Hin1' & Hq1' & _).
  pose proof (step_single_ok rv _ _ _ T2 Ecall Hin1 Hr I HI1) as HI1'.
  cbn [budget_after] in HI1'.
  assert (HT : sync_progress T s1').
  { unfold step, call in Ecall. destruct (fault s1); [discriminate|].
    destruct (d_pc (disp s1)); try discriminate.
    destruct (d_stack (disp s1)); try discriminate.
    injection Ecall as <-. unfold sync_progress. cbn. split; [reflexivity|].
    rewrite Hq1. reflexivity. }
  (* inside mule_synchronize and after *)
  pose proof (run_sync_progress rv T sch2 _ _ T2 Hrun2 Hnc Hin1' Hpos2
                ltac:(fold T2; lia) HI1' HT) as HT2.
  destruct (run_single_ok rv sch2 _ _ T2 Hrun2 Hin1' (no_call_no_reset _ Hnc) Hpos2
              ltac:(fold T2; lia) HI1') as [_ HI2].
  destruct (single_ok_counters _ _ HI2) as (_ & _ & Hdc & Hseq).
  unfold sync_progress in HT2. rewrite Hidle in HT2.
  unfold times_executed. rewrite Hseq. apply count_occ_first_items. lia.
Qed.

Lemma single_worker_exactly_once_witness :
  run mumule_h one_worker_one_item (mule_init 1) = Some worked_one /\
  run mumule_h synchronize_alone worked_one = Some synchronized_one /\
  forall idx, 1 <= idx <= 1 -> times_executed idx synchronized_one = 1%nat.
Proof.
  assert (E1 : run mumule_h one_worker_one_item (mule_init 1) = Some worked_one)
    by (vm_compute; reflexivity).
  assert (E2 : run mumule_h synchronize_alone worked_one = Some synchronized_one)
    by (vm_compute; reflexivity).
  split; [exact E1|]. split; [exact E2|].
  apply (single_worker_exactly_once mumule_h one_worker_one_item (repeat L_caller 6)
           worked_one synchronized_one E1 eq_refl E2 eq_refl eq_refl).
  - repeat constructor. discriminate.
  - vm_compute; reflexivity.
Defined.

(** ** Slots, mutex and thread count *)

(** Case analysis on a transition as [step_inv] does it, with the bounds
    tests of the loops kept as inequalities. *)
Ltac step_cases H :=
  unfold_steps; unfold_setters;
  repeat (cbn [option_map] in H; break_match H);
  cbn [option_map] in H; try discriminate H;
  try (injection H as <-); cbn -[Nat.ltb] in *;
  repeat match goal with
         | E : (_ <? _)%nat = true |- _ => apply Nat.ltb_lt in E
         | E : (_ <? _)%nat = false |- _ => apply Nat.ltb_ge in E
         end.

Lemma lookup_map_wake (l : list mu_thread) j u :
  map wake_thread l !! j = Some u -> exists t, l !! j = Some t /\ u = wake_thread t.
Proof.
  change (map wake_thread l) with (wake_thread <$> l).
  rewrite list_lookup_fmap. destruct (l !! j) as [t|]; cbn; [|discriminate].
  intros [= <-]. eauto.
Qed.

(** The thread a lookup in an updated array returns: the new one at the
    updated slot, the old one elsewhere. *)
Ltac slot_cases :=
  match goal with
  | H : <[?i := _]> _ !! ?j = Some _ |- _ =>
      destruct (decide (j = i)) as [->|?];
      [ rewrite list_lookup_insert_eq in H by (eapply lookup_lt_Some; eauto);
        injection H as <-
      | rewrite list_lookup_insert_ne in H by congruence ]
  | H : map wake_thread _ !! _ = Some _ |- _ =>
      apply lookup_map_wake in H as (? & H & ->)
  end.

(** What two per-slot invariants say of the threads that were looked up. *)
Ltac use_lookups H1 H2 :=
  repeat match goal with
  | H : threads (mule _) !! _ = Some _ |- _ =>
      pose proof (H1 _ _ H); pose proof (H2 _ _ H); revert H
  end; intros.

Ltac rewrite_eqns_in_hyps :=
  repeat match goal with
         | E : ?x = _, H : context [match ?x with _ => _ end] |- _ => rewrite E in H
         end.

Ltac rewrite_pcs :=
  repeat match goal with
         | E : t_pc ?m = _, H : context [t_pc ?m] |- _ => rewrite E in H
         end.

Ltac decide_tests :=
  repeat match goal with
         | E : (_ =? _) = true |- _ => apply Z.eqb_eq in E
         | E : (_ =? _) = false |- _ => apply Z.eqb_neq in E
         | E : (_ <? _) = true |- _ => apply Z.ltb_lt in E
         | E : (_ <? _) = false |- _ => apply Z.ltb_ge in E
         end.

Ltac finish := intuition (auto; congruence || lia).

Lemma wake_thread_pc_none t : t_pc (wake_thread t) = T_none <-> t_pc t = T_none.
Proof. unfold wake_thread. destruct (t_pc t) eqn:E; cbn; rewrite ?E; split; congruence. Qed.

Lemma wake_thread_idx t : t_idx (wake_thread t) = t_idx t.
Proof. unfold wake_thread. destruct (t_pc t); reflexivity. Qed.

Lemma wake_thread_locked t : thread_locked (t_pc (wake_thread t)) = thread_locked (t_pc t).
Proof. unfold wake_thread. destruct (t_pc t) eqn:E; cbn; rewrite ?E; reflexivity. Qed.

Lemma active_wake_thread t : active (wake_thread t) = active t.
Proof. unfold active, wake_thread. destruct (t_pc t) eqn:E; cbn; rewrite ?E; reflexivity. Qed.

Lemma length_flat_map_active ts : (length (flat_map active ts) <= length ts)%nat.
Proof.
  induction ts as [|t ts IH]; cbn; [lia|]. rewrite length_app.
  unfold active at 1. destruct (t_pc t); cbn; lia.
Qed.

Lemma flat_map_none {B} (f : mu_thread -> list B) ts :
  (forall t, t_pc t = T_none -> f t = []) ->
  Forall (fun t => t_pc t = T_none) ts -> flat_map f ts = [].
Proof.
  intros Hf. induction 1 as [|t ts Ht _ IH]; cbn; [reflexivity|].
  rewrite IH, (Hf t Ht). reflexivity.
Qed.

Lemma step_slots_ok rv l s s' : step rv l s = Some s' -> slots_ok s -> slots_ok s'.
Proof.
  intros H (Hrn & Hidx & Hslot). unfold slots_ok, caller_ok, idx_filled, slot_ok in *.
  step_cases H.
  all: (split; [|split; intros j u Hu; try slot_cases]).
  all: use_lookups Hidx Hslot; clear Hidx Hslot.
  all: rewrite ?wake_thread_pc_none, ?wake_thread_idx in *.
  all: try rewrite_eqns.
  all: rewrite_eqns_in_hyps.
  all: cbn in *.
  all: try solve [finish].
  all: try solve [destruct (d_pc (disp s)); cbn in *; finish].
  all: try solve [destruct a; cbn in *; finish].
  apply negb_true_iff in Heqb. intuition congruence.
Qed.

Lemma step_mutex_ok rv l s s' :
  step rv l s = Some s' -> slots_ok s -> mutex_ok s -> mutex_ok s'.
Proof.
  intros H (Hc & _ & Hslot) (Hcl & Hex & Hth). unfold mutex_ok, caller_ok, slot_ok in *.
  step_cases H.
  all: rewrite ?length_insert, ?length_map.
  all: (split; [|split; [try assumption; try discriminate;
                         try (intros ? [= <-]; eapply lookup_lt_Some; eassumption)
                        |intros j u Hu; try slot_cases]]).
  all: use_lookups Hth Hslot; clear Hth Hslot.
  all: rewrite ?wake_thread_locked in *.
  all: try rewrite_eqns.
  all: rewrite_eqns_in_hyps.
  all: rewrite_pcs.
  all: cbn in *.
  all: try solve [finish].
  all: try solve [destruct (caller_locked (d_pc (disp s))); finish].
  all: try solve [destruct (thread_locked (t_pc u)); finish].
  all: try solve [destruct (d_pc (disp s)); cbn in *; finish].
  all: try solve [destruct a; cbn in *; finish].
  destruct (t_pc m); cbn in *; try exact H; exfalso.
  all: assert (i < i)%nat by (apply H0; discriminate); lia.
Qed.

Lemma step_census_ok rv l s s' :
  step rv l s = Some s' -> slots_ok s -> census_ok s -> census_ok s'.
Proof.
  intros H (Hc & _ & Hslot) (Hlen & Hrun & Hk). unfold census_ok, caller_ok, slot_ok in *.
  assert (Hle : forall ts, length ts = length (threads (mule s)) ->
                           Z.of_nat (length (flat_map active ts)) < size_modulus).
  { intros ts Hts. pose proof (length_flat_map_active ts) as Hle.
    rewrite Hts, Hlen in Hle. unfold mumule_max_threads in Hle.
    assert (8 < size_modulus) by reflexivity. lia. }
  step_cases H.
  all: rewrite ?length_insert, ?length_map, ?(flat_map_wake_thread active)
         by apply active_wake_thread.
  all: try (repeat split; assumption).
  all: match goal with
       | E : threads (mule ?s) !! ?i = Some ?m
         |- context [<[?i := ?t']> (threads (mule ?s))] =>
           destruct (flat_map_insert active _ i m t' E) as (l1 & l2 & F1 & F2);
           pose proof (Hslot _ _ E);
           pose proof (Hle _ (length_insert (threads (mule s)) i t'))
       end.
  all: rewrite ?F2 in *; rewrite F1 in Hrun; clear F1 F2 Hle.
  all: unfold active in *; cbn in *.
  all: rewrite_pcs.
  all: rewrite ?length_app in *; cbn in *; rewrite ?length_app in *.
  all: try (repeat split; try assumption; lia).
  all: try (rewrite wrap_small by lia; repeat split; try assumption; lia).
  - repeat split; try assumption. apply Forall_app. split; [assumption|].
    repeat constructor. cbn. destruct H as (? & -> & _); [discriminate|assumption].
  - destruct (t_pc m); cbn in *; try (repeat split; try assumption; lia).
    all: exfalso; assert (i < i)%nat by (apply H; discriminate); lia.
Qed.

Lemma step_num_threads rv l s s' :
  step rv l s = Some s' -> num_threads (mule s') = num_threads (mule s).
Proof. intros H. step_cases H; reflexivity. Qed.

Lemma pool_ok_init n : pool_ok n (mule_init n).
Proof.
  split; [reflexivity|]. split; [|split].
  - split; [reflexivity|]. split.
    + intros j t _. exact I.
    + intros j t Ht Hne.
      change (threads (mule (mule_init n))) with (replicate mumule_max_threads thread_zero) in Ht.
      apply lookup_replicate in Ht as [-> _].
      contradiction Hne. reflexivity.
  - split; [cbn; split; discriminate|]. split; [discriminate|].
    intros j t Ht.
    change (threads (mule (mule_init n))) with (replicate mumule_max_threads thread_zero) in Ht.
    apply lookup_replicate in Ht as [-> _].
    cbn. split; discriminate.
  - split; [reflexivity|]. split; [reflexivity|]. constructor.
Qed.

Lemma step_pool_ok rv n l s s' :
  step rv l s = Some s' -> pool_ok n s -> pool_ok n s'.
Proof.
  intros H (Hn & Hs & Hm & Hc). split; [|split; [|split]].
  - rewrite (step_num_threads _ _ _ _ H). assumption.
  - eapply step_slots_ok; eauto.
  - eapply step_mutex_ok; eauto.
  - eapply step_census_ok; eauto.
Qed.

Lemma run_pool_ok rv n sch : forall s s',
  run rv sch s = Some s' -> pool_ok n s -> pool_ok n s'.
Proof.
  induction sch as [|l sch IH]; intros s s' Hrun HI; cbn in Hrun.
  - congruence.
  - destruct (step rv l s) as [s1|] eqn:E; [|discriminate].
    eauto using step_pool_ok.
Qed.

Lemma reachable_pool_ok rv n s : reachable rv n s -> pool_ok n s.
Proof. intros [sch Hrun]. eapply run_pool_ok; eauto using pool_ok_init. Qed.

(** With [running] false and the caller outside mule_launch and
    mule_shutdown, no slot holds a worker. *)
Lemma no_workers s :
  slots_ok s -> running (mule s) = false ->
  d_pc (disp s) = D_idle \/ d_pc (disp s) = D_destroy_free ->
  Forall (fun t => t_pc t = T_none) (threads (mule s)).
Proof.
  intros (_ & _ & Hslot) Hrn Hpc. apply Forall_lookup_2. intros j t Ht.
  destruct (t_pc t) eqn:Et; try reflexivity; exfalso.
  all: destruct (Hslot j t Ht) as (_ & _ & Ha); [rewrite Et; discriminate|].
  all: destruct Hpc as [E|E]; rewrite E in Ha; cbn in Ha; congruence.
Qed.

Lemma active_bound ts : forall n,
  (forall j t, ts !! j = Some t -> t_pc t <> T_none -> (j < n)%nat) ->
  (length (flat_map active ts) <= n)%nat.
Proof.
  induction ts as [|t ts IH]; intros n H; cbn; [lia|]. rewrite length_app.
  destruct n as [|n].
  - assert (Ht : t_pc t = T_none).
    { destruct (t_pc t) eqn:E; try reflexivity.
      all: exfalso.
      all: assert (0 < 0)%nat by (apply (H 0%nat t eq_refl); rewrite E; discriminate).
      all: lia. }
    unfold active at 1. rewrite Ht. cbn.
    apply (IH 0%nat). intros j u Hu Hne. pose proof (H (S j) u Hu Hne). lia.
  - assert (length (active t) <= 1)%nat by (unfold active; destruct (t_pc t); cbn; lia).
    assert (length (flat_map active ts) <= n)%nat; [|lia].
    apply IH. intros j u Hu Hne. pose proof (H (S j) u Hu Hne). lia.
Qed.

Lemma stopped_pool n s :
  pool_ok n s -> running (mule s) = false ->
  d_pc (disp s) = D_idle \/ d_pc (disp s) = D_destroy_free ->
  Forall (fun t => t_pc t = T_none) (threads (mule s)) /\
  threads_running (mule s) = 0 /\ mutex (mule s) = None.
Proof.
  intros (_ & Hs & (Hcl & Hex & Hth) & (_ & Hrun & _)) Hrn Hpc.
  pose proof (no_workers s Hs Hrn Hpc) as Hnone. split; [assumption|]. split.
  - rewrite Hrun, (flat_map_none active); [reflexivity| |assumption].
    intros t Ht. unfold active. rewrite Ht. reflexivity.
  - destruct (mutex (mule s)) as [[|j]|] eqn:E; [| |reflexivity]; exfalso.
    + destruct Hcl as [_ Hcl]. specialize (Hcl eq_refl).
      destruct Hpc as [Ep|Ep]; rewrite Ep in Hcl; discriminate.
    + destruct (lookup_lt_is_Some_2 _ _ (Hex j eq_refl)) as [t Ht].
      destruct (Hth j t Ht) as [_ Hl]. specialize (Hl eq_refl).
      rewrite (Forall_lookup_1 _ _ _ _ Hnone Ht) in Hl. discriminate.
Qed.

Lemma step_in_bounds rv n l s s' :
  step rv l s = Some s' -> pool_ok n s -> (n <= mumule_max_threads)%nat ->
  fault s' <> Some F_out_of_bounds.
Proof.
  intros H (Hn & _ & _ & Hlen & _) Hle.
  step_cases H; try congruence.
  all: exfalso.
  all: match goal with
       | E : threads (mule _) !! _ = None |- _ => apply lookup_ge_None in E
       end; lia.
Qed.



(** X10. [threads_running] is the number of workers between their
    increment of line 103 and their decrement of line 145, whatever the
    interleaving; it exceeds neither [num_threads] nor
    mumule_max_threads. *)
Theorem threads_running_counts_workers rv n s :
  reachable rv n s ->
  threads_running (mule s) = Z.of_nat (length (flat_map active (threads (mule s)))) /\
  threads_running (mule s) <= Z.of_nat n /\
  threads_running (mule s) <= Z.of_nat mumule_max_threads.
Proof.
  intros Hr.
  destruct (reachable_pool_ok _ _ _ Hr) as (Hn & (_ & _ & Hslot) & _ & Hlen & Hrun & _).
  split; [assumption|]. rewrite Hrun. split.
  - apply inj_le. apply active_bound. intros j t Ht Hne.
    destruct (Hslot j t Ht Hne) as (Hj & _). lia.
  - apply inj_le. rewrite <- Hlen. apply length_flat_map_active.
Qed.

Lemma threads_running_counts_workers_witness :
  reachable mumule_h 2 worker_holds_mutex /\
  threads_running (mule worker_holds_mutex) = 1 /\
  length (flat_map active (threads (mule worker_holds_mutex))) = 1%nat /\
  threads_running (mule worker_holds_mutex) =
    Z.of_nat (length (flat_map active (threads (mule worker_holds_mutex)))) /\
  threads_running (mule worker_holds_mutex) <= 2 /\
  threads_running (mule worker_holds_mutex) <= 8.
Proof.
  assert (Hr : reachable mumule_h 2 worker_holds_mutex)
    by (exists (launch_two ++ repeat (L_thread 0) 4); vm_compute; reflexivity).
  split; [exact Hr|]. split; [reflexivity|]. split; [reflexivity|].
  exact (threads_running_counts_workers mumule_h 2 worker_holds_mutex Hr).
Defined.

(** X11. The mutex is held by the caller exactly while the caller is
    between its mtx_lock and the matching release in mule_synchronize
    (lines 187-207, the timed wait excepted) or mule_shutdown (lines
    232-234), and by worker [j] exactly while worker [j] is between its
    mtx_lock of line 113 and the release of line 115, 119 or 120.  So no
    two of them are in such a section at once, every mtx_unlock and every
    wait is executed by the holder, and no function returns with the
    mutex held. *)
Theorem mutex_owner_in_critical_section rv n s :
  reachable rv n s ->
  (caller_locked (d_pc (disp s)) = true <-> mutex (mule s) = Some O_caller) /\
  (forall j t, threads (mule s) !! j = Some t ->
     (thread_locked (t_pc t) = true <-> mutex (mule s) = Some (O_thread j))) /\
  (forall i j ti tj,
     threads (mule s) !! i = Some ti -> threads (mule s) !! j = Some tj ->
     thread_locked (t_pc ti) = true -> thread_locked (t_pc tj) = true -> i = j).
Proof.
  intros Hr. destruct (reachable_pool_ok _ _ _ Hr) as (_ & _ & (Hcl & _ & Hth) & _).
  split; [assumption|]. split; [assumption|].
  intros i j ti tj Hi Hj Li Lj.
  apply (Hth i ti Hi) in Li. apply (Hth j tj Hj) in Lj. congruence.
Qed.

Lemma mutex_owner_in_critical_section_witness :
  reachable mumule_h 2 worker_holds_mutex /\
  mutex (mule worker_holds_mutex) = Some (O_thread 0) /\
  (caller_locked (d_pc (disp worker_holds_mutex)) = true <->
   mutex (mule worker_holds_mutex) = Some O_caller) /\
  (forall j t, threads (mule worker_holds_mutex) !! j = Some t ->
     (thread_locked (t_pc t) = true <->
      mutex (mule worker_holds_mutex) = Some (O_thread j))) /\
  (forall i j ti tj,
     threads (mule worker_holds_mutex) !! i = Some ti ->
     threads (mule worker_holds_mutex) !! j = Some tj ->
     thread_locked (t_pc ti) = true -> thread_locked (t_pc tj) = true -> i = j).
Proof.
  assert (Hr : reachable mumule_h 2 worker_holds_mutex)
    by (exists (launch_two ++ repeat (L_thread 0) 4); vm_compute; reflexivity).
  split; [exact Hr|]. split; [reflexivity|].
  exact (mutex_owner_in_critical_section mumule_h 2 worker_holds_mutex Hr).
Defined.

(** X12. Whenever the caller is between two calls and [running] is
    false, that is before the first mule_launch and after every
    mule_shutdown, no worker exists, [threads_running] is 0 and the mutex
    is free: mule_shutdown returns only after it has joined every worker
    mule_launch created. *)
Theorem stopped_pool_has_no_workers rv n s :
  reachable rv n s ->
  d_pc (disp s) = D_idle -> running (mule s) = false ->
  Forall (fun t => t_pc t = T_none) (threads (mule s)) /\
  threads_running (mule s) = 0 /\ mutex (mule s) = None.
Proof.
  intros Hr Hpc Hrn. apply (stopped_pool n); [|assumption|left; assumption].
  eapply reachable_pool_ok; eassumption.
Qed.

Lemma stopped_pool_has_no_workers_witness :
  reachable mumule_h 2 readme_final /\
  Forall (fun t => t_pc t = T_none) (threads (mule readme_final)) /\
  threads_running (mule readme_final) = 0 /\ mutex (mule readme_final) = None.
Proof.
  assert (Hr : reachable mumule_h 2 readme_final)
    by (exists readme_schedule; vm_compute; reflexivity).
  split; [exact Hr|].
  exact (stopped_pool_has_no_workers mumule_h 2 readme_final Hr eq_refl eq_refl).
Defined.

(** X13. When mule_destroy reaches its mtx_destroy and cnd_destroy (lines
    250-252), [running] is false, no worker exists, so none waits on a
    condition, and nobody holds the mutex. *)
Theorem mule_destroy_finds_pool_stopped rv n s :
  reachable rv n s ->
  d_pc (disp s) = D_destroy_free ->
  running (mule s) = false /\
  Forall (fun t => t_pc t = T_none) (threads (mule s)) /\
  threads_running (mule s) = 0 /\ mutex (mule s) = None.
Proof.
  intros Hr Hpc. pose proof (reachable_pool_ok _ _ _ Hr) as Hok.
  assert (Hrn : running (mule s) = false).
  { destruct Hok as (_ & (Hc & _) & _). unfold caller_ok in Hc.
    rewrite Hpc in Hc. apply Hc. }
  split; [assumption|]. apply (stopped_pool n); [assumption|assumption|right; assumption].
Qed.

Lemma mule_destroy_finds_pool_stopped_witness :
  reachable mumule_h 2 readme_before_free /\
  running (mule readme_before_free) = false /\
  Forall (fun t => t_pc t = T_none) (threads (mule readme_before_free)) /\
  threads_running (mule readme_before_free) = 0 /\
  mutex (mule readme_before_free) = None.
Proof.
  assert (Hr : reachable mumule_h 2 readme_before_free)
    by (exists (removelast readme_schedule); vm_compute; reflexivity).
  split; [exact Hr|].
  exact (mule_destroy_finds_pool_stopped mumule_h 2 readme_before_free Hr eq_refl).
Defined.

(** X14. With a thread count of at most mumule_max_threads, the loops of
    mule_launch (lines 165-168, 172-174) and of mule_shutdown (lines
    238-241) stay within the [threads] array, in every run. *)
Theorem threads_array_in_bounds rv n s :
  reachable rv n s -> (n <= mumule_max_threads)%nat ->
  length (threads (mule s)) = mumule_max_threads /\
  fault s <> Some F_out_of_bounds.
Proof.
  intros [sch Hrun] Hle.
  assert (H : pool_ok n s /\ fault s <> Some F_out_of_bounds).
  { apply (run_invariant rv (fun _ => true)
             (fun s => pool_ok n s /\ fault s <> Some F_out_of_bounds))
      with (sch := sch) (s := mule_init n).
    - intros l s0 s1 _ Hstep [Hok _]. split.
      + eapply step_pool_ok; eauto.
      + eapply step_in_bounds; eauto.
    - apply forallb_forall. reflexivity.
    - assumption.
    - split; [apply pool_ok_init | discriminate]. }
  destruct H as [(_ & _ & _ & Hlen & _) Hf]. auto.
Qed.

Lemma threads_array_in_bounds_witness :
  reachable mumule_h 2 readme_final /\ (2 <= mumule_max_threads)%nat /\
  length (threads (mule readme_final)) = mumule_max_threads /\
  fault readme_final <> Some F_out_of_bounds.
Proof.
  assert (Hr : reachable mumule_h 2 readme_final)
    by (exists readme_schedule; vm_compute; reflexivity).
  assert (Hle : (2 <= mumule_max_threads)%nat) by (unfold mumule_max_threads; lia).
  split; [exact Hr|]. split; [exact Hle|].
  exact (threads_array_in_bounds mumule_h 2 readme_final Hr Hle).
Defined.

(** ** Batches *)

Lemma batch_view_wake Q p t : batch_view Q p (wake_thread t) <-> batch_view Q p t.
Proof. unfold batch_view, wake_thread. destruct (t_pc t) eqn:E; cbn; rewrite ?E; reflexivity. Qed.

Lemma step_batch_views rv l s s' Q :
  step rv l s = Some s' -> batch_label l = true -> in_reset s = false ->
  slots_ok s -> batch_views Q s -> batch_views Q s'.
Proof.
  intros H Hl Hin (Hc & _ & Hslot) (Hq & Hp & HQ & Hdr & Hv).
  unfold batch_views, caller_ok, slot_ok, in_reset, drained in *.
  apply orb_false_iff in Hin as [Hst Hpc].
  step_cases H; try discriminate.
  all: (split; [|split; [|split; [|split; [|intros j u Hu; try slot_cases]]]]).
  all: use_lookups Hv Hslot; clear Hv Hslot.
  all: rewrite ?batch_view_wake in *.
  all: try rewrite_eqns.
  all: rewrite_eqns_in_hyps.
  all: unfold batch_view in *.
  all: rewrite_pcs.
  all: cbn in *.
  all: try assumption; try reflexivity; try lia.
  all: try solve [finish].
  all: decide_tests.
  all: try (rewrite wrap_small by lia).
  all: try solve [finish].
  all: try solve [split_goal_matches; finish].
  all: try solve [destruct a; cbn in *; finish].
  all: match goal with
       | H : In _ (_ ++ _) |- _ => apply in_app_or in H as [H|[H|[]]]; [|injection H as ->]
       end.
  all: repeat match goal with
              | E : d_stack ?d = _ , H : context [d_stack ?d] |- _ => rewrite E in H
              end.
  all: try solve [finish].
  all: destruct i; [exfalso; lia | assumption].
Qed.

Lemma step_batch_counts rv l s s' Q :
  step rv l s = Some s' -> batch_label l = true -> in_reset s = false ->
  slots_ok s -> batch_views Q s -> batch_counts Q s -> batch_counts Q s'.
Proof.
  intros H Hl Hin (Hc & _ & Hslot) (Hq & Hp & HQ & _ & Hv)
         (Hp0 & Hfl & Hlen & Hnd & Hall & Hsy & Hret).
  unfold batch_counts, batch_sync, claimed, caller_ok, slot_ok, in_reset in *.
  apply orb_false_iff in Hin as [Hst Hpc].
  step_cases H; try discriminate.
  all: rewrite ?(flat_map_wake_thread holds), ?(flat_map_wake_thread in_flight)
         by (apply holds_wake_thread || apply in_flight_wake_thread).
  all: try (repeat split; try assumption; lia).
  all: try rewrite_eqns.
  all: rewrite_eqns_in_hyps.
  all: decide_tests.
  all: try solve [repeat split; try assumption; try lia; finish].
  all: try solve [destruct a; cbn in *; repeat split; try assumption; try lia; finish].
  all: try match goal with
       | E : threads (mule _) !! _ = Some _ |- _ =>
           pose proof (Hv _ _ E); pose proof (Hslot _ _ E)
       end; clear Hv Hslot.
  all: try (use_thread_lookup;
            rewrite ?E2, ?E3, ?F2; rewrite E1 in Hnd, Hall, Hlen; rewrite F1 in Hfl;
            clear E1 E2 E3 F1 F2).
  all: unfold holds, in_flight, batch_view in *; cbn in *.
  all: rewrite_pcs.
  all: rewrite ?length_app in *; cbn in *; rewrite ?length_app in *.
  all: try (repeat split; try assumption; lia).
  all: try (rewrite wrap_small by lia; repeat split; try assumption; lia).
  all: try (rewrite wrap_small by lia).
  all: try solve [repeat split; try assumption; try lia; split_goal_matches;
                  finish].
  1: { rewrite <- Heqb in *.
       repeat split; try assumption; try lia.
       - apply NoDup_cons. split; [|assumption].
         intros Hx. rewrite Forall_forall in Hall. apply Hall in Hx. lia.
       - constructor; [lia|]. eapply Forall_impl; [exact Hall|]. cbn. intros; lia. }
  all: try (repeat split; try assumption; try lia;
            intros Hn; apply in_app_or in Hn as [Hn|[Hn|[]]]; [auto|injection Hn as ->];
            repeat match goal with
                   | E : d_stack ?d = _ , H : context [d_stack ?d] |- _ => rewrite E in H
                   end;
            solve [finish]).
  destruct (t_pc m); cbn in *; try (repeat split; try assumption; lia).
  all: exfalso; assert (i < i)%nat by (apply H0; discriminate); lia.
Qed.

Lemma step_quiet rv l s s' :
  negb (is_call l) = true -> step rv l s = Some s' -> quiet s -> quiet s'.
Proof.
  intros Hl H (Hpc & Hst & Hnone & Hp & Hd & Hk & Hr). unfold quiet in *.
  step_cases H; try discriminate; try congruence.
  all: try (pose proof (Forall_lookup_1 _ _ _ _ Hnone ltac:(eassumption)); cbn in *; congruence).
  all: repeat split; try assumption.
  all: apply Forall_map; eapply Forall_impl; [exact Hnone|].
  all: intros t Ht; cbn; unfold wake_thread; rewrite Ht; exact Ht.
Qed.

Lemma quiet_init n : quiet (mule_init n).
Proof.
  repeat split.
  change (threads (mule (mule_init n))) with (replicate mumule_max_threads thread_zero).
  apply Forall_replicate. reflexivity.
Qed.

Lemma batch_start s :
  quiet s -> 0 <= queued (mule s) < size_modulus ->
  in_reset s = false /\
  batch_views (queued (mule s)) s /\ batch_counts (queued (mule s)) s.
Proof.
  intros (Hpc & Hst & Hnone & Hp & Hd & Hk & Hr) Hq.
  assert (Hh : flat_map holds (threads (mule s)) = []).
  { apply flat_map_none; [|assumption]. intros t Ht. unfold holds. rewrite Ht. reflexivity. }
  assert (Hf : flat_map in_flight (threads (mule s)) = []).
  { apply flat_map_none; [|assumption]. intros t Ht. unfold in_flight. rewrite Ht. reflexivity. }
  split; [|split].
  - unfold in_reset. rewrite Hpc, Hst. reflexivity.
  - unfold batch_views, drained. rewrite Hpc, Hr, Hp.
    repeat split; try lia; try contradiction.
    intros j t Ht. unfold batch_view.
    rewrite (Forall_lookup_1 _ _ _ _ Hnone Ht). exact I.
  - unfold batch_counts, batch_sync, claimed. rewrite Hf, Hh, Hk, Hpc, Hr, Hp, Hd. cbn.
    repeat split; try lia; try contradiction; constructor.
Qed.

Lemma batch_label_no_reset l : batch_label l = true -> calls_reset [l] = false.
Proof. destruct l as [| | | | |[]| | |]; cbn; congruence. Qed.

Lemma run_batch rv n Q post : forall s s',
  run rv post s = Some s' -> forallb batch_label post = true ->
  pool_ok n s -> in_reset s = false -> batch_views Q s -> batch_counts Q s ->
  pool_ok n s' /\ batch_views Q s' /\ batch_counts Q s'.
Proof.
  induction post as [|l post IH]; intros s s' Hrun Hall Hok Hin Hv Hc; cbn in Hrun.
  - injection Hrun as <-. auto.
  - cbn in Hall. apply andb_prop in Hall as [Hl Hall].
    destruct (step rv l s) as [s1|] eqn:E; [|discriminate].
    pose proof Hok as (_ & Hs & _).
    destruct (step_submit _ _ _ _ E Hin (batch_label_no_reset _ Hl)) as (Hin1 & _).
    apply (IH s1 s' Hrun Hall).
    + eapply step_pool_ok; eauto.
    + assumption.
    + eapply step_batch_views; eauto.
    + eapply step_batch_counts; eauto.
Qed.

(** The invariants of a batch: [pre] holds the mule_submit calls, [post]
    what follows the first call of a lifecycle function. *)
Lemma batch_reach rv n pre post s :
  run rv (pre ++ post) (mule_init n) = Some s ->
  forallb (fun l => negb (is_call l)) pre = true ->
  forallb batch_label post = true ->
  pool_ok n s /\
  batch_views (wrap (sum_counts (submit_counts pre))) s /\
  batch_counts (wrap (sum_counts (submit_counts pre))) s.
Proof.
  intros Hrun Hpre Hpost. rewrite run_app in Hrun.
  destruct (run rv pre (mule_init n)) as [s0|] eqn:E0; [|discriminate].
  assert (Hq0 : quiet s0).
  { apply (run_invariant rv (fun l => negb (is_call l)) quiet
             (fun l s s' Hl H => step_quiet rv l s s' Hl H) pre _ _ Hpre E0), quiet_init. }
  destruct (run_submit rv pre _ _ E0 eq_refl (no_call_no_reset _ Hpre)) as (_ & Hq & _).
  rewrite fold_wrap_sum in Hq by (cbn; split; [lia|reflexivity]). cbn in Hq.
  destruct (batch_start s0 Hq0) as (Hin & Hv & Hc).
  { rewrite Hq. apply wrap_range. }
  rewrite Hq in Hv, Hc.
  apply (run_batch rv n _ post s0 s Hrun Hpost); auto.
  apply (run_pool_ok rv n pre _ _ E0), pool_ok_init.
Qed.

Lemma length_holds_in_flight ts :
  (length (flat_map holds ts) <= length (flat_map in_flight ts))%nat.
Proof.
  induction ts as [|t ts IH]; cbn; [lia|]. rewrite !length_app.
  unfold holds at 1, in_flight at 1. destruct (t_pc t); cbn; lia.
Qed.

Lemma in_first_items n x : In x (first_items n) <-> 1 <= x <= Z.of_nat n.
Proof.
  unfold first_items. rewrite in_map_iff. split.
  - intros (k & <- & Hk). apply in_seq in Hk. lia.
  - intros Hx. exists (Z.to_nat x). split; [lia|]. apply in_seq. lia.
Qed.

(** [Q] distinct numbers between 1 and [Q] are all of them. *)
Lemma all_items_once (l : list Z) (Q : Z) :
  NoDup l -> Forall (fun x => 1 <= x <= Q) l -> Z.of_nat (length l) = Q ->
  forall idx, 1 <= idx <= Q -> count_occ Z.eq_dec l idx = 1%nat.
Proof.
  intros Hnd Hall Hlen idx Hidx.
  assert (Hsub : l ⊆+ first_items (length l)).
  { apply NoDup_submseteq; [assumption|]. intros x Hx.
    apply list_elem_of_In, in_first_items.
    rewrite Forall_forall in Hall. apply Hall in Hx. lia. }
  assert (Hperm : l ≡ₚ first_items (length l)).
  { apply submseteq_length_Permutation; [assumption|].
    unfold first_items. rewrite length_map, length_seq. lia. }
  apply NoDup_count_occ'; [apply NoDup_ListNoDup; assumption|].
  apply list_elem_of_In. rewrite Hperm. apply list_elem_of_In, in_first_items. lia.
Qed.

Lemma batch_complete Q s :
  batch_views Q s -> batch_counts Q s -> Q <= processed (mule s) ->
  (forall idx, 1 <= idx <= Q -> times_executed idx s = 1%nat) /\
  Forall (fun c => 1 <= snd c <= Q) (kernel_calls s) /\
  w1_counter s = Q /\ processed (mule s) = Q.
Proof.
  intros (Hq & Hp & HQ & _) (Hp0 & Hfl & Hlen & Hnd & Hall & _) Hdone.
  pose proof (length_holds_in_flight (threads (mule s))) as Hh.
  assert (Hnil : flat_map holds (threads (mule s)) = []).
  { apply length_zero_iff_nil. lia. }
  unfold claimed in *. rewrite Hnil, app_nil_r in *.
  assert (HpQ : processing (mule s) = Q) by lia. rewrite HpQ in *.
  rewrite length_map in Hlen.
  split; [|split; [|split]].
  - intros idx Hidx. unfold times_executed.
    apply (all_items_once _ Q); auto. rewrite length_map. assumption.
  - apply Forall_map in Hall. exact Hall.
  - unfold w1_counter. assumption.
  - lia.
Qed.

(** X5. When every mule_submit comes before the first call of a
    lifecycle function and mule_reset is not called, then for any number
    of workers and any interleaving,
    [processed <= processing <= queued] holds at every moment, with
    [queued] the sum (in size_t arithmetic) of the submitted counts.  The
    stale copy of [queued] that breaks this order needs a mule_submit next
    to running workers. *)
Theorem batch_counter_order rv n pre post s :
  run rv (pre ++ post) (mule_init n) = Some s ->
  forallb (fun l => negb (is_call l)) pre = true ->
  forallb batch_label post = true ->
  0 <= processed (mule s) <= processing (mule s) /\
  processing (mule s) <= queued (mule s) /\
  queued (mule s) = wrap (sum_counts (submit_counts pre)).
Proof.
  intros Hrun Hpre Hpost.
  destruct (batch_reach rv n pre post s Hrun Hpre Hpost)
    as (_ & (Hq & Hp & _) & (Hp0 & Hfl & _)).
  rewrite Hq. repeat split; lia.
Qed.

Lemma batch_counter_order_witness :
  0 <= processed (mule readme_final) <= processing (mule readme_final) /\
  processing (mule readme_final) <= queued (mule readme_final) /\
  queued (mule readme_final) = 8.
Proof.
  apply (batch_counter_order mumule_h 2 [L_submit 8; L_submit_finish 0]
           (skipn 2 readme_schedule) readme_final);
    vm_compute; reflexivity.
Defined.

(** X6. In the same setting, once a mule_synchronize has returned, every
    index from 1 to the number of items submitted has been handed to the
    kernel exactly once and no other index has; the counter of the
    README example and of test_mumule.c (line 45) then equals that
    number, and stays so. *)
Theorem batch_synchronize_exactly_once rv n pre post s :
  run rv (pre ++ post) (mule_init n) = Some s ->
  forallb (fun l => negb (is_call l)) pre = true ->
  forallb batch_label post = true ->
  In (A_synchronize, 0) (returns s) ->
  (forall idx, 1 <= idx <= wrap (sum_counts (submit_counts pre)) ->
               times_executed idx s = 1%nat) /\
  Forall (fun c => 1 <= snd c <= wrap (sum_counts (submit_counts pre))) (kernel_calls s) /\
  w1_counter s = wrap (sum_counts (submit_counts pre)) /\
  processed (mule s) = wrap (sum_counts (submit_counts pre)).
Proof.
  intros Hrun Hpre Hpost Hret.
  destruct (batch_reach rv n pre post s Hrun Hpre Hpost) as (_ & Hv & Hc).
  apply batch_complete; try assumption.
  destruct Hc as (_ & _ & _ & _ & _ & _ & Hsy). auto.
Qed.

Lemma batch_synchronize_exactly_once_witness :
  (forall idx, 1 <= idx <= 8 -> times_executed idx readme_final = 1%nat) /\
  Forall (fun c => 1 <= snd c <= 8) (kernel_calls readme_final) /\
  w1_counter readme_final = 8 /\
  processed (mule readme_final) = 8.
Proof.
  apply (batch_synchronize_exactly_once mumule_h 2 [L_submit 8; L_submit_finish 0]
           (skipn 2 readme_schedule) readme_final);
    [vm_compute; reflexivity | reflexivity | reflexivity | vm_compute; tauto].
Defined.

(** X7. In the same setting, with at least one worker: once a mule_launch
    has returned and the caller is idle with [running] false again, that
    is after mule_shutdown has returned, every submitted index has been
    executed exactly once, also without any mule_synchronize.
    mule_shutdown waits for the batch to be worked off. *)
Theorem batch_shutdown_drains rv n pre post s :
  run rv (pre ++ post) (mule_init n) = Some s ->
  forallb (fun l => negb (is_call l)) pre = true ->
  forallb batch_label post = true ->
  (1 <= n)%nat ->
  In (A_launch, 0) (returns s) ->
  running (mule s) = false -> d_pc (disp s) = D_idle ->
  (forall idx, 1 <= idx <= wrap (sum_counts (submit_counts pre)) ->
               times_executed idx s = 1%nat) /\
  Forall (fun c => 1 <= snd c <= wrap (sum_counts (submit_counts pre))) (kernel_calls s) /\
  w1_counter s = wrap (sum_counts (submit_counts pre)) /\
  processed (mule s) = wrap (sum_counts (submit_counts pre)).
Proof.
  intros Hrun Hpre Hpost Hn Hl Hrn Hpc.
  destruct (batch_reach rv n pre post s Hrun Hpre Hpost) as (Hok & Hv & Hc).
  apply batch_complete; try assumption.
  pose proof Hok as (Hnum & Hs & _).
  pose proof (no_workers s Hs Hrn (or_introl Hpc)) as Hnone.
  destruct Hv as (_ & _ & _ & Hdr & _). destruct Hc as (_ & Hfl & _).
  rewrite (flat_map_none in_flight) in Hfl; [| |assumption].
  2: { intros t Ht. unfold in_flight. rewrite Ht. reflexivity. }
  unfold drained in Hdr. rewrite Hpc in Hdr. rewrite <- (Hdr Hl Hrn ltac:(lia)). cbn in Hfl. lia.
Qed.

Lemma batch_shutdown_drains_witness :
  (forall idx, 1 <= idx <= 2 -> times_executed idx drained_final = 1%nat) /\
  Forall (fun c => 1 <= snd c <= 2) (kernel_calls drained_final) /\
  w1_counter drained_final = 2 /\
  processed (mule drained_final) = 2.
Proof.
  apply (batch_shutdown_drains mumule_h 1 [L_submit 2; L_submit_finish 0]
           (skipn 2 (shutdown_with_work_queued ++ drain_after_shutdown)) drained_final);
    [vm_compute; reflexivity | reflexivity | reflexivity | lia | vm_compute; tauto
    | reflexivity | reflexivity].
Defined.

(** ** Workers and mule_shutdown: leaving *)

Lemma leaving_wake_thread t : leaving (t_pc (wake_thread t)) = leaving (t_pc t).
Proof. unfold wake_thread. destruct (t_pc t) eqn:E; cbn; rewrite ?E; reflexivity. Qed.

Lemma step_leaving_ok rv l s s' :
  step rv l s = Some s' -> slots_ok s -> leaving_ok s -> leaving_ok s'.
Proof.
  intros H (Hc & _ & Hslot) Hlv. unfold leaving_ok, caller_ok, slot_ok in *.
  step_cases H.
  all: intros j u Hu; try slot_cases.
  all: use_lookups Hlv Hslot; clear Hlv Hslot.
  all: rewrite ?leaving_wake_thread in *.
  all: rewrite_eqns_in_hyps; rewrite_pcs.
  all: cbn in *.
  all: try solve [finish].
  destruct (t_pc u); try discriminate H1; exfalso; apply H0; discriminate.
Qed.

Lemma run_leaving_ok rv n sch : forall s s',
  run rv sch s = Some s' -> pool_ok n s -> leaving_ok s -> leaving_ok s'.
Proof.
  induction sch as [|l sch IH]; intros s s' Hrun Hok Hlv; cbn in Hrun.
  - injection Hrun as <-. assumption.
  - destruct (step rv l s) as [s1|] eqn:E; [|discriminate].
    pose proof Hok as (_ & Hs & _).
    apply (IH s1 s' Hrun).
    + eapply step_pool_ok; eauto.
    + eapply step_leaving_ok; eauto.
Qed.

(** A worker at line 145 or beyond exists only while mule_shutdown,
    past its store of line 233, has not yet joined it. *)
Lemma leaving_during_shutdown rv n sch s i t :
  run rv sch (mule_init n) = Some s ->
  threads (mule s) !! i = Some t -> leaving (t_pc t) = true ->
  running (mule s) = false /\ joining (d_pc (disp s)) = true.
Proof.
  intros Hrun Ht Hl.
  pose proof (run_pool_ok rv n sch _ _ Hrun (pool_ok_init n)) as Hok.
  assert (Hlv : leaving_ok s).
  { apply (run_leaving_ok rv n sch _ _ Hrun (pool_ok_init n)).
    intros j u Hu. change (threads (mule (mule_init n)))
      with (replicate mumule_max_threads thread_zero) in Hu.
    apply lookup_replicate in Hu as [-> _]. discriminate. }
  pose proof (Hlv i t Ht Hl) as Hrn. split; [assumption|].
  destruct Hok as (_ & (Hc & _ & Hslot) & _).
  destruct (Hslot i t Ht) as (_ & _ & Ha).
  { intros E. rewrite E in Hl. discriminate. }
  unfold caller_ok in Hc.
  destruct (d_pc (disp s)); cbn in *; try reflexivity; try contradiction; try congruence.
  destruct Hc. congruence.
Qed.

(** The worker has left and the two items are still unclaimed. *)
Lemma items_left_unclaimed rv :
  exists s,
    run rv shutdown_after_empty_test (mule_init 1) = Some s /\
    queued (mule s) = 2 /\ processing (mule s) = 0 /\ kernel_calls s = [] /\
    returns s = [(A_launch, 0); (A_shutdown, 0)] /\
    d_pc (disp s) = D_idle /\
    Forall (fun t => t_pc t = T_none) (threads (mule s)).
Proof.
  destruct rv.
  all: eexists; split; [vm_compute; reflexivity|].
  all: repeat split; repeat constructor.
Qed.

(** C5, amended. [running] alone does not keep unclaimed indices
    unclaimed.  A worker reads it only in the queue-empty branch:
    whenever it is between line 113 and its end, its own copies of
    [processing] and [queued] were equal at line 111; it moves to its
    exit only from line 114 with [running] false; and a worker at line
    145 or beyond exists only while mule_shutdown, past line 233, has yet
    to join it.  Neither the claim of an unclaimed index (lines 126-128)
    nor the execution of a claimed one (lines 129-130) looks at
    [running]: both go through after mule_shutdown has cleared it.  When
    every item was submitted before the first lifecycle call, a
    mule_shutdown of a launched pool of at least one worker has returned
    only after every item was executed exactly once.  An item submitted
    after the last test of a worker can stay unclaimed for ever: the last
    part is the run [shutdown_after_empty_test]. *)
Theorem workers_leave_only_with_queue_empty rv n sch s :
  run rv sch (mule_init n) = Some s ->
  (forall i t, threads (mule s) !! i = Some t ->
               on_exit_path (t_pc t) = true -> t_processing t = t_queued t)
  /\ (forall i t, threads (mule s) !! i = Some t ->
                  leaving (t_pc t) = true ->
                  running (mule s) = false /\ joining (d_pc (disp s)) = true)
  /\ (forall l s' i t t',
        step rv l s = Some s' ->
        threads (mule s) !! i = Some t -> threads (mule s') !! i = Some t' ->
        t_pc t <> T_leaving -> t_pc t' = T_leaving ->
        l = L_thread i /\ t_pc t = T_load_running /\ running (mule s) = false /\
        t_processing t = t_queued t)
  /\ (forall i t,
        fault s = None -> threads (mule s) !! i = Some t ->
        t_pc t = T_cas -> processing (mule s) = t_processing t ->
        exists s',
          step rv (L_thread i) s = Some s' /\
          processing (mule s') = wrap (processing (mule s) + 1) /\
          running (mule s') = running (mule s) /\
          threads (mule s') !! i
          = Some (thread_with_pc T_kernel
                    (thread_with_workitem (wrap (processing (mule s) + 1)) t)))
  /\ (forall i t,
        fault s = None -> threads (mule s) !! i = Some t -> t_pc t = T_kernel ->
        exists s',
          run rv [L_thread i; L_thread i] s = Some s' /\
          kernel_calls s' = kernel_calls s ++ [(t_idx t, t_workitem t)] /\
          processed (mule s') = wrap (processed (mule s) + 1) /\
          running (mule s') = running (mule s))
  /\ (forall pre post,
        sch = pre ++ post ->
        forallb (fun l => negb (is_call l)) pre = true ->
        forallb batch_label post = true ->
        (1 <= n)%nat ->
        In (A_launch, 0) (returns s) ->
        running (mule s) = false -> d_pc (disp s) = D_idle ->
        (forall idx, 1 <= idx <= wrap (sum_counts (submit_counts pre)) ->
                     times_executed idx s = 1%nat) /\
        Forall (fun c => 1 <= snd c <= wrap (sum_counts (submit_counts pre)))
               (kernel_calls s) /\
        processed (mule s) = wrap (sum_counts (submit_counts pre)))
  /\ (exists s0,
        run rv shutdown_after_empty_test (mule_init 1) = Some s0 /\
        queued (mule s0) = 2 /\ processing (mule s0) = 0 /\ kernel_calls s0 = [] /\
        returns s0 = [(A_launch, 0); (A_shutdown, 0)] /\
        d_pc (disp s0) = D_idle /\
        Forall (fun t => t_pc t = T_none) (threads (mule s0))).
Proof.
  intros Hrun.
  assert (HI : Forall saw_queue_empty (threads (mule s))).
  { apply (run_saw_queue_empty rv sch _ _ Hrun).
    apply Forall_replicate. unfold saw_queue_empty. cbn. discriminate. }
  assert (H1 : forall i t, threads (mule s) !! i = Some t ->
                           on_exit_path (t_pc t) = true -> t_processing t = t_queued t).
  { intros i t Ht. exact (Forall_lookup_1 _ _ _ _ HI Ht). }
  split; [exact H1|]. split; [|split; [|split; [|split; [|split]]]].
  - intros i t. apply (leaving_during_shutdown rv n sch s i t Hrun).
  - intros l s' i t t' Hstep Ht Ht' Hpc Hpc'.
    destruct (step_to_leaving _ _ _ _ _ _ _ Hstep Ht Ht' Hpc Hpc') as (-> & Hlr & Hr).
    repeat split; try assumption. apply (H1 i t Ht). rewrite Hlr. reflexivity.
  - intros i t. apply claim_succeeds.
  - intros i t. apply claimed_item_completes.
  - intros pre post -> Hpre Hpost Hn Hl Hrn Hpc.
    destruct (batch_reach rv n pre post s Hrun Hpre Hpost) as (Hok & Hv & Hc).
    assert (Hdone : wrap (sum_counts (submit_counts pre)) <= processed (mule s)).
    { pose proof Hok as (Hnum & Hs & _).
      pose proof (no_workers s Hs Hrn (or_introl Hpc)) as Hnone.
      destruct Hv as (_ & _ & _ & Hdr & _). destruct Hc as (_ & Hfl & _).
      rewrite (flat_map_none in_flight) in Hfl; [| |assumption].
      2: { intros t Ht. unfold in_flight. rewrite Ht. reflexivity. }
      unfold drained in Hdr. rewrite Hpc in Hdr.
      rewrite <- (Hdr Hl Hrn ltac:(lia)). cbn in Hfl. lia. }
    destruct (batch_complete _ s Hv Hc Hdone) as (Ha & Hb & _ & Hd). auto.
  - apply items_left_unclaimed.
Qed.

Lemma workers_leave_only_with_queue_empty_witness :
  (exists s1 s2,
     run mumule_h (shutdown_with_work_queued ++ [L_thread 0; L_thread 0])
         (mule_init 1) = Some s1 /\
     running (mule s1) = false /\
     step mumule_h (L_thread 0) s1 = Some s2 /\
     processing (mule s2) = wrap (processing (mule s1) + 1) /\
     running (mule s2) = false) /\
  running (mule drained_final) = false /\
  returns drained_final = [(A_launch, 0); (A_shutdown, 0)] /\
  (forall idx, 1 <= idx <= 2 -> times_executed idx drained_final = 1%nat) /\
  processed (mule drained_final) = 2.
Proof.
  split.
  - destruct (run mumule_h (shutdown_with_work_queued ++ [L_thread 0; L_thread 0])
                (mule_init 1)) as [s1|] eqn:E; [|vm_compute in E; discriminate E].
    pose proof (workers_leave_only_with_queue_empty mumule_h 1 _ s1 E)
      as (_ & _ & _ & Hc & _).
    exists s1. vm_compute in E. injection E as <-.
    destruct (Hc 0%nat _ eq_refl eq_refl eq_refl eq_refl) as (s2 & Hs2 & Hp & Hr & _).
    exists s2. split; [reflexivity|]. split; [reflexivity|].
    split; [exact Hs2|]. split; [exact Hp | exact Hr].
  - split; [reflexivity|]. split; [reflexivity|].
    assert (E : run mumule_h (shutdown_with_work_queued ++ drain_after_shutdown)
                    (mule_init 1) = Some drained_final) by (vm_compute; reflexivity).
    pose proof (workers_leave_only_with_queue_empty mumule_h 1 _ drained_final E)
      as (_ & _ & _ & _ & _ & Hb & _).
    destruct (Hb [L_submit 2; L_submit_finish 0]
                 (skipn 2 (shutdown_with_work_queued ++ drain_after_shutdown))
                 eq_refl eq_refl eq_refl ltac:(lia)
                 ltac:(vm_compute; tauto) eq_refl eq_refl) as (Ha & _ & Hd).
    split; [exact Ha | exact Hd].
Defined.

Lemma step_waits_alone rv Q l s s' :
  0 < Q -> batch_label l = true ->
  step rv l s = Some s' -> waits_alone Q s -> waits_alone Q s'.
Proof.
  intros HQ Hl H (Hnone & Hq & Hd & Hr & Hst & Hpc). unfold waits_alone in *.
  step_cases H; try discriminate; try contradiction.
  all: try (pose proof (Forall_lookup_1 _ _ _ _ Hnone ltac:(eassumption)); cbn in *; congruence).
  all: try (repeat split; try assumption; try reflexivity;
            try (apply Forall_map; eapply Forall_impl; [exact Hnone|];
                 intros t Ht; cbn; unfold wake_thread; rewrite Ht; exact Ht)).
  all: try (exfalso; lia).
  rewrite Heqc. exact I.
Qed.

(** X8. mule_synchronize called with items submitted and no mule_launch
    before it does not return: as long as no further mule_submit starts,
    the caller stays in the loop of lines 188-206, [processed] stays 0
    and nothing is logged as returned.  The caller is the thread that
    would have to call mule_launch. *)
Theorem synchronize_without_workers_never_returns rv n pre sch s :
  run rv (pre ++ L_call A_synchronize :: sch) (mule_init n) = Some s ->
  forallb (fun l => negb (is_call l)) pre = true ->
  forallb batch_label sch = true ->
  0 < wrap (sum_counts (submit_counts pre)) ->
  returns s = [] /\ d_pc (disp s) <> D_idle /\
  d_stack (disp s) = [A_synchronize] /\ processed (mule s) = 0.
Proof.
  intros Hrun Hpre Hsch HQ. rewrite run_app in Hrun.
  destruct (run rv pre (mule_init n)) as [s0|] eqn:E0; [|discriminate].
  assert (Hq0 : quiet s0).
  { apply (run_invariant rv (fun l => negb (is_call l)) quiet
             (fun l s s' Hl H => step_quiet rv l s s' Hl H) pre _ _ Hpre E0), quiet_init. }
  destruct (run_submit rv pre _ _ E0 eq_refl (no_call_no_reset _ Hpre)) as (_ & Hq & _).
  rewrite fold_wrap_sum in Hq by (cbn; split; [lia|reflexivity]). cbn in Hq.
  cbn [run] in Hrun.
  destruct (step rv (L_call A_synchronize) s0) as [s1|] eqn:E1; [|discriminate].
  assert (H1 : waits_alone (wrap (sum_counts (submit_counts pre))) s1).
  { destruct Hq0 as (Hpc & Hst & Hnone & Hp & Hd & Hk & Hr).
    unfold step, call in E1. destruct (fault s0); [discriminate|].
    rewrite Hpc, Hst in E1. injection E1 as <-. repeat split; assumption. }
  assert (H : waits_alone (wrap (sum_counts (submit_counts pre))) s).
  { apply (run_invariant rv batch_label (waits_alone (wrap (sum_counts (submit_counts pre)))))
      with (sch := sch) (s := s1); try assumption.
    intros l sa sb Hl Hstep. apply (step_waits_alone rv _ l sa sb HQ Hl Hstep). }
  destruct H as (_ & _ & Hd & Hr & Hst & Hpc).
  repeat split; try assumption. intros E. rewrite E in Hpc. exact Hpc.
Qed.

Lemma synchronize_without_workers_never_returns_witness :
  exists s,
    run mumule_h ([L_submit 1; L_submit_finish 0] ++
                  L_call A_synchronize :: repeat L_caller 6 ++
                  [L_caller_timeout; L_caller; L_caller; L_caller; L_caller; L_caller])
        (mule_init 2) = Some s /\
    returns s = [] /\ d_pc (disp s) <> D_idle /\
    d_stack (disp s) = [A_synchronize] /\ processed (mule s) = 0.
Proof.
  destruct (run mumule_h ([L_submit 1; L_submit_finish 0] ++
                  L_call A_synchronize :: repeat L_caller 6 ++
                  [L_caller_timeout; L_caller; L_caller; L_caller; L_caller; L_caller])
        (mule_init 2)) as [s|] eqn:E; [|vm_compute in E; discriminate E].
  exists s. split; [reflexivity|].
  apply (synchronize_without_workers_never_returns mumule_h 2
           [L_submit 1; L_submit_finish 0] _ s E); reflexivity.
Defined.

(** ** mule_reset without workers *)

Lemma step_resets_alone rv r0 l s s' :
  is_new_call l = false ->
  step rv l s = Some s' -> resets_alone r0 s ->
  resets_alone r0 s' /\ kernel_calls s' = kernel_calls s.
Proof.
  intros Hl H (Hnone & Hpc). unfold resets_alone in *.
  step_cases H; try discriminate; try contradiction.
  all: try (pose proof (Forall_lookup_1 _ _ _ _ Hnone ltac:(eassumption)); cbn in *; congruence).
  all: split; [|reflexivity].
  all: split; [try assumption;
               try (apply Forall_map; eapply Forall_impl; [exact Hnone|];
                    intros t Ht; cbn; unfold wake_thread; rewrite Ht; exact Ht)|].
  all: try rewrite_eqns.
  all: try solve [finish].
  all: try solve [split_goal_matches; finish].
  all: repeat match goal with
              | E : d_stack ?d = _ , H : context [d_stack ?d] |- _ => rewrite E in H
              end.
  all: try solve [destruct Hpc as [[= -> ->] ->]; cbn; rewrite <- ?app_assoc; finish].
  all: try solve [destruct Hpc as [[= -> ->] Hr]; cbn; rewrite ?Hr, <- ?app_assoc; finish].
  destruct Hpc as ([= ->] & -> & ? & ? & ?). rewrite <- app_assoc. auto.
Qed.

Lemma run_resets_alone rv r0 sch : forall s s',
  forallb (fun l => negb (is_new_call l)) sch = true ->
  run rv sch s = Some s' -> resets_alone r0 s ->
  resets_alone r0 s' /\ kernel_calls s' = kernel_calls s.
Proof.
  induction sch as [|l sch IH]; intros s s' Hsch Hrun HI; cbn in *.
  - injection Hrun as <-. auto.
  - apply andb_prop in Hsch as [Hl Hsch]. apply negb_true_iff in Hl.
    destruct (step rv l s) as [s1|] eqn:E; [|discriminate].
    destruct (step_resets_alone rv r0 l s s1 Hl E HI) as [HI1 Hk1].
    destruct (IH s1 s' Hsch Hrun HI1) as [HI' Hk']. split; congruence.
Qed.

(** X20. mule_reset called on a stopped pool (the caller between two
    calls, [running] false) and not overlapped by a mule_submit: if it
    returns, the three counters are 0, its mule_synchronize and itself
    are logged as returned with 0, and no kernel call was made.  Without
    workers the three stores of lines 216-218 race with nothing. *)
Theorem mule_reset_on_stopped_pool rv n s sch s' :
  reachable rv n s ->
  d_pc (disp s) = D_idle -> running (mule s) = false ->
  run rv (L_call A_reset :: sch) s = Some s' ->
  forallb (fun l => negb (is_new_call l)) sch = true ->
  d_pc (disp s') = D_idle ->
  queued (mule s') = 0 /\ processing (mule s') = 0 /\ processed (mule s') = 0 /\
  returns s' = returns s ++ [(A_synchronize, 0); (A_reset, 0)] /\
  kernel_calls s' = kernel_calls s.
Proof.
  intros Hr Hpc Hrn Hrun Hsch Hidle.
  pose proof (reachable_pool_ok _ _ _ Hr) as Hok.
  destruct (stopped_pool n s Hok Hrn (or_introl Hpc)) as (Hnone & _).
  destruct Hok as (_ & (Hc & _) & _). unfold caller_ok in Hc. rewrite Hpc in Hc.
  cbn [run] in Hrun.
  destruct (step rv (L_call A_reset) s) as [s1|] eqn:E; [|discriminate].
  assert (H1 : resets_alone (returns s) s1 /\ kernel_calls s1 = kernel_calls s).
  { unfold step, call in E. destruct (fault s); [discriminate|].
    rewrite Hpc, Hc in E. injection E as <-. repeat split; assumption. }
  destruct H1 as [H1 Hk1].
  destruct (run_resets_alone rv _ sch s1 s' Hsch Hrun H1) as [(_ & H) Hk].
  rewrite Hidle in H. destruct H as (? & ? & ? & ?). repeat split; congruence.
Qed.

Lemma mule_reset_on_stopped_pool_witness :
  exists s',
    run mumule_h (L_call A_reset :: repeat L_caller 10) readme_final = Some s' /\
    queued (mule readme_final) = 8 /\
    queued (mule s') = 0 /\ processing (mule s') = 0 /\ processed (mule s') = 0 /\
    returns s' = returns readme_final ++ [(A_synchronize, 0); (A_reset, 0)] /\
    kernel_calls s' = kernel_calls readme_final.
Proof.
  destruct (run mumule_h (L_call A_reset :: repeat L_caller 10) readme_final)
    as [s'|] eqn:E; [|vm_compute in E; discriminate E].
  exists s'. split; [reflexivity|]. split; [reflexivity|].
  apply (mule_reset_on_stopped_pool mumule_h 2 readme_final (repeat L_caller 10) s');
    try reflexivity.
  - exists readme_schedule. vm_compute. reflexivity.
  - exact E.
  - vm_compute in E. injection E as <-. reflexivity.
Defined.

(** ** What holds for any number of workers *)

Lemma step_monotone rv l s s' k :
  step rv l s = Some s' -> in_reset s = false ->
  claims_ok k s -> k + 1 < size_modulus ->
  processing (mule s) <= processing (mule s') /\
  processed (mule s) <= processed (mule s').
Proof.
  intros H Hin (Hp0 & Hfl & Hk & _) Hk1.
  destruct (step_counters rv l s s' H Hin) as [[->|[-> _]] [->|[-> _]]].
  all: rewrite ?wrap_small by lia; lia.
Qed.

Lemma run_monotone rv sch : forall s s' k,
  run rv sch s = Some s' -> in_reset s = false -> calls_reset sch = false ->
  claims_ok k s -> k + Z.of_nat (length sch) < size_modulus ->
  processing (mule s) <= processing (mule s') /\
  processed (mule s) <= processed (mule s').
Proof.
  induction sch as [|l sch IH]; intros s s' k Hrun Hin Hsch Hc Hlen.
  - cbn in *. injection Hrun as <-. lia.
  - cbn [run] in Hrun. destruct (step rv l s) as [s1|] eqn:E; [|discriminate].
    assert (Hl : calls_reset [l] = false /\ calls_reset sch = false).
    { unfold calls_reset in *. cbn in *. apply orb_false_iff in Hsch as [-> ?]. auto. }
    destruct Hl as [Hl Hsch'].
    destruct (step_submit _ _ _ _ E Hin Hl) as (Hin1 & _).
    cbn [length] in *.
    destruct (step_monotone rv l s s1 k E Hin Hc ltac:(lia)) as [Ha Hb].
    destruct (IH s1 s' (k + 1) Hrun Hin1 Hsch') as [Ha' Hb'].
    + apply (step_claims_ok rv l s s1 k E Hin Hl); [lia | assumption].
    + lia.
    + lia.
Qed.

(** X4. Without mule_reset, and for as long as the counters cannot have
    wrapped, [processing] and [processed] never decrease, whatever the
    number of workers, the calls made and the interleaving. *)
Theorem counters_never_decrease rv n sch1 sch2 s1 s2 :
  run rv sch1 (mule_init n) = Some s1 ->
  run rv sch2 s1 = Some s2 ->
  calls_reset (sch1 ++ sch2) = false ->
  Z.of_nat (length (sch1 ++ sch2)) < size_modulus ->
  processing (mule s1) <= processing (mule s2) /\
  processed (mule s1) <= processed (mule s2).
Proof.
  intros Hrun1 Hrun2 Hsch Hlen. rewrite length_app in Hlen.
  unfold calls_reset in Hsch. rewrite existsb_app in Hsch.
  apply orb_false_iff in Hsch as [Hsch1 Hsch2].
  assert (H0 : claims_ok 0 (mule_init n)).
  { unfold claims_ok, claimed. cbn. repeat split; try lia; constructor. }
  destruct (run_submit rv sch1 _ _ Hrun1 eq_refl Hsch1) as (Hin1 & _).
  pose proof (run_claims_ok rv sch1 _ _ 0 Hrun1 eq_refl Hsch1 ltac:(lia) H0) as Hc1.
  apply (run_monotone rv sch2 s1 s2 (0 + Z.of_nat (length sch1)) Hrun2 Hin1 Hsch2 Hc1).
  lia.
Qed.

Lemma counters_never_decrease_witness :
  processing (mule stopped_with_work) = 0 /\
  processing (mule drained_final) = 2 /\
  processing (mule stopped_with_work) <= processing (mule drained_final) /\
  processed (mule stopped_with_work) <= processed (mule drained_final).
Proof.
  split; [reflexivity|]. split; [reflexivity|].
  apply (counters_never_decrease mumule_h 1 shutdown_with_work_queued drain_after_shutdown
           stopped_with_work drained_final); vm_compute; reflexivity.
Defined.

Lemma counted_wake_thread t : counted (wake_thread t) = counted t.
Proof. unfold counted, wake_thread. destruct (t_pc t) eqn:E; cbn; rewrite ?E; reflexivity. Qed.

Lemma step_executions_ok rv l s s' k :
  step rv l s = Some s' -> in_reset s = false -> calls_reset [l] = false ->
  slots_ok s -> claims_ok k s -> k + 1 < size_modulus ->
  executions_ok s -> executions_ok s'.
Proof.
  intros H Hin Hl (_ & _ & Hslot) (Hp0 & Hfl & Hk & _) Hk1 He.
  unfold executions_ok, slot_ok, in_reset, calls_reset in *.
  apply orb_false_iff in Hin as [Hst Hpc].
  step_cases H; try discriminate.
  all: rewrite ?(flat_map_wake_thread counted) by apply counted_wake_thread.
  all: try assumption.
  all: match goal with
       | E : threads (mule ?s) !! ?i = Some ?m
         |- context [<[?i := ?t']> (threads (mule ?s))] =>
           destruct (flat_map_insert counted _ i m t' E) as (l1 & l2 & F1 & F2);
           destruct (flat_map_insert in_flight _ i m t' E) as (l3 & l4 & G1 & _);
           pose proof (Hslot _ _ E)
       end.
  all: rewrite ?F2; rewrite F1 in He; rewrite G1 in Hfl; clear F1 F2 G1 Hslot.
  all: unfold counted, in_flight in *; cbn in *.
  all: rewrite_pcs.
  all: rewrite ?length_app in *; cbn in *; rewrite ?length_app in *.
  all: try lia.
  all: try (rewrite wrap_small by lia; lia).
  destruct (t_pc m); cbn in *; try lia.
  all: exfalso; assert (i < i)%nat by (apply H; discriminate); lia.
Qed.

Lemma step_sync_count rv l s s' b k T :
  step rv l s = Some s' -> is_call l = false -> submits_within b l ->
  in_reset s = false ->
  0 <= queued (mule s) -> queued (mule s) + b < size_modulus ->
  claims_ok k s -> k + 1 < size_modulus ->
  sync_progress T s -> sync_progress T s'.
Proof.
  intros H Hl Hb Hin Hq0 Hqb (Hp0 & Hfl & Hk & _) Hk1 HT.
  unfold sync_progress, in_reset, submits_within in *.
  apply orb_false_iff in Hin as [Hst Hpc].
  step_cases H; try discriminate; try contradiction.
  all: try match goal with
       | E : threads (mule ?s) !! ?i = Some ?m |- _ =>
           destruct (flat_map_insert in_flight _ i m m E) as (l3 & l4 & G1 & _);
           rewrite G1 in Hfl; clear G1; unfold in_flight in Hfl
       end.
  all: rewrite_pcs.
  all: rewrite ?length_app in *; cbn in *.
  all: decide_tests.
  all: try (rewrite wrap_small by lia).
  all: try solve [split_goal_matches; finish].
  all: try solve [destruct (d_pc (disp s)); cbn in *; finish].
Qed.

Lemma run_executions_ok rv n sch : forall s s' k,
  run rv sch s = Some s' -> in_reset s = false -> calls_reset sch = false ->
  pool_ok n s -> claims_ok k s -> k + Z.of_nat (length sch) < size_modulus ->
  executions_ok s ->
  in_reset s' = false /\ pool_ok n s' /\
  claims_ok (k + Z.of_nat (length sch)) s' /\ executions_ok s'.
Proof.
  induction sch as [|l sch IH]; intros s s' k Hrun Hin Hsch Hok Hc Hlen He.
  - cbn in *. injection Hrun as <-. rewrite Z.add_0_r. auto.
  - cbn [run] in Hrun. destruct (step rv l s) as [s1|] eqn:E; [|discriminate].
    assert (Hl : calls_reset [l] = false /\ calls_reset sch = false).
    { unfold calls_reset in *. cbn in *. apply orb_false_iff in Hsch as [-> ?]. auto. }
    destruct Hl as [Hl Hsch'].
    destruct (step_submit _ _ _ _ E Hin Hl) as (Hin1 & _).
    cbn [length] in *.
    replace (k + Z.of_nat (S (length sch))) with (k + 1 + Z.of_nat (length sch)) in * by lia.
    pose proof Hok as (_ & Hs & _).
    apply (IH s1 s' (k + 1) Hrun Hin1 Hsch'); try assumption.
    + eapply step_pool_ok; eauto.
    + apply (step_claims_ok rv l s s1 k E Hin Hl); [lia | assumption].
    + apply (step_executions_ok rv l s s1 k E Hin Hl Hs Hc); [lia | assumption].
Qed.

Lemma run_sync_count rv T sch : forall s s' b k,
  run rv sch s = Some s' ->
  forallb (fun l => negb (is_call l)) sch = true ->
  in_reset s = false ->
  Forall (fun count => 0 <= count) (submit_counts sch) ->
  sum_counts (submit_counts sch) <= b ->
  0 <= queued (mule s) -> queued (mule s) + b < size_modulus ->
  claims_ok k s -> k + Z.of_nat (length sch) < size_modulus ->
  sync_progress T s -> sync_progress T s'.
Proof.
  induction sch as [|l sch IH]; intros s s' b k Hrun Hnc Hin Hpos Hsum Hq0 Hqb Hc Hlen HT.
  - cbn in *. congruence.
  - cbn [run] in Hrun. destruct (step rv l s) as [s1|] eqn:E; [|discriminate].
    cbn in Hnc. apply andb_prop in Hnc as [Hl Hnc]. apply negb_true_iff in Hl.
    assert (Hr : calls_reset [l] = false) by (destruct l; try discriminate; reflexivity).
    destruct (step_submit _ _ _ _ E Hin Hr) as (Hin1 & Hq1 & _).
    assert (Hb : submits_within b l /\
                 Forall (fun count => 0 <= count) (submit_counts sch) /\
                 sum_counts (submit_counts sch) <= budget_after b l).
    { destruct l; cbn in *; try (repeat split; auto; lia).
      apply Forall_cons in Hpos as [? ?].
      fold (sum_counts (submit_counts sch)) in *.
      match goal with H : Forall _ _ |- _ => pose proof (sum_counts_nonneg _ H) end.
      repeat split; auto; lia. }
    destruct Hb as (Hb & Hpos' & Hsum').
    cbn [length] in Hlen.
    apply (IH s1 s' (budget_after b l) (k + 1) Hrun Hnc Hin1 Hpos' Hsum').
    + rewrite Hq1. destruct l; cbn in *; try assumption. rewrite wrap_small; lia.
    + rewrite Hq1. destruct l; cbn in *; try assumption. rewrite wrap_small; lia.
    + apply (step_claims_ok rv l s s1 k E Hin Hr); [lia | assumption].
    + lia.
    + apply (step_sync_count rv l s s1 b k T E Hl Hb Hin Hq0 Hqb Hc); [lia | assumption].
Qed.

(** X19. For any number of workers, without mule_reset and for as long as
    the counters cannot have wrapped: when a mule_synchronize that was
    called after [T] items had been submitted returns, [processed] is at
    least [T], every unit of [processed] stands for a kernel call that
    has returned, and no two kernel calls had the same index.  So at
    least [T] different indices have been executed; that they are the
    indices 1 .. [T] is what the race on [queued] takes away. *)
Theorem synchronize_counts_executions rv n sch1 sch2 s1 s2 :
  run rv sch1 (mule_init n) = Some s1 ->
  calls_reset sch1 = false ->
  run rv (L_call A_synchronize :: sch2) s1 = Some s2 ->
  forallb (fun l => negb (is_call l)) sch2 = true ->
  d_pc (disp s2) = D_idle ->
  Forall (fun count => 0 <= count) (submit_counts (sch1 ++ sch2)) ->
  sum_counts (submit_counts (sch1 ++ sch2)) < size_modulus ->
  Z.of_nat (length (sch1 ++ sch2)) + 1 < size_modulus ->
  sum_counts (submit_counts sch1) <= processed (mule s2) /\
  processed (mule s2) <= w1_counter s2 /\
  NoDup (map snd (kernel_calls s2)).
Proof.
  intros Hrun1 Hsch1 Hrun2 Hnc Hidle Hpos Hsum Hlen.
  rewrite submit_counts_app in Hpos, Hsum. rewrite sum_counts_app in Hsum.
  rewrite length_app in Hlen.
  apply Forall_app in Hpos as [Hpos1 Hpos2].
  pose proof (sum_counts_nonneg _ Hpos1) as H1.
  pose proof (sum_counts_nonneg _ Hpos2) as H2.
  set (T := sum_counts (submit_counts sch1)) in *.
  set (T2 := sum_counts (submit_counts sch2)) in *.
  assert (H0 : claims_ok 0 (mule_init n)).
  { unfold claims_ok, claimed. cbn. repeat split; try lia; constructor. }
  destruct (run_executions_ok rv n sch1 _ _ 0 Hrun1 eq_refl Hsch1 (pool_ok_init n) H0
              ltac:(lia) eq_refl) as (Hin1 & Hok1 & Hc1 & He1).
  assert (Hq1 : queued (mule s1) = T).
  { destruct (run_submit rv sch1 _ _ Hrun1 eq_refl Hsch1) as (_ & Hq & _).
    rewrite Hq. cbn [mule_init mule queued].
    rewrite fold_wrap_sum by (split; [lia | reflexivity]).
    apply wrap_small. fold T. lia. }
  assert (Hsch2 : calls_reset (L_call A_synchronize :: sch2) = false).
  { pose proof (no_call_no_reset _ Hnc) as Hr. unfold calls_reset in *. cbn. exact Hr. }
  destruct (run_executions_ok rv n _ _ _ (0 + Z.of_nat (length sch1)) Hrun2 Hin1 Hsch2 Hok1 Hc1
              ltac:(cbn [length]; lia) He1) as (_ & _ & Hc2 & He2).
  cbn [run] in Hrun2.
  destruct (step rv (L_call A_synchronize) s1) as [s1'|] eqn:Ecall; [|discriminate].
  assert (Hr : calls_reset [L_call A_synchronize] = false) by reflexivity.
  destruct (step_submit _ _ _ _ Ecall Hin1 Hr) as (Hin1' & Hq1' & _).
  pose proof (step_claims_ok rv _ _ _ (0 + Z.of_nat (length sch1)) Ecall Hin1 Hr
                ltac:(lia) Hc1) as Hc1'.
  assert (HT : sync_progress T s1').
  { unfold step, call in Ecall. destruct (fault s1); [discriminate|].
    destruct (d_pc (disp s1)); try discriminate.
    destruct (d_stack (disp s1)); try discriminate.
    injection Ecall as <-. unfold sync_progress. cbn. split; [reflexivity|].
    rewrite Hq1. reflexivity. }
  pose proof (run_sync_count rv T sch2 _ _ T2 (0 + Z.of_nat (length sch1) + 1)
                Hrun2 Hnc Hin1' Hpos2 (Z.le_refl _)
                ltac:(rewrite Hq1', Hq1; lia) ltac:(rewrite Hq1', Hq1; lia) Hc1'
                ltac:(lia) HT) as HT2.
  unfold sync_progress in HT2. rewrite Hidle in HT2.
  split; [exact HT2|]. split.
  - unfold executions_ok in He2. unfold w1_counter. lia.
  - destruct Hc2 as (_ & _ & _ & Hnd & _). unfold claimed in Hnd.
    apply NoDup_app in Hnd as (Hnd & _ & _). exact Hnd.
Qed.

Lemma synchronize_counts_executions_witness :
  1 <= processed (mule raced_synchronized) /\
  processed (mule raced_synchronized) <= w1_counter raced_synchronized /\
  NoDup (map snd (kernel_calls raced_synchronized)).
Proof.
  apply (synchronize_counts_executions mumule_h 2
           (stale_queued_race ++ repeat (L_thread 1) 7) (repeat L_caller 6)
           raced raced_synchronized).
  - vm_compute; reflexivity.
  - reflexivity.
  - vm_compute; reflexivity.
  - reflexivity.
  - reflexivity.
  - vm_compute. repeat constructor. discriminate.
  - vm_compute; reflexivity.
  - vm_compute; reflexivity.
Defined.

(** ** Deadlines *)

Lemma llong_fits_true z : - 2 ^ 63 <= z < 2 ^ 63 -> llong_fits z = true.
Proof. intros H. unfold llong_fits. apply andb_true_iff. lia. Qed.

Lemma timespec_valid_true t : timespec_valid t = true <-> 0 <= tv_nsec t < 1000000000.
Proof. unfold timespec_valid. rewrite andb_true_iff. lia. Qed.

Lemma timespec_add_some a rel :
  - 2 ^ 62 <= tv_sec a < 2 ^ 62 -> - 2 ^ 62 <= tv_nsec a < 2 ^ 62 ->
  - 2 ^ 62 <= rel < 2 ^ 62 ->
  _timespec_add a rel =
  Some (Timespec (tv_sec a + Z.quot (tv_nsec a + rel) 1000000000)
                 (Z.rem (tv_nsec a + rel) 1000000000)).
Proof.
  intros Hs Hn Hr. unfold _timespec_add.
  assert (Hq : 1000000000 * Z.abs (Z.quot (tv_nsec a + rel) 1000000000) <= Z.abs (tv_nsec a + rel)).
  { assert (E := Z.quot_rem' (tv_nsec a + rel) 1000000000).
    destruct (Z.le_ge_cases 0 (tv_nsec a + rel)) as [Hp|Hp].
    - pose proof (Z.quot_pos _ 1000000000 Hp ltac:(lia)).
      pose proof (Z.rem_bound_pos _ 1000000000 Hp ltac:(lia)). lia.
    - pose proof (Z.rem_bound_pos_neg (tv_nsec a + rel) 1000000000 eq_refl ltac:(lia)).
      lia. }
  rewrite llong_fits_true by lia. rewrite llong_fits_true by lia. reflexivity.
Qed.

(** X15. For a normalised time and a relative time that is not negative,
    _timespec_add returns a normalised time, [0 <= tv_nsec < 10^9], that
    lies [reltime] nanoseconds after the argument. *)
Lemma timespec_add_normalises a rel :
  timespec_valid a = true -> - 2 ^ 62 <= tv_sec a < 2 ^ 62 ->
  0 <= rel < 2 ^ 62 ->
  exists r, _timespec_add a rel = Some r /\ timespec_valid r = true /\
            timespec_ns r = timespec_ns a + rel.
Proof.
  intros Hv Hs Hr. apply timespec_valid_true in Hv.
  rewrite timespec_add_some by lia. eexists. split; [reflexivity|].
  rewrite timespec_valid_true. unfold timespec_ns. cbn.
  pose proof (Z.quot_rem' (tv_nsec a + rel) 1000000000).
  pose proof (Z.rem_bound_pos (tv_nsec a + rel) 1000000000 ltac:(lia) ltac:(lia)). lia.
Qed.

Lemma timespec_add_normalises_witness :
  timespec_valid (Timespec 5 995000000) = true /\
  park_deadline (Timespec 5 995000000) = Some (Timespec 6 5000000) /\
  exists r,
    _timespec_add (Timespec 5 995000000) mumule_revalidate_work_available_ns = Some r /\
    timespec_valid r = true /\
    timespec_ns r =
      timespec_ns (Timespec 5 995000000) + mumule_revalidate_work_available_ns.
Proof.
  split; [reflexivity|]. split; [reflexivity|].
  apply (timespec_add_normalises (Timespec 5 995000000)
           mumule_revalidate_work_available_ns eq_refl);
    cbn; unfold mumule_revalidate_work_available_ns; lia.
Defined.

(** X16. For a relative time that takes the nanoseconds below zero,
    _timespec_add still returns the right instant, but with
    [tv_nsec <= 0]: the remainder of C has the sign of the dividend.  The
    result is normalised only if the sum is a multiple of 10^9. *)
Lemma timespec_add_negative a rel :
  timespec_valid a = true -> - 2 ^ 62 <= tv_sec a < 2 ^ 62 ->
  - 2 ^ 62 <= rel -> tv_nsec a + rel < 0 ->
  exists r, _timespec_add a rel = Some r /\
            timespec_ns r = timespec_ns a + rel /\
            - 1000000000 < tv_nsec r <= 0 /\
            (timespec_valid r = true <-> Z.rem (tv_nsec a + rel) 1000000000 = 0).
Proof.
  intros Hv Hs Hr Hneg. apply timespec_valid_true in Hv.
  rewrite timespec_add_some by lia. eexists. split; [reflexivity|].
  rewrite timespec_valid_true. unfold timespec_ns. cbn.
  pose proof (Z.quot_rem' (tv_nsec a + rel) 1000000000).
  pose proof (Z.rem_bound_pos_neg (tv_nsec a + rel) 1000000000 eq_refl ltac:(lia)). lia.
Qed.

Lemma timespec_add_negative_witness :
  _timespec_add (Timespec 5 0) (-1) = Some (Timespec 5 (-1)) /\
  exists r,
    _timespec_add (Timespec 5 0) (-1) = Some r /\
    timespec_ns r = timespec_ns (Timespec 5 0) + -1 /\
    - 1000000000 < tv_nsec r <= 0 /\
    (timespec_valid r = true <-> Z.rem (tv_nsec (Timespec 5 0) + -1) 1000000000 = 0).
Proof.
  split; [reflexivity|].
  apply (timespec_add_negative (Timespec 5 0) (-1) eq_refl); cbn; lia.
Defined.

(** X17. The deadline of mule_synchronize lies one millisecond after the
    clock reading in both revisions.  src/unnamed/part_002 always hands a
    normalised timespec to cnd_timedwait; src/mumule.h does so only if
    the clock reads less than 999000000 nanoseconds, and hands over
    [tv_nsec >= 10^9] otherwise. *)
Lemma sync_deadline_valid now :
  timespec_valid now = true -> - 2 ^ 62 <= tv_sec now < 2 ^ 62 ->
  exists d d',
    sync_deadline mumule_h now = Some d /\ sync_deadline part_002 now = Some d' /\
    timespec_ns d = timespec_ns now + 1000000 /\ timespec_ns d' = timespec_ns d /\
    timespec_valid d' = true /\
    (timespec_valid d = true <-> tv_nsec now < 999000000).
Proof.
  intros Hv Hs.
  destruct (timespec_add_normalises now mumule_revalidate_queue_complete_ns Hv Hs)
    as (d' & E & Hv' & Hns); [unfold mumule_revalidate_queue_complete_ns; lia|].
  apply timespec_valid_true in Hv. unfold sync_deadline.
  rewrite llong_fits_true by lia. eexists _, d'. split; [reflexivity|].
  split; [exact E|]. rewrite Hns, Hv', timespec_valid_true. unfold timespec_ns. cbn.
  unfold mumule_revalidate_queue_complete_ns. repeat split; lia.
Qed.

Lemma sync_deadline_valid_witness :
  sync_deadline mumule_h (Timespec 5 999500000) = Some (Timespec 5 1000500000) /\
  sync_deadline part_002 (Timespec 5 999500000) = Some (Timespec 6 500000) /\
  exists d d',
    sync_deadline mumule_h (Timespec 5 999500000) = Some d /\
    sync_deadline part_002 (Timespec 5 999500000) = Some d' /\
    timespec_ns d = timespec_ns (Timespec 5 999500000) + 1000000 /\
    timespec_ns d' = timespec_ns d /\
    timespec_valid d' = true /\
    (timespec_valid d = true <-> tv_nsec (Timespec 5 999500000) < 999000000).
Proof.
  split; [reflexivity|]. split; [reflexivity|].
  apply (sync_deadline_valid (Timespec 5 999500000) eq_refl); cbn; lia.
Defined.

(** ** Logging *)

Lemma vsnprintf_fails dst n conv :
  match conv with
  | Some msg => int_max < Z.of_nat (length msg)
  | None => True
  end ->
  vsnprintf dst n conv = Some (dst, -1).
Proof.
  unfold vsnprintf. destruct conv as [msg|]; [|reflexivity].
  intros H. apply Z.ltb_lt in H. rewrite H. reflexivity.
Qed.

Lemma vsnprintf_stores dst m msg :
  Z.of_nat (length msg) <= int_max ->
  (length (take m msg) < length dst)%nat ->
  vsnprintf dst (S m) (Some msg) =
  Some ((take m msg ++ [Byte.x00]) ++ drop (S (length (take m msg))) dst,
        Z.of_nat (length msg)).
Proof.
  intros Hlen Hdst. unfold vsnprintf.
  destruct (Z.ltb_spec int_max (Z.of_nat (length msg))) as [?|_]; [exfalso; lia|].
  cbv zeta. rewrite length_app. cbn [length]. rewrite Nat.add_1_r.
  destruct (Nat.leb_spec (S (length (take m msg))) (length dst)) as [_|?];
    [reflexivity | exfalso; lia].
Qed.

Lemma store_byte_in buf i b :
  (i < length buf)%nat -> store_byte buf (Z.of_nat i) b = Some (<[i := b]> buf).
Proof.
  intros H. unfold store_byte.
  destruct (Z.leb_spec 0 (Z.of_nat i)) as [_|?]; [|exfalso; lia].
  destruct (Z.ltb_spec (Z.of_nat i) (Z.of_nat (length buf))) as [_|?]; [|exfalso; lia].
  cbn. rewrite Nat2Z.id. reflexivity.
Qed.

Lemma log_printf_fails stack malloc conv :
  match conv with
  | Some msg => int_max < Z.of_nat (length msg)
  | None => True
  end ->
  length stack = 128%nat ->
  log_printf stack malloc conv = None.
Proof.
  intros Hc Hst. unfold log_printf. cbv zeta.
  rewrite (vsnprintf_fails _ _ _ Hc).
  change (128 - 1) with (Z.of_nat 127).
  rewrite store_byte_in by (rewrite length_take, Hst; cbn; lia).
  change (128 <=? wrap (-1)) with true. cbv iota.
  change (int_max <? -1 + 1) with false. cbv iota.
  destruct (malloc (wrap (-1 + 1))) as [hbuf|]; [|reflexivity].
  rewrite (vsnprintf_fails _ _ _ Hc). reflexivity.
Qed.

(** X18. What log_printf does, for a buffer of 128 bytes whatever it
    held before and a malloc that succeeds.  A conversion of fewer than
    INT_MAX bytes is written as it is, unless it is 127 bytes long: then
    its first 126 bytes are written, followed by a zero byte, since the
    first vsnprintf is given [sizeof(buf) - 1] = 127 and so keeps 126
    bytes while the test of line 54 sends only lengths from 128 on to
    the heap.  In these cases nothing is accessed out of bounds.  When
    the conversion fails or is longer, vsnprintf returns a negative
    [len], which passes the unsigned test of line 54, and line 58 writes
    [pbuf[-1]]; with exactly INT_MAX bytes [len + 1] overflows.  Both are
    undefined behaviour. *)
Theorem log_printf_output stack malloc conv :
  length stack = 128%nat ->
  (forall n, 0 < n -> exists block, malloc n = Some block /\ length block = Z.to_nat n) ->
  log_printf stack malloc conv =
  match conv with
  | Some msg =>
      if Z.of_nat (length msg) <? int_max
      then Some (if (length msg =? 127)%nat then take 126 msg ++ [Byte.x00] else msg)
      else None
  | None => None
  end.
Proof.
  intros Hst Hm.
  destruct conv as [msg|]; [|apply (log_printf_fails stack malloc None I Hst)].
  destruct (Z.ltb_spec (Z.of_nat (length msg)) int_max) as [Hlen|Hlen].
  2:{ destruct (Z.eq_dec (Z.of_nat (length msg)) int_max) as [E|E].
      - (* INT_MAX bytes: [len + 1] overflows *)
        unfold log_printf. cbv zeta. change (128 - 1)%nat with 127%nat.
        change (128 - 1) with (Z.of_nat 127).
        rewrite vsnprintf_stores by (rewrite ?length_take, ?Hst; lia).
        rewrite store_byte_in
          by (rewrite length_app, length_drop, !length_app, !length_take, Hst;
              cbn [length]; lia).
        rewrite E.
        change (128 <=? wrap int_max) with true. cbv iota.
        change (int_max <? int_max + 1) with true. reflexivity.
      - apply (log_printf_fails stack malloc (Some msg)); [lia | assumption]. }
  assert (Hmod : Z.of_nat (length msg) + 1 < size_modulus).
  { assert (int_max < size_modulus) by reflexivity. lia. }
  unfold log_printf. cbv zeta. change (128 - 1)%nat with 127%nat.
  change (128 - 1) with (Z.of_nat 127).
  rewrite vsnprintf_stores by (rewrite ?length_take, ?Hst; lia).
  rewrite store_byte_in
    by (rewrite length_app, length_drop, !length_app, !length_take, Hst;
        cbn [length]; lia).
  rewrite (wrap_small (Z.of_nat (length msg))) by lia.
  destruct (Z.leb_spec 128 (Z.of_nat (length msg))) as [E2|E2].
  - destruct (Z.ltb_spec int_max (Z.of_nat (length msg) + 1)) as [?|_];
      [exfalso; lia|].
    rewrite (wrap_small (Z.of_nat (length msg) + 1)) by lia.
    destruct (Hm (Z.of_nat (length msg) + 1) ltac:(lia)) as (block & -> & Hb).
    replace (Z.to_nat (Z.of_nat (length msg) + 1)) with (S (length msg)) in * by lia.
    rewrite vsnprintf_stores by (rewrite ?length_take; lia).
    rewrite (take_ge msg (length msg)) by lia.
    rewrite drop_ge by lia. rewrite app_nil_r.
    rewrite store_byte_in by (rewrite length_app; cbn [length]; lia).
    unfold fwrite. rewrite (wrap_small (Z.of_nat (length msg))) by lia.
    rewrite length_insert, length_app. cbn [length].
    destruct (Z.leb_spec (Z.of_nat (length msg)) (Z.of_nat (length msg + 1))) as [_|?];
      [|exfalso; lia].
    rewrite Nat2Z.id.
    destruct (Nat.eqb_spec (length msg) 127) as [e|e]; [exfalso; lia|].
    rewrite take_insert_ge by lia. rewrite take_app_length. reflexivity.
  - unfold fwrite.
    rewrite length_insert, length_app, length_drop, !length_app, !length_take, Hst.
    cbn [length].
    destruct (Z.leb_spec (Z.of_nat (length msg))
                (Z.of_nat (126 `min` length msg + 1
                           + (128 `min` 128 - S (126 `min` length msg))))) as [_|?];
      [|exfalso; lia].
    rewrite Nat2Z.id. rewrite take_insert_ge by lia.
    destruct (Nat.eqb_spec (length msg) 127) as [e|e].
    + rewrite e. rewrite take_app_length'; [reflexivity|].
      rewrite length_app, length_take. cbn [length]. lia.
    + rewrite (take_ge msg 126) by lia. rewrite <- app_assoc. rewrite take_app_length.
      reflexivity.
Qed.

Lemma log_printf_output_witness :
  log_printf (replicate 128 Byte.xff) malloc_zeroed (Some message_127) =
    Some (replicate 126 Byte.x61 ++ [Byte.x00]) /\
  log_printf (replicate 128 Byte.xff) malloc_zeroed None = None.
Proof.
  assert (Hm : forall n, 0 < n ->
            exists block, malloc_zeroed n = Some block /\ length block = Z.to_nat n).
  { intros n Hn. exists (replicate (Z.to_nat n) Byte.x00).
    split; [reflexivity | apply length_replicate]. }
  split.
  - exact (log_printf_output (replicate 128 Byte.xff) malloc_zeroed (Some message_127)
             eq_refl Hm).
  - exact (log_printf_output (replicate 128 Byte.xff) malloc_zeroed None eq_refl Hm).
Defined.
